(** * StickerGenie: the pixel-segmentation and mask-extraction engine

    A shallow embedding of [utils/backgroundExtractor.ts] and
    [utils/slicingUtil.ts], and the properties of the extraction and
    slicing pipeline proved over it.

    Conventions of the embedding.
    - A JavaScript typed array ([Uint8Array], [Uint8ClampedArray]) is a
      finite map from indices to cell values whose keys are exactly the
      allocated indices [0 .. length-1].  Reading outside the allocation
      yields [undefined] ([None]); writing outside it is ignored
      ([alter] leaves an absent key absent).
    - JavaScript numbers that only ever hold integers (indices, sizes,
      pixel channels, pass counts) are [Z]; numbers that can be
      fractional (tolerance, grid lines, rectangle fields) are exact
      rationals [Q].  Rounding error of IEEE doubles is not modelled.
    - [while (stack.length)] loops run on a step budget that is computed
      from the state; the budget is proved never to be exhausted. *)

From Stdlib Require Import ZArith QArith Qround Qminmax Bool Lia Lqa Sorted String.
From stdpp Require Import base option list gmap.

Open Scope Z_scope.

(** ** Typed arrays *)

Definition aset (a : gmap Z Z) (i v : Z) : gmap Z Z := alter (fun _ => v) i a.

(** [a[i] === v] *)
Definition is_val (o : option Z) (v : Z) : bool :=
  match o with
  | Some x => x =? v
  | None => false
  end.

Fixpoint zseq (s : Z) (n : nat) : list Z :=
  match n with
  | O => []
  | S k => s :: zseq (s + 1) k
  end.

(** The indices [0, 1, ..., n-1] visited by [for (let i = 0; i < n; i++)]. *)
Definition indices (n : Z) : list Z := zseq 0 (Z.to_nat n).

(** [for (let i = 0; i < n; i++) s = body(s, i)] *)
Definition forUpTo {S : Type} (n : Z) (body : S -> Z -> S) (s : S) : S :=
  foldl body s (indices n).

(** [new Uint8Array(n)]: [n] cells, all zero. *)
Definition newArray (n : Z) : gmap Z Z :=
  list_to_map ((fun i => (i, 0)) <$> indices n).

(** The typed array holding the elements of [l]. *)
Definition of_list (l : list Z) : gmap Z Z :=
  list_to_map (zip (zseq 0 (length l)) l).

(** [a.length] *)
Definition alength (a : gmap Z Z) : Z := Z.of_nat (size a).

(** ** The explicit-stack flood fill shared by the three traversals

    [generateFloodFillMask], [fillInternalHoles] and the component
    labelling of [detectSegments] run the same loop: pop an index, look at
    [i-1, i+1, i-w, i+w], and for every neighbour that passes the
    traversal's own test mark it visited and push it.  The test is the
    parameter [test visited i n]; each traversal supplies its own, written
    in the order of its source. *)

Section FloodLoop.
Variable test : gmap Z Z -> Z -> Z -> bool.
Variable w : Z.

Definition neighbors (i : Z) : list Z := [i - 1; i + 1; i - w; i + w].

(** [if (test) { visited[n] = 1; stack.push(n); }]; the head of the list
    is the top of the stack. *)
Definition pushNeighbor (i : Z) (st : gmap Z Z * list Z) (n : Z)
  : gmap Z Z * list Z :=
  if test (fst st) i n then (aset (fst st) n 1, n :: snd st) else st.

Definition floodStep (i : Z) (visited : gmap Z Z) (stack : list Z)
  : gmap Z Z * list Z :=
  foldl (pushNeighbor i) (visited, stack) (neighbors i).

Fixpoint floodLoop (fuel : nat) (visited : gmap Z Z) (stack : list Z)
  : gmap Z Z :=
  match fuel with
  | O => visited
  | S f =>
      match stack with
      | [] => visited
      | i :: rest =>
          let st := floodStep i visited rest in
          floodLoop f (fst st) (snd st)
      end
  end.

(** The [while (stack.length)] loop itself, without a budget. *)
Inductive floodRuns : gmap Z Z -> list Z -> gmap Z Z -> Prop :=
| floodRuns_done visited : floodRuns visited [] visited
| floodRuns_pop visited i rest out :
    floodRuns (fst (floodStep i visited rest)) (snd (floodStep i visited rest)) out ->
    floodRuns visited (i :: rest) out.
End FloodLoop.

(** The budget given to a traversal: one step per stack entry plus one per
    cell that can still be marked. *)
Definition floodFuel (visited : gmap Z Z) (stack : list Z) : nat :=
  S (length stack + size visited).

(** ** Mask generation (backgroundExtractor.ts) *)

(** [(r-bgR)**2 + (g-bgG)**2 + (b-bgB)**2] for pixel [n]; [None] is the
    [NaN] obtained when a channel is read outside the buffer. *)
Definition sqDist (data : gmap Z Z) (bg : option Z * option Z * option Z)
  (n : Z) : option Z :=
  match data !! (n * 4), data !! (n * 4 + 1), data !! (n * 4 + 2), bg with
  | Some r, Some g, Some b, (Some bgR, Some bgG, Some bgB) =>
      Some ((r - bgR) ^ 2 + (g - bgG) ^ 2 + (b - bgB) ^ 2)
  | _, _, _, _ => None
  end.

(** [dist <= threshSq]; a comparison with [NaN] is false. *)
Definition leq_num (d : option Z) (q : Q) : bool :=
  match d with
  | Some d => Qle_bool (inject_Z d) q
  | None => false
  end.

(** [const t = tolerance * 4.42; const threshSq = t * t;] *)
Definition threshSq (tolerance : Q) : Q :=
  let t := (tolerance * 4.42)%Q in (t * t)%Q.

Definition bgColor (data : gmap Z Z) : option Z * option Z * option Z :=
  (data !! 0, data !! 1, data !! 2).

(** The body of [for (const n of neighbors)] in [generateFloodFillMask]. *)
Definition floodFillTest (data : gmap Z Z) (w h : Z) (tolerance : Q)
  (visited : gmap Z Z) (i n : Z) : bool :=
  (0 <=? n) && (n <? w * h) &&
  negb (1 <? Z.abs (Z.rem n w - Z.rem i w)) &&
  is_val (visited !! n) 0 &&
  leq_num (sqDist data (bgColor data) n) (threshSq tolerance).

Definition cornerStack (w h : Z) : list Z := [0; w - 1; (h - 1) * w; h * w - 1].

(** The visited map of [generateFloodFillMask] when its loop ends.  The
    store [mask[i] = 0] inside the loop is dead (the final loop overwrites
    every cell of [mask]) and is left out. *)
Definition floodFillVisited (data : gmap Z Z) (w h : Z) (tolerance : Q)
  : gmap Z Z :=
  let stack := cornerStack w h in
  let visited := foldl (fun v i => aset v i 1) (newArray (w * h)) stack in
  floodLoop (floodFillTest data w h tolerance) w
    (floodFuel visited stack) visited (rev stack).

Definition generateFloodFillMask (data : gmap Z Z) (w h : Z) (tolerance : Q)
  : gmap Z Z :=
  (fun v => if v =? 1 then 0 else 1) <$> floodFillVisited data w h tolerance.

Definition generateGlobalMask (data : gmap Z Z) (w h : Z) (tolerance : Q)
  : gmap Z Z :=
  forUpTo (w * h)
    (fun mask i =>
       aset mask i
         (if leq_num (sqDist data (bgColor data) i) (threshSq tolerance)
          then 0 else 1))
    (newArray (w * h)).

(** ** Morphology (backgroundExtractor.ts) *)

(** One [for (let i...)] sweep of [erode]: reads [curr], writes [next]. *)
Definition erodeSweep (w len : Z) (curr next : gmap Z Z) : gmap Z Z :=
  forUpTo len
    (fun next i =>
       if is_val (curr !! i) 1 then
         if existsb
              (fun idx => (0 <=? idx) && (idx <? len) && is_val (curr !! idx) 0)
              [i - 1; i + 1; i - w; i + w]
         then aset next i 0
         else next
       else next)
    next.

Definition erode (mask : gmap Z Z) (w h passes : Z) : gmap Z Z :=
  if passes <=? 0 then mask
  else
    let len := alength mask in
    fst (forUpTo passes
           (fun '(curr, next) _ =>
              let next' := erodeSweep w len curr next in (next', next'))
           (mask, mask)).

Definition dilateSweep (w len : Z) (curr next : gmap Z Z) : gmap Z Z :=
  forUpTo len
    (fun next i =>
       if is_val (curr !! i) 0 then
         if existsb
              (fun idx => (0 <=? idx) && (idx <? len) && is_val (curr !! idx) 1)
              [i - 1; i + 1; i - w; i + w]
         then aset next i 1
         else next
       else next)
    next.

Definition dilate (mask : gmap Z Z) (w h passes : Z) : gmap Z Z :=
  if passes <=? 0 then mask
  else
    let len := alength mask in
    fst (forUpTo passes
           (fun '(curr, next) _ =>
              let next' := dilateSweep w len curr next in (next', next'))
           (mask, mask)).

(** [if (mask[idx] === 0) { stack.push(idx); visited[idx] = 1; }] *)
Definition seedIf (mask : gmap Z Z) (st : gmap Z Z * list Z) (idx : Z)
  : gmap Z Z * list Z :=
  if is_val (mask !! idx) 0 then (aset (fst st) idx 1, idx :: snd st) else st.

Definition holeSeeds (mask : gmap Z Z) (w h : Z) : gmap Z Z * list Z :=
  let st :=
    forUpTo w
      (fun st x => seedIf mask (seedIf mask st x) ((h - 1) * w + x))
      (newArray (w * h), []) in
  forUpTo h
    (fun st y => seedIf mask (seedIf mask st (y * w)) (y * w + w - 1))
    st.

(** The body of [for (const n of neighbors)] in [fillInternalHoles]. *)
Definition holeTest (mask : gmap Z Z) (w len : Z) (visited : gmap Z Z)
  (i n : Z) : bool :=
  (0 <=? n) && (n <? len) &&
  is_val (visited !! n) 0 && is_val (mask !! n) 0 &&
  (Z.abs (Z.rem n w - Z.rem i w) <=? 1).

Definition holeVisited (mask : gmap Z Z) (w h : Z) : gmap Z Z :=
  let st := holeSeeds mask w h in
  let len := alength mask in
  floodLoop (holeTest mask w len) w (floodFuel (fst st) (snd st))
    (fst st) (snd st).

(** [fillInternalHoles] mutates [mask] in place; the embedding returns the
    mask after the call. *)
Definition fillInternalHoles (mask : gmap Z Z) (w h : Z) : gmap Z Z :=
  let visited := holeVisited mask w h in
  forUpTo (alength mask)
    (fun m i =>
       if is_val (m !! i) 0 && is_val (visited !! i) 0 then aset m i 1 else m)
    mask.

(** ** Background extraction: [processSticker] (backgroundExtractor.ts) *)

(** The decoded source image: [img.width], [img.height] and the RGBA bytes
    of [ctx.getImageData(0, 0, w, h).data]. *)
Record ImageData := mkImageData {
  width : Z;
  height : Z;
  data : gmap Z Z
}.

Inductive ExtractionMethod := flood_fill | luma_key | lab_difference.

Record ExtractionConfig := mkExtractionConfig {
  method : ExtractionMethod;
  tolerance : Q;
  softness : Z;
  erosion : Z;
  smartFill : bool;
  borderWidth : Z;
  outputSize : Z
}.

(** A [ProcessedSprite]: its [width] and [height] and, for [blob], the
    content that was encoded ([B]).  The random [id] and the data URL,
    which repeats the blob, are not modelled. *)
Record ProcessedSprite (B : Type) := mkSprite {
  sprite_width : Q;
  sprite_height : Q;
  sprite_blob : B
}.
Arguments mkSprite {B} _ _ _.
Arguments sprite_width {B} _.
Arguments sprite_height {B} _.
Arguments sprite_blob {B} _.

(** The outcome of an operation that can [throw]. *)
Inductive result (A : Type) :=
| Ok (a : A)
| Err (msg : string).
Arguments Ok {A} _.
Arguments Err {A} _.

(** Steps 2-4 of [processSticker]: the mask that reaches the crop. *)
Definition repairedMask (img : ImageData) (config : ExtractionConfig)
  : gmap Z Z :=
  let w := width img in
  let h := height img in
  let mask :=
    match method config with
    | luma_key => generateGlobalMask (data img) w h (tolerance config)
    | _ => generateFloodFillMask (data img) w h (tolerance config)
    end in
  let mask := if smartFill config then fillInternalHoles mask w h else mask in
  if 0 <? erosion config then erode mask w h (erosion config) else mask.

Record Bounds := mkBounds {
  minX : Z;
  maxX : Z;
  minY : Z;
  maxY : Z;
  hasPixels : bool
}.

(** Step 5: the crop-bounds loop. *)
Definition cropBounds (mask : gmap Z Z) (w h : Z) : Bounds :=
  forUpTo (alength mask)
    (fun b i =>
       if is_val (mask !! i) 1 then
         let x := Z.rem i w in
         let y := i / w in
         mkBounds (if x <? minX b then x else minX b)
                  (if maxX b <? x then x else maxX b)
                  (if y <? minY b then y else minY b)
                  (if maxY b <? y then y else maxY b)
                  true
       else b)
    (mkBounds w 0 h 0 false).

(** The nested [for y < sh], [for x < sw] loops of steps 7 and 8. *)
Definition forBox {S : Type} (sw sh : Z) (body : S -> Z -> Z -> S) (s : S) : S :=
  forUpTo sh (fun s y => forUpTo sw (fun s x => body s x y) s) s.

(** Step 7: the white border layer, as the canvas bytes after
    [putImageData(bDat, 0, 0)]. *)
Definition borderLayer (mask : gmap Z Z) (w : Z) (b : Bounds)
  (sw sh finalSize offX offY bw : Z) : gmap Z Z :=
  let borderBuf :=
    forBox sw sh
      (fun buf x y =>
         let globalIdx := (minY b + y) * w + (minX b + x) in
         if is_val (mask !! globalIdx) 1
         then aset buf ((offY + y) * finalSize + (offX + x)) 1
         else buf)
      (newArray (finalSize * finalSize)) in
  let dilated := dilate borderBuf finalSize finalSize bw in
  forUpTo (alength dilated)
    (fun bDat i =>
       if is_val (dilated !! i) 1 then
         aset (aset (aset (aset bDat (i * 4) 255) (i * 4 + 1) 255)
                 (i * 4 + 2) 255) (i * 4 + 3) 255
       else bDat)
    (newArray (finalSize * finalSize * 4)).

(** Step 8: the subject copied on top, pixel by pixel.  A channel read
    outside the source is [undefined] and is stored as 0. *)
Definition compositeSubject (src mask : gmap Z Z) (w : Z) (b : Bounds)
  (sw sh finalSize offX offY : Z) (canvas : gmap Z Z) : gmap Z Z :=
  forBox sw sh
    (fun out x y =>
       let srcIdx := (minY b + y) * w + (minX b + x) in
       let dstIdx := ((offY + y) * finalSize + (offX + x)) * 4 in
       if is_val (mask !! srcIdx) 1 then
         aset (aset (aset (aset out dstIdx (default 0 (src !! (srcIdx * 4))))
                       (dstIdx + 1) (default 0 (src !! (srcIdx * 4 + 1))))
                 (dstIdx + 2) (default 0 (src !! (srcIdx * 4 + 2))))
           (dstIdx + 3) 255
       else out)
    canvas.

Definition finalSizeOf (sw sh bw : Z) : Z :=
  let maxDim := Z.max sw sh in
  let padding := Z.max (bw + 20) 40 in
  maxDim + padding * 2.

(** [processSticker], from the decoded image on.  The sprite's blob is the
    RGBA content of the output canvas. *)
Definition processSticker (img : ImageData) (config : ExtractionConfig)
  : result (ProcessedSprite (gmap Z Z)) :=
  let w := width img in
  let h := height img in
  let mask := repairedMask img config in
  let b := cropBounds mask w h in
  if negb (hasPixels b) then Err "No subject detected. Try 'Loose' tolerance?"
  else
    let sw := maxX b - minX b + 1 in
    let sh := maxY b - minY b + 1 in
    let finalSize := finalSizeOf sw sh (borderWidth config) in
    let offX := (finalSize - sw) / 2 in
    let offY := (finalSize - sh) / 2 in
    let canvas :=
      if 0 <? borderWidth config
      then borderLayer mask w b sw sh finalSize offX offY (borderWidth config)
      else newArray (finalSize * finalSize * 4) in
    let out :=
      compositeSubject (data img) mask w b sw sh finalSize offX offY canvas in
    Ok (mkSprite (inject_Z finalSize) (inject_Z finalSize) out).

(** ** Detection and slicing (slicingUtil.ts) *)

Record Rect := mkRect {
  rect_x : Q;
  rect_y : Q;
  rect_w : Q;
  rect_h : Q
}.

Inductive Mode := smart | grid.

Record CustomGrid := mkCustomGrid {
  xLines : list Q;
  yLines : list Q
}.

(** The fields of [ProcessorOptions] that [detectSegments] reads.  They
    carry the prefix [opt_] because [ExtractionConfig] owns the plain
    names; [None] is an optional field left [undefined]. *)
Record ProcessorOptions := mkOptions {
  opt_mode : Mode;
  opt_tolerance : Q;
  opt_rows : Z;
  opt_cols : Z;
  opt_trim : option Q;
  opt_customGrid : option CustomGrid
}.

(** [a < b] on numbers. *)
Definition Qltb (a b : Q) : bool := negb (Qle_bool b a).

(** [Math.round]: the nearest integer, halves upwards. *)
Definition round (q : Q) : Z := Qfloor (q + 0.5).

(** [.sort((a, b) => a - b)] *)
Fixpoint insertNum (a : Q) (l : list Q) : list Q :=
  match l with
  | [] => [a]
  | b :: l' => if Qle_bool a b then a :: l else b :: insertNum a l'
  end.

Definition sortNum (l : list Q) : list Q := foldr insertNum [] l.

(** [[0, ...lines.map(p => p * size), size].sort(...)] *)
Definition cutLines (lines : list Q) (size : Z) : list Q :=
  sortNum ([0%Q] ++ map (fun p => (p * inject_Z size)%Q) lines ++ [inject_Z size]).

Definition at_ (l : list Q) (i : Z) : Q := nth (Z.to_nat i) l 0%Q.

Definition customGridRects (g : CustomGrid) (width height : Z) : list Rect :=
  let xs := cutLines (xLines g) width in
  let ys := cutLines (yLines g) height in
  forUpTo (Z.of_nat (length ys) - 1)
    (fun rects r =>
       forUpTo (Z.of_nat (length xs) - 1)
         (fun rects c =>
            let x1 := at_ xs c in
            let x2 := at_ xs (c + 1) in
            let y1 := at_ ys r in
            let y2 := at_ ys (r + 1) in
            rects ++ [mkRect (inject_Z (round x1)) (inject_Z (round y1))
                        (inject_Z (round (x2 - x1))) (inject_Z (round (y2 - y1)))])
         rects)
    [].

Definition evenGridRects (rows0 cols0 width height : Z) : list Rect :=
  let rows := Z.max 1 rows0 in
  let cols := Z.max 1 cols0 in
  let cellW := (inject_Z width / inject_Z cols)%Q in
  let cellH := (inject_Z height / inject_Z rows)%Q in
  forUpTo rows
    (fun rects r =>
       forUpTo cols
         (fun rects c =>
            rects ++ [mkRect (inject_Z c * cellW) (inject_Z r * cellH) cellW cellH])
         rects)
    [].

(** [colorDist(...) > limit].  [colorDist] is the square root of the sum of
    squares [s]; [Math.sqrt(s) > limit] is decided on the squares:
    [limit < 0] or [limit * limit < s]. *)
Definition distExceeds (d : option Z) (limit : Q) : bool :=
  match d with
  | Some s => Qltb limit 0 || Qltb (limit * limit) (inject_Z s)
  | None => false
  end.

(** The binary map of content against background. *)
Definition contentMap (data : gmap Z Z) (width height : Z) (tol : Q)
  : gmap Z Z :=
  forUpTo (width * height)
    (fun isContent i =>
       if distExceeds (sqDist data (bgColor data) i) (tol * 3)
       then aset isContent i 1
       else isContent)
    (newArray (width * height)).

Definition minArea : Z := 400.

(** The body of [for (const n of neighbors)] in the component fill. *)
Definition smartTest (isContent : gmap Z Z) (width height : Z)
  (visited : gmap Z Z) (idx n : Z) : bool :=
  (0 <=? n) && (n <? width * height) &&
  is_val (visited !! n) 0 && is_val (isContent !! n) 1 &&
  (Z.abs (Z.rem n width - Z.rem idx width) <=? 1).

Record Component := mkComponent {
  cVisited : gmap Z Z;
  cCount : Z;
  cMinX : Z;
  cMaxX : Z;
  cMinY : Z;
  cMaxY : Z
}.

(** The flood fill of one component, which also counts its pixels and
    tracks its bounding box. *)
Fixpoint componentLoop (isContent : gmap Z Z) (width height : Z) (fuel : nat)
  (c : Component) (stack : list Z) : Component :=
  match fuel with
  | O => c
  | S f =>
      match stack with
      | [] => c
      | idx :: rest =>
          let x := Z.rem idx width in
          let y := idx / width in
          let st := floodStep (smartTest isContent width height) width
                      idx (cVisited c) rest in
          componentLoop isContent width height f
            (mkComponent (fst st) (cCount c + 1)
               (if x <? cMinX c then x else cMinX c)
               (if cMaxX c <? x then x else cMaxX c)
               (if y <? cMinY c then y else cMinY c)
               (if cMaxY c <? y then y else cMaxY c))
            (snd st)
      end
  end.

Definition paddedRect (c : Component) (width height : Z) (pad : Q) : Rect :=
  let x0 := Qmax 0 (inject_Z (cMinX c) - pad) in
  let y0 := Qmax 0 (inject_Z (cMinY c) - pad) in
  mkRect x0 y0
    (Qmin (inject_Z width) (inject_Z (cMaxX c) + pad) - x0)
    (Qmin (inject_Z height) (inject_Z (cMaxY c) + pad) - y0).

Definition smartRects (isContent : gmap Z Z) (width height : Z) (pad : Q)
  : list Rect :=
  snd (forUpTo (width * height)
         (fun st i =>
            let visited := fst st in
            let rects := snd st in
            if is_val (isContent !! i) 1 && is_val (visited !! i) 0 then
              let x := Z.rem i width in
              let y := i / width in
              let visited := aset visited i 1 in
              let c := componentLoop isContent width height
                         (floodFuel visited [i])
                         (mkComponent visited 0 x x y y) [i] in
              (cVisited c,
               if minArea <? cCount c
               then rects ++ [paddedRect c width height pad]
               else rects)
            else st)
         (newArray (width * height), [])).

(** [v || d] for a number [v]: [0] is falsy. *)
Definition orDefault (v d : Q) : Q := if Qeq_bool v 0 then d else v.

(** [detectSegments], from the decoded image on (a 2D context is
    available). *)
Definition detectSegments (img : ImageData) (options : ProcessorOptions)
  : list Rect :=
  match opt_mode options with
  | grid =>
      match opt_customGrid options with
      | Some g => customGridRects g (width img) (height img)
      | None => evenGridRects (opt_rows options) (opt_cols options)
                  (width img) (height img)
      end
  | smart =>
      let tolerance := orDefault (opt_tolerance options) 20 in
      let isContent := contentMap (data img) (width img) (height img) tolerance in
      let pad := match opt_trim options with
                 | Some t => orDefault t 10
                 | None => 10%Q
                 end in
      smartRects isContent (width img) (height img) pad
  end.

(** [sliceImage].  What the browser decides is a parameter: whether a 2D
    context is obtained for the crop canvas, and the blob that encoding
    the crop yields, if any.  The state threaded through the loop is the
    list of sprites and the list of the crop canvases created so far. *)
Section Slice.
Context {B : Type}.
Variable getContext : Rect -> bool.
Variable toBlob : Rect -> option B.

Definition sliceStep (st : list (ProcessedSprite B) * list (Q * Q))
  (rect : Rect) : list (ProcessedSprite B) * list (Q * Q) :=
  if Qltb (rect_w rect) 1 || Qltb (rect_h rect) 1 then st
  else
    let canvases := snd st ++ [(rect_w rect, rect_h rect)] in
    if negb (getContext rect) then (fst st, canvases)
    else
      match toBlob rect with
      | Some blob =>
          (fst st ++ [mkSprite (rect_w rect) (rect_h rect) blob], canvases)
      | None => (fst st, canvases)
      end.

Definition sliceRects (rects : list Rect)
  : list (ProcessedSprite B) * list (Q * Q) :=
  foldl sliceStep ([], []) rects.

Definition sliceImage (img : ImageData) (options : ProcessorOptions)
  : list (ProcessedSprite B) :=
  fst (sliceRects (detectSegments img options)).
End Slice.

(** ** Sample inputs *)

Definition inSquare (i : Z) : bool :=
  let x := i mod 100 in
  let y := i / 100 in
  (40 <=? x) && (x <? 60) && (40 <=? y) && (y <? 60).

(** A 100x100 black image with a white 20x20 square at (40,40)-(60,60). *)
Definition squareImage : ImageData :=
  mkImageData 100 100
    (of_list (concat (map (fun i => if inSquare i then [255; 255; 255; 255]
                                    else [0; 0; 0; 255])
                        (indices 10000)))).

Definition countVal (a : gmap Z Z) (v : Z) : Z :=
  forUpTo (alength a) (fun c i => if is_val (a !! i) v then c + 1 else c) 0.

(** * Vocabulary of the statements

    Predicates, specification-side definitions and sample inputs used by
    the theorems below. *)

(** An array proper: its keys are the indices below its length. *)
Definition is_array (a : gmap Z Z) (n : Z) : Prop :=
  0 <= n /\ forall i, is_Some (a !! i) <-> 0 <= i < n.

(** The cells a traversal may still mark. *)
Definition zeros (v : gmap Z Z) : nat :=
  size (filter (fun kv : Z * Z => kv.2 = 0) v).

Definition marked (v : gmap Z Z) (i : Z) : Prop := v !! i = Some 1.

Definition binary (v : gmap Z Z) : Prop :=
  forall i x, v !! i = Some x -> x = 0 \/ x = 1.

(** The cells reachable from the cells marked in [v0], for a fill that may
    move from [i] to its neighbour [n] when [step i n]; what processing the
    neighbours [ns] of a popped cell does to the state; and the invariant
    of the [while] loop. *)
Section Closure.
Variable w : Z.
Variable step : Z -> Z -> bool.

Inductive Reach (v0 : gmap Z Z) : Z -> Prop :=
| Reach_seed i : marked v0 i -> Reach v0 i
| Reach_step i n :
    Reach v0 i -> n ∈ neighbors w i -> step i n = true ->
    is_Some (v0 !! n) -> Reach v0 n.

Record StepRel (i : Z) (v : gmap Z Z) (s : list Z) (ns : list Z)
  (v' : gmap Z Z) (s' : list Z) : Prop := {
  sr_dom : forall j, is_Some (v' !! j) <-> is_Some (v !! j);
  sr_bin : binary v -> binary v';
  sr_mono : forall j, marked v j -> marked v' j;
  sr_new : exists new, s' = new ++ s /\
      (forall j, j ∈ new -> marked v' j) /\
      (forall j, marked v' j -> marked v j \/
         (j ∈ new /\ j ∈ ns /\ step i j = true /\ is_Some (v !! j)));
  sr_done : forall n, binary v -> n ∈ ns -> step i n = true ->
      is_Some (v !! n) -> marked v' n;
  sr_fuel : (zeros v' + length s' = zeros v + length s)%nat
}.

Record Inv (v0 v : gmap Z Z) (s : list Z) : Prop := {
  inv_dom : forall j, is_Some (v !! j) <-> is_Some (v0 !! j);
  inv_bin : binary v;
  inv_mono : forall j, marked v0 j -> marked v j;
  inv_sound : forall j, marked v j -> Reach v0 j;
  inv_stack : forall j, j ∈ s -> marked v j;
  inv_closed : forall j n, marked v j -> j ∉ s -> n ∈ neighbors w j ->
      step j n = true -> is_Some (v0 !! n) -> marked v n
}.
End Closure.

(** May the corner fill move from [i] to its neighbour [n]?  The test of
    the source without its [visited[n] === 0]. *)
Definition floodFillEdge (data : gmap Z Z) (w h : Z) (tolerance : Q)
  (i n : Z) : bool :=
  (0 <=? n) && (n <? w * h) &&
  negb (1 <? Z.abs (Z.rem n w - Z.rem i w)) &&
  leq_num (sqDist data (bgColor data) n) (threshSq tolerance).

(** The marks before the loop: the four corners. *)
Definition cornerMarks (w h : Z) : gmap Z Z :=
  foldl (fun v i => aset v i 1) (newArray (w * h)) (cornerStack w h).

(** The colour test as the specification words it: a pixel is within
    tolerance when the squared Euclidean RGB distance to the colour of
    the pixel at (0,0) is at most [(tolerance * 4.42)^2]. *)
Definition withinTolerance (data : gmap Z Z) (tolerance : Q) (n : Z) : Prop :=
  exists r g b r0 g0 b0,
    data !! (n * 4) = Some r /\ data !! (n * 4 + 1) = Some g /\
    data !! (n * 4 + 2) = Some b /\
    data !! 0 = Some r0 /\ data !! 1 = Some g0 /\ data !! 2 = Some b0 /\
    (inject_Z ((r - r0) ^ 2 + (g - g0) ^ 2 + (b - b0) ^ 2)
     <= (tolerance * 4.42) * (tolerance * 4.42))%Q.

(** The fill that the loop of [generateFloodFillMask] performs, for a
    colour test [bg]: it starts from the four corner positions and moves
    from a reached index [i] to each of the indices [i-1], [i+1], [i-w],
    [i+w] that lies in the buffer, passes the guard
    [|n % w - i % w| <= 1] and passes the colour test. *)
Inductive IndexFill (bg : Z -> Prop) (w h : Z) : Z -> Prop :=
| IndexFill_corner c :
    c ∈ [0; w - 1; (h - 1) * w; w * h - 1] ->
    IndexFill bg w h c
| IndexFill_step i n :
    IndexFill bg w h i ->
    n ∈ [i - 1; i + 1; i - w; i + w] ->
    0 <= n < w * h ->
    Z.abs (n mod w - i mod w) <= 1 ->
    bg n ->
    IndexFill bg w h n.

(** A 2x2 image: black, white, white, black. *)
Definition checkerImage : gmap Z Z :=
  of_list [0; 0; 0; 255;  255; 255; 255; 255;
           255; 255; 255; 255;  0; 0; 0; 255].

(** A rectangle that [sliceImage] does not skip. *)
Definition sliceable (r : Rect) : bool :=
  negb (Qltb (rect_w r) 1 || Qltb (rect_h r) 1).

(** Every sprite and every crop canvas comes from a sliceable rectangle
    of the list. *)
Definition fromSliceable {B : Type} (rects : list Rect)
  (st : list (ProcessedSprite B) * list (Q * Q)) : Prop :=
  (forall s, s ∈ fst st ->
     exists r, r ∈ rects /\ sliceable r = true /\
       sprite_width s = rect_w r /\ sprite_height s = rect_h r) /\
  (forall c, c ∈ snd st ->
     exists r, r ∈ rects /\ sliceable r = true /\ c = (rect_w r, rect_h r)).

(** The area of a Rect, and the pixels it covers. *)
Definition rectArea (r : Rect) : Q := (rect_w r * rect_h r)%Q.

Definition inRect (r : Rect) (px py : Z) : bool :=
  Qle_bool (rect_x r) (inject_Z px) && Qltb (inject_Z px) (rect_x r + rect_w r) &&
  Qle_bool (rect_y r) (inject_Z py) && Qltb (inject_Z py) (rect_y r + rect_h r).

Definition totalArea (rects : list Rect) : Q :=
  fold_right (fun r acc => (rectArea r + acc)%Q) 0%Q rects.

(** Erosion as the specification words it: the 4-connected neighbours of
    a cell are the cells directly above, below, left and right of it in
    the same grid. *)
Definition gridNeighbors (w h i : Z) : list Z :=
  let x := i mod w in
  let y := i / w in
  (if 0 <? x then [i - 1] else []) ++
  (if x <? w - 1 then [i + 1] else []) ++
  (if 0 <? y then [i - w] else []) ++
  (if y <? h - 1 then [i + w] else []).

Definition erodeSpecSweep (w h : Z) (mask : gmap Z Z) : gmap Z Z :=
  forUpTo (w * h)
    (fun next i =>
       if is_val (mask !! i) 1 &&
          existsb (fun n => is_val (mask !! n) 0) (gridNeighbors w h i)
       then aset next i 0 else next)
    mask.

Definition erodeSpec (mask : gmap Z Z) (w h passes : Z) : gmap Z Z :=
  forUpTo passes (fun m _ => erodeSpecSweep w h m) mask.

(** The content map of the square image when white counts as content
    ([b = true]) and when nothing does. *)
Definition squareContent (b : bool) : gmap Z Z :=
  forUpTo 10000
    (fun isContent i => if inSquare i && b then aset isContent i 1 else isContent)
    (newArray 10000).

(** The same image with one more column and one more row of white: a
    21x21 square at (40,40)-(61,61), 441 pixels. *)
Definition inSquare21 (i : Z) : bool :=
  let x := i mod 100 in
  let y := i / 100 in
  (40 <=? x) && (x <? 61) && (40 <=? y) && (y <? 61).

Definition square21Image : ImageData :=
  mkImageData 100 100
    (of_list (concat (map (fun i => if inSquare21 i then [255; 255; 255; 255]
                                    else [0; 0; 0; 255])
                        (indices 10000)))).

Definition square21Content (b : bool) : gmap Z Z :=
  forUpTo 10000
    (fun isContent i => if inSquare21 i && b then aset isContent i 1 else isContent)
    (newArray 10000).

(** The connected components that the smart mode of [detectSegments]
    finds, in scan order, before the area test and the padding: the loop
    of [smartRects] with [rects.push] replaced by collecting the
    component. *)
Definition smartComponents (isContent : gmap Z Z) (width height : Z)
  : list Component :=
  snd (forUpTo (width * height)
         (fun st i =>
            let visited := fst st in
            let comps := snd st in
            if is_val (isContent !! i) 1 && is_val (visited !! i) 0 then
              let x := Z.rem i width in
              let y := i / width in
              let visited := aset visited i 1 in
              let c := componentLoop isContent width height
                         (floodFuel visited [i])
                         (mkComponent visited 0 x x y y) [i] in
              (cVisited c, comps ++ [c])
            else st)
         (newArray (width * height), [])).

(** [count] and the bounding box [(minX, maxX)], [(minY, maxY)] of a
    component. *)
Definition componentBox (c : Component) : Z * (Z * Z) * (Z * Z) :=
  (cCount c, (cMinX c, cMaxX c), (cMinY c, cMaxY c)).

(** May the border fill move from [i] to its neighbour [n]? *)
Definition holeEdge (mask : gmap Z Z) (w len : Z) (i n : Z) : bool :=
  (0 <=? n) && (n <? len) && is_val (mask !! n) 0 &&
  (Z.abs (Z.rem n w - Z.rem i w) <=? 1).

(** The border positions that the two seeding loops look at, in order. *)
Definition seedCandidates (w h : Z) : list Z :=
  flat_map (fun x => [x; (h - 1) * w + x]) (indices w) ++
  flat_map (fun y => [y * w; y * w + w - 1]) (indices h).

(** The seeds: the border cells that are background. *)
Definition holeSeedList (mask : gmap Z Z) (w h : Z) : list Z :=
  List.filter (fun i => is_val (mask !! i) 0) (seedCandidates w h).

(** A 4x3 mask: a ring of foreground around two background cells. *)
Definition ringMask : gmap Z Z :=
  of_list [1; 1; 1; 1;  1; 0; 0; 1;  1; 1; 1; 1].

(** A foreground pixel of a mask. *)
Definition foreground (mask : gmap Z Z) (i : Z) : Prop :=
  0 <= i < alength mask /\ mask !! i = Some 1.

(** [x0..x1] x [y0..y1] is the tight bounding box of the foreground. *)
Record tightBox (mask : gmap Z Z) (w x0 x1 y0 y1 : Z) : Prop := {
  box_covers : forall i, foreground mask i ->
      x0 <= i mod w <= x1 /\ y0 <= i / w <= y1;
  box_left : exists i, foreground mask i /\ i mod w = x0;
  box_right : exists i, foreground mask i /\ i mod w = x1;
  box_top : exists i, foreground mask i /\ i / w = y0;
  box_bottom : exists i, foreground mask i /\ i / w = y1
}.

(** The state of the crop-bounds loop before iteration [k]. *)
Definition boundsInv (mask : gmap Z Z) (w h k : Z) (b : Bounds) : Prop :=
  if hasPixels b then
    (forall i, 0 <= i < k -> mask !! i = Some 1 ->
       minX b <= i mod w <= maxX b /\ minY b <= i / w <= maxY b) /\
    (exists i, (0 <= i < k /\ mask !! i = Some 1) /\ i mod w = minX b) /\
    (exists i, (0 <= i < k /\ mask !! i = Some 1) /\ i mod w = maxX b) /\
    (exists i, (0 <= i < k /\ mask !! i = Some 1) /\ i / w = minY b) /\
    (exists i, (0 <= i < k /\ mask !! i = Some 1) /\ i / w = maxY b)
  else
    b = mkBounds w 0 h 0 false /\
    forall i, 0 <= i < k -> mask !! i <> Some 1.

(** Every pixel of the buffer has the same RGB value. *)
Definition uniformImage (img : ImageData) : Prop :=
  exists r g b, forall n, 0 <= n < width img * height img ->
    data img !! (n * 4) = Some r /\ data img !! (n * 4 + 1) = Some g /\
    data img !! (n * 4 + 2) = Some b.

(** A list of writes [a[k] = v], applied in order. *)
Definition asetp (a : gmap Z Z) (kv : Z * Z) : gmap Z Z := aset a kv.1 kv.2.

(** The cells of the crop box, in the order of the nested loops. *)
Definition boxCells (sw sh : Z) : list (Z * Z) :=
  flat_map (fun y => map (fun x => (x, y)) (indices sw)) (indices sh).

(** The writes of one iteration of step 8. *)
Definition subjectWrites (src mask : gmap Z Z) (w : Z) (b : Bounds)
  (finalSize offX offY : Z) (c : Z * Z) : list (Z * Z) :=
  let srcIdx := (minY b + c.2) * w + (minX b + c.1) in
  let dstIdx := ((offY + c.2) * finalSize + (offX + c.1)) * 4 in
  if is_val (mask !! srcIdx) 1 then
    [(dstIdx, default 0 (src !! (srcIdx * 4)));
     (dstIdx + 1, default 0 (src !! (srcIdx * 4 + 1)));
     (dstIdx + 2, default 0 (src !! (srcIdx * 4 + 2)));
     (dstIdx + 3, 255)]
  else [].

(** A 2x2 image that is black all over. *)
Definition blackImage : ImageData :=
  mkImageData 2 2 (of_list [0; 0; 0; 255;  0; 0; 0; 255;
                            0; 0; 0; 255;  0; 0; 0; 255]).

Definition plainConfig : ExtractionConfig :=
  mkExtractionConfig flood_fill 10 0 0 false 0 1024.

(** A 3x3 black image with a white pixel in the middle. *)
Definition dotImage : ImageData :=
  mkImageData 3 3
    (of_list [0; 0; 0; 255;  0; 0; 0; 255;  0; 0; 0; 255;
              0; 0; 0; 255;  255; 255; 255; 255;  0; 0; 0; 255;
              0; 0; 0; 255;  0; 0; 0; 255;  0; 0; 0; 255]).

Definition isOk {A : Type} (r : result A) : bool :=
  match r with
  | Ok _ => true
  | Err _ => false
  end.

(** The flood fill as the specification words it, for a colour test [bg]:
    seeded at the four corner positions, it expands only to the cells
    directly left, right, above and below a reached cell ([gridNeighbors]),
    and a neighbour joins when it passes the colour test. *)
Inductive GridFill (bg : Z -> Prop) (w h : Z) : Z -> Prop :=
| GridFill_corner c :
    c ∈ [0; w - 1; (h - 1) * w; w * h - 1] ->
    GridFill bg w h c
| GridFill_step i n :
    GridFill bg w h i ->
    n ∈ gridNeighbors w h i ->
    bg n ->
    GridFill bg w h n.

(** A 2x5 image, B black and W white, row by row:
    [B B / W B / B W / W W / B B]. *)
Definition leakImage : gmap Z Z :=
  of_list [0; 0; 0; 255;        0; 0; 0; 255;
           255; 255; 255; 255;  0; 0; 0; 255;
           0; 0; 0; 255;        255; 255; 255; 255;
           255; 255; 255; 255;  255; 255; 255; 255;
           0; 0; 0; 255;        0; 0; 0; 255].

(** A 3x1 strip, black all over. *)
Definition stripImage : gmap Z Z :=
  of_list [0; 0; 0; 255;  0; 0; 0; 255;  0; 0; 0; 255].

(** A cell on the outer frame of the [w] x [h] grid. *)
Definition onBorder (w h c : Z) : Prop :=
  0 <= c < w * h /\
  (c / w = 0 \/ c / w = h - 1 \/ c mod w = 0 \/ c mod w = w - 1).

(** The background cells that are connected to the frame: the background
    cells of the frame, and every background neighbour [i-1], [i+1],
    [i-w], [i+w] of such a cell that lies in the mask and passes the wrap
    guard. *)
Inductive BorderConnected (mask : gmap Z Z) (w h : Z) : Z -> Prop :=
| BorderConnected_border c :
    onBorder w h c -> mask !! c = Some 0 -> BorderConnected mask w h c
| BorderConnected_step i n :
    BorderConnected mask w h i ->
    n ∈ [i - 1; i + 1; i - w; i + w] ->
    0 <= n < w * h ->
    mask !! n = Some 0 ->
    Z.abs (n mod w - i mod w) <= 1 ->
    BorderConnected mask w h n.

(** A rectangle with non-negative origin and size that does not leave the
    [width] x [height] image. *)
Definition inImage (width height : Z) (r : Rect) : Prop :=
  (0 <= rect_x r)%Q /\ (0 <= rect_y r)%Q /\
  (0 <= rect_w r)%Q /\ (0 <= rect_h r)%Q /\
  (rect_x r + rect_w r <= inject_Z width)%Q /\
  (rect_y r + rect_h r <= inject_Z height)%Q.

(** The bounding box tracked for a component holds pixel coordinates. *)
Definition boxInGrid (width height : Z) (c : Component) : Prop :=
  0 <= cMinX c <= cMaxX c /\ cMaxX c < width /\
  0 <= cMinY c <= cMaxY c /\ cMaxY c < height.

(** A 23x23 black image with a white 21x21 block at (1,1)-(22,22). *)
Definition blockImage : ImageData :=
  mkImageData 23 23
    (of_list (concat (map (fun i =>
                             if (1 <=? i mod 23) && (i mod 23 <? 22) &&
                                (1 <=? i / 23) && (i / 23 <? 22)
                             then [255; 255; 255; 255]
                             else [0; 0; 0; 255])
                        (indices 529)))).

Definition nonEmpty {A : Type} (l : list A) : bool :=
  match l with
  | [] => false
  | _ :: _ => true
  end.

(** The four channels of pixel [p] of an RGBA buffer. *)
Definition pixelAt (buf : gmap Z Z) (p : Z)
  : option Z * option Z * option Z * option Z :=
  (buf !! (p * 4), buf !! (p * 4 + 1), buf !! (p * 4 + 2), buf !! (p * 4 + 3)).

(** May the component fill move from [i] to its neighbour [n]? *)
Definition smartEdge (isContent : gmap Z Z) (width height : Z) (i n : Z)
  : bool :=
  (0 <=? n) && (n <? width * height) && is_val (isContent !! n) 1 &&
  (Z.abs (Z.rem n width - Z.rem i width) <=? 1).

Definition sumQ {A : Type} (f : A -> Q) (l : list A) : Q :=
  fold_right (fun c acc => (f c + acc)%Q) 0%Q l.

(** A cut position that falls on a pixel boundary of an axis of length
    [size]. *)
Definition onPixel (size : Z) (q : Q) : Prop :=
  exists z, 0 <= z <= size /\ (q == inject_Z z)%Q.

(** A 4x2 image, black all over. *)
Definition wideImage : ImageData :=
  mkImageData 4 2 (of_list (concat (map (fun _ => [0; 0; 0; 255]) (indices 8)))).

(** * Properties *)

(** ** Typed arrays and counted loops *)

Lemma elem_of_zseq (n : nat) : forall s i,
  i ∈ zseq s n <-> s <= i < s + Z.of_nat n.
Proof.
  induction n as [|n IH]; intros s i; simpl.
  - rewrite elem_of_nil. lia.
  - rewrite elem_of_cons, IH. lia.
Qed.

Lemma elem_of_indices (n i : Z) : i ∈ indices n <-> 0 <= i < n.
Proof. unfold indices. rewrite elem_of_zseq. lia. Qed.

Lemma zseq_snoc (n : nat) : forall s,
  zseq s (S n) = zseq s n ++ [s + Z.of_nat n].
Proof.
  induction n as [|n IH]; intros s.
  - simpl. f_equal. lia.
  - change (zseq s (S (S n))) with (s :: zseq (s + 1) (S n)).
    rewrite IH. simpl. do 3 f_equal. lia.
Qed.

Lemma length_zseq (n : nat) : forall s, length (zseq s n) = n.
Proof. induction n; intros; simpl; auto. Qed.

Lemma NoDup_zseq (n : nat) : forall s, NoDup (zseq s n).
Proof.
  induction n as [|n IH]; intros s; simpl; constructor; auto.
  rewrite elem_of_zseq. lia.
Qed.

(** Loop invariants: [P k st] holds of the state before iteration [k]. *)
Lemma forUpTo_ind {St : Type} (P : Z -> St -> Prop) (n : Z)
  (body : St -> Z -> St) (s : St) :
  P 0 s ->
  (forall k st, 0 <= k < n -> P k st -> P (k + 1) (body st k)) ->
  P (Z.max 0 n) (forUpTo n body s).
Proof.
  intros H0 Hstep. unfold forUpTo, indices.
  assert (Hgen : forall m : nat, (Z.of_nat m <= Z.max 0 n) ->
            P (Z.of_nat m) (foldl body s (zseq 0 m))).
  { induction m as [|m IH]; intros Hm.
    - exact H0.
    - rewrite zseq_snoc, foldl_snoc.
      replace (Z.of_nat (S m)) with (Z.of_nat m + 1) by lia.
      replace (0 + Z.of_nat m) with (Z.of_nat m) by lia.
      apply Hstep; [lia | apply IH; lia]. }
  replace (Z.max 0 n) with (Z.of_nat (Z.to_nat n)) by lia.
  apply Hgen. lia.
Qed.

Lemma forUpTo_nonpos {St : Type} (n : Z) (body : St -> Z -> St) (s : St) :
  n <= 0 -> forUpTo n body s = s.
Proof.
  intros H. unfold forUpTo, indices.
  replace (Z.to_nat n) with O by lia. reflexivity.
Qed.

Lemma foldl_ext_in {St A : Type} (f g : St -> A -> St) (l : list A) :
  forall s, (forall st i, i ∈ l -> f st i = g st i) ->
  foldl f s l = foldl g s l.
Proof.
  induction l as [|a l IH]; intros s H; simpl; [reflexivity|].
  rewrite H by (apply elem_of_cons; auto).
  apply IH. intros st i Hi. apply H. apply elem_of_cons; auto.
Qed.

Lemma forUpTo_ext {St : Type} (n : Z) (f g : St -> Z -> St) (s : St) :
  (forall st i, 0 <= i < n -> f st i = g st i) ->
  forUpTo n f s = forUpTo n g s.
Proof.
  intros H. apply foldl_ext_in. intros st i Hi. apply H.
  by apply elem_of_indices.
Qed.

Lemma aset_lookup (a : gmap Z Z) (i j v : Z) :
  aset a i v !! j = if decide (i = j) then (fun _ => v) <$> a !! i else a !! j.
Proof. unfold aset. apply lookup_alter. Qed.

Lemma aset_lookup_ne (a : gmap Z Z) (i j v : Z) :
  i <> j -> aset a i v !! j = a !! j.
Proof. intros. unfold aset. by apply lookup_alter_ne. Qed.

Lemma aset_lookup_eq (a : gmap Z Z) (i v x : Z) :
  a !! i = Some x -> aset a i v !! i = Some v.
Proof. intros H. unfold aset. rewrite lookup_alter_eq, H. reflexivity. Qed.

Lemma aset_is_Some (a : gmap Z Z) (i j v : Z) :
  is_Some (aset a i v !! j) <-> is_Some (a !! j).
Proof. unfold aset. apply lookup_alter_is_Some. Qed.

Lemma aset_absent (a : gmap Z Z) (i v : Z) : a !! i = None -> aset a i v = a.
Proof.
  intros H. apply map_eq. intros j. rewrite aset_lookup.
  destruct (decide (i = j)) as [->|]; [by rewrite H|done].
Qed.

Lemma aset_dom (a : gmap Z Z) (i v : Z) : dom (aset a i v) = dom a.
Proof. unfold aset. apply dom_alter_L. Qed.

Lemma size_aset (a : gmap Z Z) (i v : Z) : size (aset a i v) = size a.
Proof. rewrite <- !size_dom, aset_dom. reflexivity. Qed.

Lemma alength_aset (a : gmap Z Z) (i v : Z) : alength (aset a i v) = alength a.
Proof. unfold alength. by rewrite size_aset. Qed.

Lemma list_to_map_const_lookup (l : list Z) (v : Z) (i : Z) :
  (list_to_map ((fun i => (i, v)) <$> l) : gmap Z Z) !! i
  = if decide (i ∈ l) then Some v else None.
Proof.
  induction l as [|a l IH].
  - rewrite decide_False by (rewrite elem_of_nil; tauto). apply lookup_empty.
  - rewrite fmap_cons, list_to_map_cons, lookup_insert.
    destruct (decide (a = i)) as [->|Hne].
    + rewrite decide_True by (apply elem_of_cons; auto). reflexivity.
    + rewrite IH. destruct (decide (i ∈ l)) as [Hin|Hnin].
      * rewrite decide_True by (apply elem_of_cons; auto). reflexivity.
      * rewrite decide_False; [reflexivity|].
        rewrite elem_of_cons. intros [->|?]; done.
Qed.

Lemma newArray_lookup (n i : Z) :
  newArray n !! i = if decide (0 <= i < n) then Some 0 else None.
Proof.
  unfold newArray. rewrite list_to_map_const_lookup.
  destruct (decide (0 <= i < n)) as [H|H].
  - rewrite decide_True by (by apply elem_of_indices). reflexivity.
  - rewrite decide_False by (by rewrite elem_of_indices). reflexivity.
Qed.

Lemma is_Some_if_decide (P : Prop) `{Decision P} (x : Z) :
  is_Some (if decide P then Some x else None) <-> P.
Proof.
  destruct (decide P) as [HP|HP].
  - split; eauto.
  - split; [intros [? ?]; done | done].
Qed.

Lemma newArray_is_Some (n i : Z) : is_Some (newArray n !! i) <-> 0 <= i < n.
Proof. rewrite newArray_lookup. apply is_Some_if_decide. Qed.

Lemma is_array_newArray (n : Z) : is_array (newArray n) (Z.max 0 n).
Proof.
  split; [lia|]. intros i. rewrite newArray_lookup.
  destruct (decide (0 <= i < n)).
  - split; [lia | eauto].
  - split; [intros [? ?]; done | lia].
Qed.

Lemma is_array_aset (a : gmap Z Z) (n i v : Z) :
  is_array a n -> is_array (aset a i v) n.
Proof.
  intros [Hn H]. split; [done|]. intros j. rewrite aset_is_Some. apply H.
Qed.

Lemma is_array_same_dom (a b : gmap Z Z) (n : Z) :
  (forall i, is_Some (b !! i) <-> is_Some (a !! i)) ->
  is_array a n -> is_array b n.
Proof. intros Hd [Hn H]. split; [done|]. intros i. rewrite Hd. apply H. Qed.

Lemma dom_zseq_size (n : nat) : forall (a : gmap Z Z) s,
  (forall i, is_Some (a !! i) <-> s <= i < s + Z.of_nat n) -> size a = n.
Proof.
  induction n as [|n IH]; intros a s H.
  - apply map_size_empty_iff. apply map_empty. intros i.
    apply eq_None_not_Some. rewrite H. lia.
  - assert (Hs : is_Some (a !! s)) by (apply H; lia).
    destruct Hs as [x Hx].
    rewrite <- (insert_delete_id a s x Hx).
    rewrite map_size_insert_None by apply lookup_delete_eq.
    f_equal. apply (IH _ (s + 1)). intros i.
    destruct (decide (s = i)) as [->|Hne].
    + rewrite lookup_delete_eq. split; [intros [? ?]; done | lia].
    + rewrite lookup_delete_ne by done. rewrite H. lia.
Qed.

Lemma is_array_alength (a : gmap Z Z) (n : Z) : is_array a n -> alength a = n.
Proof.
  intros [Hn H]. unfold alength.
  rewrite (dom_zseq_size (Z.to_nat n) a 0); [lia|].
  intros i. rewrite H. lia.
Qed.

Lemma alength_newArray (n : Z) : alength (newArray n) = Z.max 0 n.
Proof. apply is_array_alength, is_array_newArray. Qed.

Lemma is_val_true (o : option Z) (v : Z) : is_val o v = true <-> o = Some v.
Proof.
  destruct o as [x|]; simpl.
  - rewrite Z.eqb_eq. split; congruence.
  - split; congruence.
Qed.

Lemma is_val_false (o : option Z) (v : Z) : is_val o v = false <-> o <> Some v.
Proof.
  rewrite <- is_val_true. destruct (is_val o v); split; congruence.
Qed.

(** A loop whose iteration [i] touches only cell [i], as a function [F] of
    that cell's old content. *)
Lemma forUpTo_pointwise (n : Z) (body : gmap Z Z -> Z -> gmap Z Z)
  (F : Z -> option Z -> option Z) (a : gmap Z Z) :
  (forall acc i j, 0 <= i < n ->
     body acc i !! j = if decide (i = j) then F i (acc !! i) else acc !! j) ->
  forall j, forUpTo n body a !! j
            = if decide (0 <= j < n) then F j (a !! j) else a !! j.
Proof.
  intros Hbody.
  assert (Hinv : forall j, forUpTo n body a !! j
            = if decide (0 <= j < Z.max 0 n) then F j (a !! j) else a !! j).
  { pose proof (forUpTo_ind (fun k st => forall j, st !! j
            = if decide (0 <= j < k) then F j (a !! j) else a !! j) n body a)
      as Hind.
    cbv beta in Hind. apply Hind; clear Hind.
    - intros j. rewrite decide_False by lia. reflexivity.
    - intros k st Hk IH j. rewrite Hbody by done.
      destruct (decide (k = j)) as [->|Hne].
      + rewrite decide_True by lia. rewrite IH, decide_False by lia. reflexivity.
      + rewrite IH. destruct (decide (0 <= j < k)).
        * rewrite decide_True by lia. reflexivity.
        * rewrite decide_False by lia. reflexivity. }
  intros j. rewrite Hinv.
  destruct (decide (0 <= j < n));
    [rewrite decide_True by lia|rewrite decide_False by lia]; reflexivity.
Qed.

(** A loop of [aset]s keeps the keys. *)
Lemma forUpTo_same_dom (n : Z) (body : gmap Z Z -> Z -> gmap Z Z)
  (a : gmap Z Z) :
  (forall acc i j, is_Some (body acc i !! j) <-> is_Some (acc !! j)) ->
  forall j, is_Some (forUpTo n body a !! j) <-> is_Some (a !! j).
Proof.
  intros Hbody.
  pose proof (forUpTo_ind
    (fun _ st => forall j, is_Some (st !! j) <-> is_Some (a !! j)) n body a)
    as Hind.
  cbv beta in Hind. apply Hind; clear Hind.
  - done.
  - intros k st _ IH j. rewrite Hbody. apply IH.
Qed.

(** ** The explicit-stack flood fill computes a reachability closure *)

Lemma zeros_le_size (v : gmap Z Z) : (zeros v <= size v)%nat.
Proof. apply map_size_filter. Qed.

Lemma zeros_aset (v : gmap Z Z) (n : Z) :
  v !! n = Some 0 -> zeros v = S (zeros (aset v n 1)).
Proof.
  intros Hn. unfold zeros.
  assert (Hv : aset v n 1 = <[n := 1]> v).
  { apply map_eq. intros j. rewrite aset_lookup, lookup_insert.
    destruct (decide (n = j)) as [->|]; [by rewrite Hn|done]. }
  rewrite Hv, map_filter_insert_False by (simpl; lia).
  rewrite map_filter_delete.
  assert (Hf : filter (fun kv : Z * Z => kv.2 = 0) v !! n = Some 0)
    by (by apply map_lookup_filter_Some).
  rewrite map_size_delete, Hf.
  assert (size (filter (fun kv : Z * Z => kv.2 = 0) v) <> 0%nat).
  { intros Hz. apply map_size_empty_iff in Hz. rewrite Hz in Hf.
    by rewrite lookup_empty in Hf. }
  lia.
Qed.

Lemma binary_newArray (n : Z) : binary (newArray n).
Proof.
  intros i x. rewrite newArray_lookup. destruct (decide _); [|done].
  intros [= <-]. by left.
Qed.

Lemma binary_aset (v : gmap Z Z) (i : Z) : binary v -> binary (aset v i 1).
Proof.
  intros Hb j x. rewrite aset_lookup. destruct (decide (i = j)) as [->|].
  - destruct (v !! j); simpl; [|done]. intros [= <-]. by right.
  - apply Hb.
Qed.

Lemma marked_aset (v : gmap Z Z) (i j : Z) :
  marked v j -> marked (aset v i 1) j.
Proof.
  unfold marked. intros H. rewrite aset_lookup.
  destruct (decide (i = j)) as [->|]; [by rewrite H|done].
Qed.

Section FloodCorrect.
Variable test : gmap Z Z -> Z -> Z -> bool.
Variable w : Z.
(** [step i n]: may the fill move from [i] to its neighbour [n]? *)
Variable step : Z -> Z -> bool.
Hypothesis test_spec :
  forall v i n, test v i n = is_val (v !! n) 0 && step i n.

Lemma StepRel_refl i v s : StepRel step i v s [] v s.
Proof.
  split; try done.
  - exists []. split; [done|]. split.
    + intros j Hj. by apply elem_of_nil in Hj.
    + intros j Hj. by left.
  - intros n _ Hn. by apply elem_of_nil in Hn.
Qed.

Lemma StepRel_push i v s ns v1 s1 n :
  StepRel step i v s ns v1 s1 ->
  StepRel step i v s (ns ++ [n])
    (fst (pushNeighbor test i (v1, s1) n)) (snd (pushNeighbor test i (v1, s1) n)).
Proof.
  intros [Hdom Hbin Hmono (new & Hs1 & Hnewm & Hnew) Hdone Hfuel].
  unfold pushNeighbor. simpl. rewrite test_spec.
  destruct (is_val (v1 !! n) 0 && step i n) eqn:Ht; simpl.
  - apply andb_true_iff in Ht as [Hz Hst]. apply is_val_true in Hz.
    split.
    + intros j. rewrite aset_is_Some. apply Hdom.
    + intros Hb. by apply binary_aset, Hbin.
    + intros j Hj. apply marked_aset. by apply Hmono.
    + exists (n :: new). split; [by rewrite Hs1|]. split.
      * intros j Hj. apply elem_of_cons in Hj as [->|Hj].
        -- unfold marked. by apply (aset_lookup_eq _ _ _ 0).
        -- apply marked_aset. by apply Hnewm.
      * intros j Hj. unfold marked in Hj. rewrite aset_lookup in Hj.
        destruct (decide (n = j)) as [->|Hne].
        -- right. split; [apply elem_of_cons; auto|].
           split; [apply elem_of_app; right; apply elem_of_cons; auto|].
           split; [done|]. apply Hdom. rewrite Hz. eauto.
        -- destruct (Hnew j Hj) as [?|(?&?&?&?)]; [by left|right].
           split; [apply elem_of_cons; auto|].
           split; [apply elem_of_app; auto|done].
    + intros m Hb Hm Hsm Hsome. apply elem_of_app in Hm as [Hm|Hm].
      * apply marked_aset. by apply Hdone.
      * apply elem_of_cons in Hm as [->|Hm]; [|by apply elem_of_nil in Hm].
        unfold marked. by apply (aset_lookup_eq _ _ _ 0).
    + simpl. rewrite (zeros_aset v1 n Hz) in Hfuel. lia.
  - split; try done.
    + exists new. split; [done|]. split; [done|].
      intros j Hj. destruct (Hnew j Hj) as [?|(?&?&?&?)]; [by left|right].
      split; [done|]. split; [apply elem_of_app; auto|done].
    + intros m Hb Hm Hsm Hsome. apply elem_of_app in Hm as [Hm|Hm].
      * by apply Hdone.
      * apply elem_of_cons in Hm as [->|Hm]; [|by apply elem_of_nil in Hm].
        rewrite Hsm, andb_true_r in Ht. apply is_val_false in Ht.
        apply Hdom in Hsome as [x Hx].
        destruct (Hbin Hb n x Hx) as [->| ->]; [congruence|done].
Qed.

Lemma StepRel_fold i v s : forall ns done v1 s1,
  StepRel step i v s done v1 s1 ->
  StepRel step i v s (done ++ ns)
    (fst (foldl (pushNeighbor test i) (v1, s1) ns))
    (snd (foldl (pushNeighbor test i) (v1, s1) ns)).
Proof.
  induction ns as [|n ns IH]; intros done v1 s1 H; simpl.
  - by rewrite app_nil_r.
  - replace (done ++ n :: ns) with ((done ++ [n]) ++ ns)
      by (by rewrite <- app_assoc).
    pose proof (StepRel_push _ _ _ _ _ _ n H) as H'.
    destruct (pushNeighbor test i (v1, s1) n) as [v2 s2]. by apply IH.
Qed.

Lemma floodStep_rel i v s :
  StepRel step i v s (neighbors w i)
    (fst (floodStep test w i v s)) (snd (floodStep test w i v s)).
Proof. apply (StepRel_fold i v s (neighbors w i) []), StepRel_refl. Qed.

Lemma Inv_init v0 s0 :
  binary v0 ->
  (forall j, j ∈ s0 -> marked v0 j) ->
  (forall j, marked v0 j -> j ∈ s0) ->
  Inv w step v0 v0 s0.
Proof.
  intros Hb H1 H2. split; try done.
  - intros j Hj. by apply Reach_seed.
  - intros j n Hj Hns. exfalso. by apply Hns, H2.
Qed.

Lemma Inv_step v0 v i rest :
  Inv w step v0 v (i :: rest) ->
  Inv w step v0 (fst (floodStep test w i v rest)) (snd (floodStep test w i v rest)).
Proof.
  intros [Hdom Hbin Hmono Hsound Hstack Hclosed].
  destruct (floodStep_rel i v rest)
    as [Sdom Sbin Smono (new & Hs' & Hnewm & Hnew) Sdone Sfuel].
  assert (Hi : marked v i) by (apply Hstack, elem_of_cons; auto).
  split.
  - intros j. rewrite Sdom. apply Hdom.
  - by apply Sbin.
  - intros j Hj. by apply Smono, Hmono.
  - intros j Hj. destruct (Hnew j Hj) as [Hm|(_ & Hin & Hst & Hsome)].
    + by apply Hsound.
    + apply (Reach_step w step v0 i j); [by apply Hsound|done|done|by apply Hdom].
  - intros j Hj. rewrite Hs' in Hj. apply elem_of_app in Hj as [Hj|Hj].
    + by apply Hnewm.
    + apply Smono, Hstack, elem_of_cons. auto.
  - intros j n Hj Hns Hn Hst Hsome.
    rewrite Hs' in Hns. rewrite elem_of_app in Hns.
    destruct (decide (j = i)) as [->|Hne].
    + apply Sdone; [done|done|done|by apply Hdom].
    + destruct (Hnew j Hj) as [Hm|(Hin & _)]; [|tauto].
      apply Smono. apply (Hclosed j n); try done.
      rewrite elem_of_cons. tauto.
Qed.

Lemma Inv_done v0 v :
  Inv w step v0 v [] -> forall j, marked v j <-> Reach w step v0 j.
Proof.
  intros [Hdom Hbin Hmono Hsound Hstack Hclosed] j. split; [apply Hsound|].
  induction 1 as [j Hj|i n Hi IH Hn Hst Hsome].
  - by apply Hmono.
  - apply (Hclosed i n); try done. rewrite elem_of_nil. tauto.
Qed.

(** With a budget above [zeros v + length s] the loop ends on an empty
    stack, and what it returns is the closure. *)
Lemma floodLoop_correct (v0 : gmap Z Z) : forall (fuel : nat) (v : gmap Z Z) (s : list Z),
  Inv w step v0 v s -> (zeros v + length s < fuel)%nat ->
  floodRuns test w v s (floodLoop test w fuel v s) /\ Inv w step v0 (floodLoop test w fuel v s) [].
Proof.
  induction fuel as [|fuel IH]; intros v s HI Hf; [lia|].
  destruct s as [|i rest]; simpl.
  - split; [constructor|done].
  - pose proof (Inv_step _ _ _ _ HI) as HI'.
    pose proof (sr_fuel _ _ _ _ _ _ _ (floodStep_rel i v rest)) as Hfuel.
    simpl in Hf.
    destruct (IH _ _ HI') as [Hr Hinv]; [lia|].
    split; [by constructor|done].
Qed.

Lemma floodFuel_enough (v : gmap Z Z) (s : list Z) :
  (zeros v + length s < floodFuel v s)%nat.
Proof. unfold floodFuel. pose proof (zeros_le_size v). lia. Qed.
End FloodCorrect.

(** ** [generateFloodFillMask] *)

Lemma floodFillTest_spec data w h tolerance v i n :
  floodFillTest data w h tolerance v i n
  = is_val (v !! n) 0 && floodFillEdge data w h tolerance i n.
Proof.
  unfold floodFillTest, floodFillEdge.
  destruct (0 <=? n), (n <? w * h), (is_val (v !! n) 0),
    (negb (1 <? Z.abs (Z.rem n w - Z.rem i w))); reflexivity.
Qed.

Lemma foldl_mark_lookup (l : list Z) : forall (a : gmap Z Z) (j : Z),
  foldl (fun v i => aset v i 1) a l !! j
  = if decide (j ∈ l) then (fun _ => 1) <$> a !! j else a !! j.
Proof.
  induction l as [|x l IH]; intros a j; cbn [foldl].
  - rewrite decide_False by (rewrite elem_of_nil; tauto). reflexivity.
  - rewrite IH, aset_lookup.
    destruct (decide (j ∈ x :: l)) as [Hin|Hnin];
      destruct (decide (j ∈ l)) as [Hl|Hl];
      destruct (decide (x = j)) as [->|Hne]; try done.
    + by destruct (a !! j).
    + apply elem_of_cons in Hin. destruct Hin as [->|?]; done.
    + exfalso. apply Hnin, elem_of_cons. auto.
    + exfalso. apply Hnin, elem_of_cons. auto.
    + exfalso. apply Hnin, elem_of_cons. auto.
Qed.

Lemma corner_in_range (w h c : Z) :
  0 < w -> 0 < h -> c ∈ cornerStack w h -> 0 <= c < w * h.
Proof.
  intros Hw Hh Hc. unfold cornerStack in Hc.
  repeat (apply elem_of_cons in Hc as [->|Hc]); [nia..|].
  by apply elem_of_nil in Hc.
Qed.

Lemma cornerMarks_lookup (w h j : Z) :
  cornerMarks w h !! j
  = if decide (0 <= j < w * h)
    then Some (if decide (j ∈ cornerStack w h) then 1 else 0)
    else None.
Proof.
  unfold cornerMarks. rewrite foldl_mark_lookup, newArray_lookup.
  destruct (decide (j ∈ cornerStack w h)), (decide (0 <= j < w * h)); done.
Qed.

Lemma cornerMarks_marked (w h j : Z) :
  0 < w -> 0 < h -> marked (cornerMarks w h) j <-> j ∈ cornerStack w h.
Proof.
  intros Hw Hh. unfold marked. rewrite cornerMarks_lookup. split.
  - destruct (decide (0 <= j < w * h)); [|done].
    destruct (decide (j ∈ cornerStack w h)); [done|]. intros [=].
  - intros Hc. rewrite decide_True by (by apply corner_in_range).
    by rewrite decide_True.
Qed.

Lemma cornerMarks_Inv (data : gmap Z Z) (w h : Z) (tolerance : Q) :
  0 < w -> 0 < h ->
  Inv w (floodFillEdge data w h tolerance) (cornerMarks w h)
    (cornerMarks w h) (rev (cornerStack w h)).
Proof.
  intros Hw Hh. apply Inv_init.
  - unfold cornerMarks. generalize (cornerStack w h) as l.
    generalize (binary_newArray (w * h)). generalize (newArray (w * h)).
    intros a Ha l. revert a Ha. induction l as [|x l IH]; intros a Ha; simpl.
    + done.
    + apply IH. by apply binary_aset.
  - intros j Hj. apply cornerMarks_marked; [done..|].
    by apply elem_of_reverse in Hj.
  - intros j Hj. apply elem_of_reverse. by apply cornerMarks_marked in Hj.
Qed.

Lemma floodFillVisited_correct (data : gmap Z Z) (w h : Z) (tolerance : Q) :
  0 < w -> 0 < h ->
  floodRuns (floodFillTest data w h tolerance) w
    (cornerMarks w h) (rev (cornerStack w h))
    (floodFillVisited data w h tolerance) /\
  Inv w (floodFillEdge data w h tolerance) (cornerMarks w h)
    (floodFillVisited data w h tolerance) [].
Proof.
  intros Hw Hh. unfold floodFillVisited. fold (cornerMarks w h).
  eapply floodLoop_correct.
  - apply floodFillTest_spec.
  - by apply cornerMarks_Inv.
  - unfold floodFuel. rewrite length_rev.
    pose proof (zeros_le_size (cornerMarks w h)). lia.
Qed.

(** The visited map at the end of the fill: 1 on the closure of the
    corners, 0 on the other cells. *)
Lemma floodFillVisited_spec (data : gmap Z Z) (w h : Z) (tolerance : Q) :
  0 < w -> 0 < h ->
  is_array (floodFillVisited data w h tolerance) (w * h) /\
  forall i, 0 <= i < w * h ->
    (Reach w (floodFillEdge data w h tolerance) (cornerMarks w h) i ->
     floodFillVisited data w h tolerance !! i = Some 1) /\
    (~ Reach w (floodFillEdge data w h tolerance) (cornerMarks w h) i ->
     floodFillVisited data w h tolerance !! i = Some 0).
Proof.
  intros Hw Hh.
  destruct (floodFillVisited_correct data w h tolerance Hw Hh) as [_ HI].
  pose proof (Inv_done _ _ _ _ HI) as Hdone.
  pose proof (inv_dom _ _ _ _ _ HI) as Hdom.
  pose proof (inv_bin _ _ _ _ _ HI) as Hbin.
  assert (Hkeys : forall i, is_Some (floodFillVisited data w h tolerance !! i)
                            <-> 0 <= i < w * h).
  { intros i. rewrite Hdom, cornerMarks_lookup.
    destruct (decide (0 <= i < w * h)) as [Hr|Hr].
    - split; eauto.
    - split; [intros [? ?]; done | intros; lia]. }
  split; [split; [nia|done]|].
  intros i Hi. split.
  - intros HR. by apply Hdone.
  - intros HR. destruct (proj2 (Hkeys i) Hi) as [x Hx].
    destruct (Hbin i x Hx) as [->| ->]; [done|]. exfalso. by apply HR, Hdone.
Qed.

Lemma leq_num_withinTolerance (data : gmap Z Z) (tolerance : Q) (n : Z) :
  leq_num (sqDist data (bgColor data) n) (threshSq tolerance) = true
  <-> withinTolerance data tolerance n.
Proof.
  unfold leq_num, sqDist, bgColor, withinTolerance, threshSq. split.
  - destruct (data !! (n * 4)) as [r|]; [|done].
    destruct (data !! (n * 4 + 1)) as [g|]; [|done].
    destruct (data !! (n * 4 + 2)) as [b|]; [|done].
    destruct (data !! 0) as [r0|]; [|done].
    destruct (data !! 1) as [g0|]; [|done].
    destruct (data !! 2) as [b0|]; [|done].
    intros H. apply Qle_bool_iff in H.
    exists r, g, b, r0, g0, b0. repeat split; done.
  - intros (r & g & b & r0 & g0 & b0 & -> & -> & -> & -> & -> & -> & H).
    by apply Qle_bool_iff.
Qed.

Lemma cornerStack_eq (w h : Z) :
  cornerStack w h = [0; w - 1; (h - 1) * w; w * h - 1].
Proof. unfold cornerStack. do 4 f_equal. lia. Qed.

Lemma Reach_in_range (data : gmap Z Z) (w h : Z) (tolerance : Q) (i : Z) :
  0 < w -> 0 < h ->
  Reach w (floodFillEdge data w h tolerance) (cornerMarks w h) i ->
  0 <= i < w * h.
Proof.
  intros Hw Hh HR.
  assert (Hs : is_Some (cornerMarks w h !! i)).
  { destruct HR as [i Hi|i n _ _ _ Hs]; [|done]. unfold marked in Hi. eauto. }
  rewrite cornerMarks_lookup in Hs.
  destruct (decide (0 <= i < w * h)); [done|]. by destruct Hs.
Qed.

Lemma IndexFill_in_range (bg : Z -> Prop) (w h i : Z) :
  0 < w -> 0 < h -> IndexFill bg w h i -> 0 <= i < w * h.
Proof.
  intros Hw Hh [c Hc|]; [|done].
  apply corner_in_range; [done..|]. by rewrite cornerStack_eq.
Qed.

Lemma floodFillEdge_true (data : gmap Z Z) (w h : Z) (tolerance : Q) (i n : Z) :
  0 < w -> 0 <= i ->
  floodFillEdge data w h tolerance i n = true <->
  0 <= n < w * h /\ Z.abs (n mod w - i mod w) <= 1 /\
  withinTolerance data tolerance n.
Proof.
  intros Hw Hi. unfold floodFillEdge.
  rewrite !andb_true_iff, negb_true_iff, leq_num_withinTolerance.
  rewrite Z.leb_le, Z.ltb_lt, Z.ltb_ge.
  split.
  - intros [[[H0 H1] Hg] Ht].
    rewrite !Z.rem_mod_nonneg in Hg by lia. tauto.
  - intros [[H0 H1] [Hg Ht]].
    rewrite !Z.rem_mod_nonneg by lia. tauto.
Qed.

Lemma IndexFill_Reach (data : gmap Z Z) (w h : Z) (tolerance : Q) (i : Z) :
  0 < w -> 0 < h ->
  IndexFill (withinTolerance data tolerance) w h i <->
  Reach w (floodFillEdge data w h tolerance) (cornerMarks w h) i.
Proof.
  intros Hw Hh. split.
  - induction 1 as [c Hc|i n Hi IH Hn Hr Hg Ht].
    + apply Reach_seed, cornerMarks_marked; [done..|]. by rewrite cornerStack_eq.
    + apply (Reach_step _ _ _ i n); [done|done| |].
      * apply floodFillEdge_true; [done| |done].
        apply (IndexFill_in_range (withinTolerance data tolerance) w h); done.
      * rewrite cornerMarks_lookup, decide_True by done. eauto.
  - induction 1 as [c Hc|i n Hi IH Hn Hst Hs].
    + apply IndexFill_corner. rewrite <- cornerStack_eq.
      by apply cornerMarks_marked.
    + apply floodFillEdge_true in Hst as (Hr & Hg & Ht); [|done|].
      * by apply (IndexFill_step _ _ _ i n).
      * apply (Reach_in_range data w h tolerance); done.
Qed.

Lemma generateFloodFillMask_lookup (data : gmap Z Z) (w h : Z) (tolerance : Q)
  (i : Z) :
  generateFloodFillMask data w h tolerance !! i
  = (fun v => if v =? 1 then 0 else 1)
      <$> floodFillVisited data w h tolerance !! i.
Proof. unfold generateFloodFillMask. apply lookup_fmap. Qed.

Lemma is_array_generateFloodFillMask (data : gmap Z Z) (w h : Z)
  (tolerance : Q) :
  0 < w -> 0 < h ->
  is_array (generateFloodFillMask data w h tolerance) (w * h).
Proof.
  intros Hw Hh.
  destruct (floodFillVisited_spec data w h tolerance Hw Hh) as [Ha _].
  eapply is_array_same_dom; [|exact Ha].
  intros i. rewrite generateFloodFillMask_lookup. apply fmap_is_Some.
Qed.

(** C9.  Whatever the colours of the corner pixels, the mask of
    [generateFloodFillMask] is 0 at the four corner indices [0], [w-1],
    [(h-1)*w] and [w*h-1]. *)
Theorem generateFloodFillMask_corners (data : gmap Z Z) (w h : Z)
  (tolerance : Q) :
  0 < w -> 0 < h ->
  generateFloodFillMask data w h tolerance !! 0 = Some 0 /\
  generateFloodFillMask data w h tolerance !! (w - 1) = Some 0 /\
  generateFloodFillMask data w h tolerance !! ((h - 1) * w) = Some 0 /\
  generateFloodFillMask data w h tolerance !! (w * h - 1) = Some 0.
Proof.
  intros Hw Hh.
  destruct (floodFillVisited_correct data w h tolerance Hw Hh) as [_ HI].
  assert (Hc : forall c, c ∈ cornerStack w h ->
            generateFloodFillMask data w h tolerance !! c = Some 0).
  { intros c Hc. rewrite generateFloodFillMask_lookup.
    apply (cornerMarks_marked w h c Hw Hh) in Hc.
    apply (inv_mono _ _ _ _ _ HI) in Hc. unfold marked in Hc.
    by rewrite Hc. }
  rewrite cornerStack_eq in Hc.
  repeat split; apply Hc; rewrite !elem_of_cons; auto.
Qed.

Lemma generateFloodFillMask_corners_witness :
  generateFloodFillMask checkerImage 2 2 10 !! 0 = Some 0 /\
  generateFloodFillMask checkerImage 2 2 10 !! (2 - 1) = Some 0 /\
  generateFloodFillMask checkerImage 2 2 10 !! ((2 - 1) * 2) = Some 0 /\
  generateFloodFillMask checkerImage 2 2 10 !! (2 * 2 - 1) = Some 0.
Proof. apply (generateFloodFillMask_corners checkerImage 2 2 10); lia. Defined.

(** ** [detectSegments] and [sliceImage] *)

(** C10.  In smart mode a tolerance of 0 is falsy and is replaced by the
    default 20: the call returns what it returns for tolerance 20. *)
Theorem detectSegments_tolerance_zero (img : ImageData) (t : Q)
  (rows cols : Z) (trim : option Q) (g : option CustomGrid) :
  (t == 0)%Q ->
  detectSegments img (mkOptions smart t rows cols trim g)
  = detectSegments img (mkOptions smart 20 rows cols trim g).
Proof.
  intros Ht. unfold detectSegments, orDefault. simpl.
  apply Qeq_bool_iff in Ht. rewrite Ht. reflexivity.
Qed.

Lemma detectSegments_tolerance_zero_witness :
  detectSegments squareImage (mkOptions smart 0 1 1 None None)
  = detectSegments squareImage (mkOptions smart 20 1 1 None None).
Proof. apply detectSegments_tolerance_zero. reflexivity. Defined.

Lemma sliceable_true (r : Rect) :
  sliceable r = true <-> (1 <= rect_w r)%Q /\ (1 <= rect_h r)%Q.
Proof.
  unfold sliceable, Qltb.
  rewrite negb_true_iff, orb_false_iff, !negb_false_iff, !Qle_bool_iff.
  reflexivity.
Qed.

Section SliceFacts.
Context {B : Type}.
Variable getContext : Rect -> bool.
Variable toBlob : Rect -> option B.

Lemma sliceStep_skip (st : list (ProcessedSprite B) * list (Q * Q)) (r : Rect) :
  sliceable r = false -> sliceStep getContext toBlob st r = st.
Proof.
  unfold sliceable, sliceStep. intros H. apply negb_false_iff in H.
  by rewrite H.
Qed.

Lemma foldl_sliceStep_filter (rects : list Rect) :
  forall st,
    foldl (sliceStep getContext toBlob) st rects
    = foldl (sliceStep getContext toBlob) st (List.filter sliceable rects).
Proof.
  induction rects as [|r rects IH]; intros st; simpl; [reflexivity|].
  destruct (sliceable r) eqn:Hr; simpl.
  - apply IH.
  - rewrite sliceStep_skip by done. apply IH.
Qed.

Lemma sliceStep_fromSliceable (rects : list Rect) st r :
  r ∈ rects -> fromSliceable rects st ->
  fromSliceable rects (sliceStep getContext toBlob st r).
Proof.
  intros Hr [Hs Hc]. unfold sliceStep.
  destruct (Qltb (rect_w r) 1 || Qltb (rect_h r) 1) eqn:Hd; [done|].
  assert (Hok : sliceable r = true) by (unfold sliceable; by rewrite Hd).
  assert (Hc' : forall c, c ∈ snd st ++ [(rect_w r, rect_h r)] ->
            exists r0, r0 ∈ rects /\ sliceable r0 = true /\
                       c = (rect_w r0, rect_h r0)).
  { intros c Hin. apply elem_of_app in Hin as [Hin|Hin]; [by apply Hc|].
    apply elem_of_cons in Hin as [->|Hin]; [|by apply elem_of_nil in Hin].
    by exists r. }
  destruct (getContext r); simpl; [|by split].
  destruct (toBlob r) as [blob|]; simpl; [|by split].
  split; [|done].
  intros s Hin. apply elem_of_app in Hin as [Hin|Hin]; [by apply Hs|].
  apply elem_of_cons in Hin as [->|Hin]; [|by apply elem_of_nil in Hin].
  by exists r.
Qed.

Lemma foldl_sliceStep_fromSliceable (rects : list Rect) :
  forall l st,
    (forall r, r ∈ l -> r ∈ rects) -> fromSliceable rects st ->
    fromSliceable rects (foldl (sliceStep getContext toBlob) st l).
Proof.
  induction l as [|r l IH]; intros st Hl Hst; simpl; [done|].
  apply IH.
  - intros r' Hr'. apply Hl, elem_of_cons. auto.
  - apply sliceStep_fromSliceable; [|done]. apply Hl, elem_of_cons. auto.
Qed.

(** C8.  [sliceImage] skips every Rect with [w < 1] or [h < 1]: the
    result is the one obtained from the list without those Rects, and
    every sprite produced and every crop canvas created has the size of a
    Rect of the list with [w >= 1] and [h >= 1]. *)
Theorem sliceImage_skips_degenerate (rects : list Rect) :
  sliceRects getContext toBlob rects
  = sliceRects getContext toBlob (List.filter sliceable rects) /\
  (forall s, s ∈ fst (sliceRects getContext toBlob rects) ->
     exists r, r ∈ rects /\ (1 <= rect_w r)%Q /\ (1 <= rect_h r)%Q /\
       sprite_width s = rect_w r /\ sprite_height s = rect_h r) /\
  (forall c, c ∈ snd (sliceRects getContext toBlob rects) ->
     exists r, r ∈ rects /\ (1 <= rect_w r)%Q /\ (1 <= rect_h r)%Q /\
       c = (rect_w r, rect_h r)).
Proof.
  split; [apply foldl_sliceStep_filter|].
  assert (H : fromSliceable rects (sliceRects getContext toBlob rects)).
  { apply foldl_sliceStep_fromSliceable; [done|].
    split; intros x Hx; by apply elem_of_nil in Hx. }
  destruct H as [Hs Hc]. split.
  - intros s Hin. destruct (Hs s Hin) as (r & Hr & Hok & Hw & Hh).
    apply sliceable_true in Hok as [? ?]. by exists r.
  - intros c Hin. destruct (Hc c Hin) as (r & Hr & Hok & ->).
    apply sliceable_true in Hok as [? ?]. by exists r.
Qed.
End SliceFacts.

(** C3, at a 3x1 buffer cut at [x = 0.5]: the two cells are rounded to
    [(0,0,2,1)] and [(2,0,2,1)].  Their areas add up to 4, not 3, and the
    second one covers the column 3, which the buffer does not have. *)
Theorem customGrid_rounding_breaks_tiling (d : gmap Z Z) :
  let rects := detectSegments (mkImageData 3 1 d)
                 (mkOptions grid 20 1 1 None (Some (mkCustomGrid [0.5%Q] []))) in
  rects = [mkRect 0 0 2 1; mkRect 2 0 2 1] /\
  (totalArea rects == 4)%Q /\ ~ (totalArea rects == 3)%Q /\
  existsb (fun r => inRect r 3 0) rects = true.
Proof.
  cbv zeta.
  assert (H : detectSegments (mkImageData 3 1 d)
                (mkOptions grid 20 1 1 None (Some (mkCustomGrid [0.5%Q] [])))
              = [mkRect 0 0 2 1; mkRect 2 0 2 1]) by (vm_compute; reflexivity).
  rewrite H. repeat split; vm_compute; congruence.
Qed.

(** ** [erode] *)

(** C5, at the 3x2 mask [1 1 1 / 0 1 1] with one pass.  The cell (2,0)
    has foreground to its left and below it, yet [erode] clears it: its
    index neighbour [i+1] is the background cell (0,1) of the next row. *)
Theorem erode_crosses_row_boundary :
  let mask := of_list [1; 1; 1; 0; 1; 1] in
  erode mask 3 2 1 = of_list [0; 1; 0; 0; 0; 1] /\
  erodeSpec mask 3 2 1 = of_list [0; 1; 1; 0; 0; 1] /\
  erode mask 3 2 1 !! 2 = Some 0 /\
  erodeSpec mask 3 2 1 !! 2 = Some 1.
Proof. vm_compute. repeat split; reflexivity. Qed.

(** ** The square scenario *)

Lemma forallb_indices (n : Z) (p : Z -> bool) :
  forallb p (indices n) = true -> forall i, 0 <= i < n -> p i = true.
Proof.
  intros H i Hi. rewrite forallb_forall in H. apply H.
  apply list_elem_of_In. by apply elem_of_indices.
Qed.

Lemma squareMask_cells :
  forall i, 0 <= i < 10000 ->
    generateFloodFillMask (data squareImage) 100 100 10 !! i
    = Some (if inSquare i then 1 else 0).
Proof.
  assert (H : let m := generateFloodFillMask (data squareImage) 100 100 10 in
              forallb (fun i => is_val (m !! i) (if inSquare i then 1 else 0))
                (indices 10000) = true) by (vm_compute; reflexivity).
  cbv zeta in H. intros i Hi. apply is_val_true.
  exact (forallb_indices _ _ H i Hi).
Qed.

Lemma squareMask_count :
  countVal (generateFloodFillMask (data squareImage) 100 100 10) 1 = 400.
Proof. vm_compute. reflexivity. Qed.

Lemma squareImage_sqDist :
  forall i, 0 <= i < 10000 ->
    sqDist (data squareImage) (bgColor (data squareImage)) i
    = Some (if inSquare i then 195075 else 0).
Proof.
  intros i Hi.
  assert (H : is_val (sqDist (data squareImage) (bgColor (data squareImage)) i)
                (if inSquare i then 195075 else 0) = true).
  { revert i Hi. apply forallb_indices. vm_compute. reflexivity. }
  apply is_val_true. exact H.
Qed.

Lemma distExceeds_zero (limit : Q) :
  (0 <= limit)%Q -> distExceeds (Some 0) limit = false.
Proof.
  intros H. unfold distExceeds, Qltb.
  apply orb_false_iff. split; apply negb_false_iff, Qle_bool_iff; [done|].
  change (inject_Z 0) with 0%Q. by apply Qmult_le_0_compat.
Qed.

Lemma squareImage_contentMap (t : Q) :
  (0 <= t)%Q ->
  contentMap (data squareImage) 100 100 t
  = squareContent (distExceeds (Some 195075) (t * 3)).
Proof.
  intros Ht. unfold contentMap, squareContent.
  change (100 * 100) with 10000.
  apply forUpTo_ext. intros st i Hi.
  rewrite squareImage_sqDist by done.
  destruct (inSquare i); cbn [andb]; [reflexivity|].
  rewrite distExceeds_zero; [reflexivity|].
  apply Qmult_le_0_compat; [done|]. by compute.
Qed.

Lemma orDefault_nonneg (v d : Q) :
  (0 <= v)%Q -> (0 <= d)%Q -> (0 <= orDefault v d)%Q.
Proof. intros Hv Hd. unfold orDefault. by destruct (Qeq_bool v 0). Qed.

(** [smartRects] returns the padded boxes of the components that count
    more than [minArea] pixels, in scan order. *)
Lemma smartRects_components (isContent : gmap Z Z) (width height : Z)
  (pad : Q) :
  smartRects isContent width height pad
  = map (fun c => paddedRect c width height pad)
      (List.filter (fun c => minArea <? cCount c)
         (smartComponents isContent width height)).
Proof.
  unfold smartRects, smartComponents, forUpTo.
  generalize (indices (width * height)) as l.
  match goal with
  | |- forall l, snd (foldl ?f _ l)
                 = map ?pr (List.filter ?keep (snd (foldl ?g _ l))) =>
      set (F := f); set (G := g); set (P := pr); set (K := keep)
  end.
  assert (E : forall v cs i,
    F (v, map P (List.filter K cs)) i
    = (fst (G (v, cs) i), map P (List.filter K (snd (G (v, cs) i))))).
  { intros v cs i. unfold F, G. cbv beta zeta. cbn [fst snd].
    destruct (is_val (isContent !! i) 1 && is_val (v !! i) 0); [|reflexivity].
    cbn [fst snd]. f_equal.
    rewrite List.filter_app, List.map_app. cbn [List.filter].
    unfold K. destruct (minArea <? cCount _); cbn [map];
      [reflexivity|by rewrite app_nil_r]. }
  assert (H : forall l v cs,
    foldl F (v, map P (List.filter K cs)) l
    = (fst (foldl G (v, cs) l),
       map P (List.filter K (snd (foldl G (v, cs) l))))).
  { induction l as [|i l IH]; intros v cs; cbn [foldl]; [reflexivity|].
    rewrite E. destruct (G (v, cs) i) as [v' cs']. cbn [fst snd]. apply IH. }
  intros l. pose proof (H l (newArray (width * height)) []) as Hl.
  change (map P (List.filter K [])) with (@nil Rect) in Hl.
  rewrite Hl. reflexivity.
Qed.

Lemma squareContent_cells :
  forall i, 0 <= i < 10000 ->
    squareContent true !! i = Some (if inSquare i then 1 else 0).
Proof.
  assert (H : let m := squareContent true in
              forallb (fun i => is_val (m !! i) (if inSquare i then 1 else 0))
                (indices 10000) = true) by (vm_compute; reflexivity).
  cbv zeta in H. intros i Hi. apply is_val_true.
  exact (forallb_indices _ _ H i Hi).
Qed.

Lemma squareContent_components :
  map componentBox (smartComponents (squareContent true) 100 100)
  = [(400, (40, 59), (40, 59))].
Proof. vm_compute. reflexivity. Qed.

Lemma square21Image_sqDist :
  forall i, 0 <= i < 10000 ->
    sqDist (data square21Image) (bgColor (data square21Image)) i
    = Some (if inSquare21 i then 195075 else 0).
Proof.
  intros i Hi.
  assert (H : is_val (sqDist (data square21Image) (bgColor (data square21Image)) i)
                (if inSquare21 i then 195075 else 0) = true).
  { revert i Hi. apply forallb_indices. vm_compute. reflexivity. }
  apply is_val_true. exact H.
Qed.

Lemma square21Image_contentMap (t : Q) :
  (0 <= t)%Q ->
  contentMap (data square21Image) 100 100 t
  = square21Content (distExceeds (Some 195075) (t * 3)).
Proof.
  intros Ht. unfold contentMap, square21Content.
  change (100 * 100) with 10000.
  apply forUpTo_ext. intros st i Hi.
  rewrite square21Image_sqDist by done.
  destruct (inSquare21 i); cbn [andb]; [reflexivity|].
  rewrite distExceeds_zero; [reflexivity|].
  apply Qmult_le_0_compat; [done|]. by compute.
Qed.

Lemma square21Content_components :
  map componentBox (smartComponents (square21Content true) 100 100)
  = [(441, (40, 60), (40, 60))].
Proof. vm_compute. reflexivity. Qed.

(** White counts as content against black at the falsy tolerance 0,
    which is replaced by 20, and at every positive tolerance up to 147:
    [3 * 147 = 441] and [441^2 = 194481 < 195075 = 3 * 255^2]. *)
Lemma white_is_content (t : Q) :
  (t == 0 \/ (0 < t /\ t <= 147))%Q ->
  (0 <= orDefault t 20)%Q /\
  distExceeds (Some 195075) (orDefault t 20 * 3) = true.
Proof.
  intros [H0|[Hpos Hle]]; unfold orDefault.
  - apply Qeq_bool_iff in H0. rewrite H0. split; [by compute|].
    vm_compute. reflexivity.
  - assert (Hne : Qeq_bool t 0 = false).
    { destruct (Qeq_bool t 0) eqn:E; [|done]. apply Qeq_bool_iff in E.
      rewrite E in Hpos. by apply Qlt_irrefl in Hpos. }
    rewrite Hne. split; [by apply Qlt_le_weak|].
    unfold distExceeds, Qltb. apply orb_true_iff. right.
    apply negb_true_iff. destruct (Qle_bool _ _) eqn:E; [|done].
    apply Qle_bool_iff in E. exfalso.
    assert (H3 : (0 <= t * 3)%Q) by lra.
    assert (H441 : (t * 3 <= 441)%Q) by lra.
    assert (Hsq : (t * 3 * (t * 3) <= 441 * 441)%Q).
    { apply Qle_trans with (441 * (t * 3))%Q.
      - by apply Qmult_le_compat_r.
      - apply Qmult_le_l; [reflexivity|done]. }
    assert (Hbig : (441 * 441 < inject_Z 195075)%Q) by reflexivity.
    apply (Qlt_not_le _ _ Hbig). by apply Qle_trans with (t * 3 * (t * 3))%Q.
Qed.

Lemma one_component (comps : list Component) (b : Z * (Z * Z) * (Z * Z)) :
  map componentBox comps = [b] ->
  exists c, comps = [c] /\ componentBox c = b.
Proof.
  destruct comps as [|c [|c' comps]]; simpl; intros H; try discriminate.
  injection H as H. by exists c.
Qed.

(** C4, as the code has it.  On the 100x100 black image with the white
    20x20 square at (40,40)-(60,60), [generateFloodFillMask] with
    tolerance 10 gives the mask whose foreground is exactly the square,
    400 pixels.  In smart mode, at the tolerance 0, which is replaced by
    the default 20, and at every positive tolerance up to 147, white
    counts as content: the content map is exactly the square; the square is its
    only connected component, with [count = 400] and bounding box
    [40..59] x [40..59]; the test [count > minArea] fails for it, since
    [minArea] is 400; so [detectSegments] returns no Rect, although the
    padded box of the component is there to be returned.  With one more
    column and row of white the only component counts 441 pixels, passes
    the test, and [detectSegments] returns exactly one Rect: its box
    [40..60] x [40..60] padded by [pad] and clamped to the image,
    [(30, 30, 40, 40)] for the default padding. *)
Theorem square_scenario (t : Q) (rows cols : Z) (trim : option Q)
  (g : option CustomGrid) :
  (t == 0 \/ (0 < t /\ t <= 147))%Q ->
  let options := mkOptions smart t rows cols trim g in
  let pad := match trim with Some p => orDefault p 10 | None => 10%Q end in
  let content := contentMap (data squareImage) 100 100 (orDefault t 20) in
  let content21 := contentMap (data square21Image) 100 100 (orDefault t 20) in
  (forall i, 0 <= i < 10000 ->
     generateFloodFillMask (data squareImage) 100 100 10 !! i
     = Some (if inSquare i then 1 else 0)) /\
  countVal (generateFloodFillMask (data squareImage) 100 100 10) 1 = 400 /\
  (forall i, 0 <= i < 10000 ->
     content !! i = Some (if inSquare i then 1 else 0)) /\
  (exists c,
     smartComponents content 100 100 = [c] /\
     componentBox c = (400, (40, 59), (40, 59)) /\
     (minArea <? cCount c) = false /\
     paddedRect c 100 100 pad
     = mkRect (Qmax 0 (40 - pad)) (Qmax 0 (40 - pad))
         (Qmin 100 (59 + pad) - Qmax 0 (40 - pad))
         (Qmin 100 (59 + pad) - Qmax 0 (40 - pad))) /\
  detectSegments squareImage options = [] /\
  (exists c,
     smartComponents content21 100 100 = [c] /\
     componentBox c = (441, (40, 60), (40, 60)) /\
     (minArea <? cCount c) = true /\
     detectSegments square21Image options = [paddedRect c 100 100 pad] /\
     paddedRect c 100 100 pad
     = mkRect (Qmax 0 (40 - pad)) (Qmax 0 (40 - pad))
         (Qmin 100 (60 + pad) - Qmax 0 (40 - pad))
         (Qmin 100 (60 + pad) - Qmax 0 (40 - pad))).
Proof.
  intros Ht. cbv zeta.
  destruct (white_is_content t Ht) as [Hnn Hwhite].
  assert (Hdetect : forall img content,
    width img = 100 -> height img = 100 ->
    contentMap (data img) 100 100 (orDefault t 20) = content ->
    detectSegments img (mkOptions smart t rows cols trim g)
    = map (fun c => paddedRect c 100 100
                      match trim with Some p => orDefault p 10 | None => 10%Q end)
        (List.filter (fun c => minArea <? cCount c)
           (smartComponents content 100 100))).
  { intros img content Hw Hh Hcontent. unfold detectSegments.
    cbn [opt_mode opt_tolerance opt_trim]. rewrite Hw, Hh, Hcontent.
    apply smartRects_components. }
  pose proof (squareImage_contentMap _ Hnn) as Hcontent.
  pose proof (square21Image_contentMap _ Hnn) as Hcontent21.
  rewrite Hwhite in Hcontent, Hcontent21.
  rewrite (Hdetect squareImage _ eq_refl eq_refl Hcontent).
  rewrite (Hdetect square21Image _ eq_refl eq_refl Hcontent21).
  rewrite Hcontent, Hcontent21. clear Hdetect Hcontent Hcontent21.
  destruct (one_component _ _ squareContent_components) as (c & Ec & Hc).
  destruct (one_component _ _ square21Content_components)
    as (c21 & Ec21 & Hc21).
  rewrite Ec, Ec21.
  assert (Hf : cCount c = 400 /\ cMinX c = 40 /\ cMaxX c = 59 /\
               cMinY c = 40 /\ cMaxY c = 59).
  { unfold componentBox in Hc. injection Hc as H1 H2 H3 H4 H5. tauto. }
  assert (Hf21 : cCount c21 = 441 /\ cMinX c21 = 40 /\ cMaxX c21 = 60 /\
                 cMinY c21 = 40 /\ cMaxY c21 = 60).
  { unfold componentBox in Hc21. injection Hc21 as H1 H2 H3 H4 H5. tauto. }
  destruct Hf as (Hcount & HminX & HmaxX & HminY & HmaxY).
  destruct Hf21 as (Hcount21 & HminX21 & HmaxX21 & HminY21 & HmaxY21).
  assert (Hpad : forall (c0 : Component) (p : Q) (x0 x1 y0 y1 : Z),
    cMinX c0 = x0 -> cMaxX c0 = x1 -> cMinY c0 = y0 -> cMaxY c0 = y1 ->
    paddedRect c0 100 100 p
    = mkRect (Qmax 0 (inject_Z x0 - p)) (Qmax 0 (inject_Z y0 - p))
        (Qmin 100 (inject_Z x1 + p) - Qmax 0 (inject_Z x0 - p))
        (Qmin 100 (inject_Z y1 + p) - Qmax 0 (inject_Z y0 - p))).
  { intros c0 p x0 x1 y0 y1 <- <- <- <-. reflexivity. }
  split; [exact squareMask_cells|]. split; [exact squareMask_count|].
  split; [exact squareContent_cells|].
  split; [|split].
  - exists c. split; [reflexivity|]. split; [exact Hc|].
    split; [rewrite Hcount; reflexivity|].
    exact (Hpad c _ 40 59 40 59 HminX HmaxX HminY HmaxY).
  - cbn [List.filter]. rewrite Hcount. reflexivity.
  - exists c21. split; [reflexivity|]. split; [exact Hc21|].
    split; [rewrite Hcount21; reflexivity|].
    split.
    + cbn [List.filter]. rewrite Hcount21. reflexivity.
    + exact (Hpad c21 _ 40 60 40 60 HminX21 HmaxX21 HminY21 HmaxY21).
Qed.

Lemma square_scenario_witness :
  let options := mkOptions smart 20 1 1 None None in
  let pad := match @None Q with Some p => orDefault p 10 | None => 10%Q end in
  let content := contentMap (data squareImage) 100 100 (orDefault 20 20) in
  let content21 := contentMap (data square21Image) 100 100 (orDefault 20 20) in
  (forall i, 0 <= i < 10000 ->
     generateFloodFillMask (data squareImage) 100 100 10 !! i
     = Some (if inSquare i then 1 else 0)) /\
  countVal (generateFloodFillMask (data squareImage) 100 100 10) 1 = 400 /\
  (forall i, 0 <= i < 10000 ->
     content !! i = Some (if inSquare i then 1 else 0)) /\
  (exists c,
     smartComponents content 100 100 = [c] /\
     componentBox c = (400, (40, 59), (40, 59)) /\
     (minArea <? cCount c) = false /\
     paddedRect c 100 100 pad
     = mkRect (Qmax 0 (40 - pad)) (Qmax 0 (40 - pad))
         (Qmin 100 (59 + pad) - Qmax 0 (40 - pad))
         (Qmin 100 (59 + pad) - Qmax 0 (40 - pad))) /\
  detectSegments squareImage options = [] /\
  (exists c,
     smartComponents content21 100 100 = [c] /\
     componentBox c = (441, (40, 60), (40, 60)) /\
     (minArea <? cCount c) = true /\
     detectSegments square21Image options = [paddedRect c 100 100 pad] /\
     paddedRect c 100 100 pad
     = mkRect (Qmax 0 (40 - pad)) (Qmax 0 (40 - pad))
         (Qmin 100 (60 + pad) - Qmax 0 (40 - pad))
         (Qmin 100 (60 + pad) - Qmax 0 (40 - pad))).
Proof.
  apply (square_scenario 20 1 1 None None).
  right. split; [reflexivity|discriminate].
Defined.

(** C4 as it was stated fails: in smart mode with the default options
    the square image does not yield exactly one Rect. *)
Lemma square_scenario_not_one_rect :
  ~ exists r, detectSegments squareImage (mkOptions smart 20 1 1 None None) = [r].
Proof.
  intros [r Hr].
  assert (H : detectSegments squareImage (mkOptions smart 20 1 1 None None) = [])
    by (vm_compute; reflexivity).
  congruence.
Qed.

(** ** [fillInternalHoles] *)

Lemma holeTest_spec mask w len v i n :
  holeTest mask w len v i n = is_val (v !! n) 0 && holeEdge mask w len i n.
Proof.
  unfold holeTest, holeEdge.
  destruct (0 <=? n), (n <? len), (is_val (v !! n) 0), (is_val (mask !! n) 0);
    reflexivity.
Qed.

Lemma foldl_flat_map {St A C : Type} (f : St -> C -> St) (g : A -> list C)
  (l : list A) : forall s,
  foldl f s (flat_map g l) = foldl (fun s x => foldl f s (g x)) s l.
Proof.
  induction l as [|a l IH]; intros s; simpl; [reflexivity|].
  rewrite foldl_app. apply IH.
Qed.

Lemma holeSeeds_candidates (mask : gmap Z Z) (w h : Z) :
  holeSeeds mask w h
  = foldl (seedIf mask) (newArray (w * h), []) (seedCandidates w h).
Proof.
  unfold holeSeeds, seedCandidates, forUpTo.
  rewrite foldl_app, !foldl_flat_map. reflexivity.
Qed.

Lemma foldl_seedIf (mask : gmap Z Z) (l : list Z) : forall v s,
  foldl (seedIf mask) (v, s) l
  = (foldl (fun v i => aset v i 1) v
       (List.filter (fun i => is_val (mask !! i) 0) l),
     rev (List.filter (fun i => is_val (mask !! i) 0) l) ++ s).
Proof.
  induction l as [|x l IH]; intros v s; simpl; [reflexivity|].
  unfold seedIf at 2. simpl.
  destruct (is_val (mask !! x) 0); simpl.
  - rewrite IH. f_equal. by rewrite <- app_assoc.
  - apply IH.
Qed.

Lemma holeSeeds_eq (mask : gmap Z Z) (w h : Z) :
  holeSeeds mask w h
  = (foldl (fun v i => aset v i 1) (newArray (w * h)) (holeSeedList mask w h),
     rev (holeSeedList mask w h)).
Proof.
  rewrite holeSeeds_candidates, foldl_seedIf. by rewrite app_nil_r.
Qed.

Lemma seedCandidates_range (w h c : Z) :
  0 < w -> 0 < h -> c ∈ seedCandidates w h -> 0 <= c < w * h.
Proof.
  intros Hw Hh Hc. unfold seedCandidates in Hc.
  apply elem_of_app in Hc as [Hc|Hc]; apply list_elem_of_In, in_flat_map in Hc;
    destruct Hc as (x & Hx & Hc); apply list_elem_of_In, elem_of_indices in Hx;
    simpl in Hc; destruct Hc as [<-|[<-|[]]]; nia.
Qed.

Lemma elem_of_holeSeedList (mask : gmap Z Z) (w h j : Z) :
  j ∈ holeSeedList mask w h
  <-> j ∈ seedCandidates w h /\ mask !! j = Some 0.
Proof.
  unfold holeSeedList.
  rewrite !list_elem_of_In, filter_In, is_val_true. reflexivity.
Qed.

Lemma holeSeeds_marked (mask : gmap Z Z) (w h j : Z) :
  0 < w -> 0 < h ->
  marked (fst (holeSeeds mask w h)) j <-> j ∈ holeSeedList mask w h.
Proof.
  intros Hw Hh. rewrite holeSeeds_eq. cbn [fst]. unfold marked.
  rewrite foldl_mark_lookup, newArray_lookup.
  destruct (decide (j ∈ holeSeedList mask w h)) as [Hin|Hnin].
  - rewrite decide_True; [done|].
    apply elem_of_holeSeedList in Hin as [Hc _].
    by apply seedCandidates_range.
  - destruct (decide (0 <= j < w * h)); split; done.
Qed.

Lemma holeSeeds_lookup_is_Some (mask : gmap Z Z) (w h j : Z) :
  is_Some (fst (holeSeeds mask w h) !! j) <-> 0 <= j < w * h.
Proof.
  rewrite holeSeeds_eq. cbn [fst].
  rewrite foldl_mark_lookup, newArray_lookup.
  destruct (decide (j ∈ holeSeedList mask w h)),
    (decide (0 <= j < w * h)); simpl; split; eauto; try done;
    intros [? ?]; done.
Qed.

Lemma elem_of_rev (l : list Z) (x : Z) : x ∈ rev l <-> x ∈ l.
Proof. rewrite !list_elem_of_In. symmetry. apply in_rev. Qed.

Lemma binary_foldl_mark (l : list Z) : forall a,
  binary a -> binary (foldl (fun v i => aset v i 1) a l).
Proof.
  induction l as [|x l IH]; intros a Ha; simpl; [done|].
  apply IH. by apply binary_aset.
Qed.

Lemma holeSeeds_Inv (mask : gmap Z Z) (w h len : Z) :
  0 < w -> 0 < h ->
  Inv w (holeEdge mask w len) (fst (holeSeeds mask w h))
    (fst (holeSeeds mask w h)) (snd (holeSeeds mask w h)).
Proof.
  intros Hw Hh. apply Inv_init.
  - rewrite holeSeeds_eq. apply binary_foldl_mark, binary_newArray.
  - intros j Hj. apply holeSeeds_marked; [done..|].
    rewrite holeSeeds_eq in Hj. cbn [snd] in Hj.
    rewrite elem_of_rev in Hj. exact Hj.
  - intros j Hj. apply holeSeeds_marked in Hj; [|done..].
    rewrite holeSeeds_eq. cbn [snd].
    rewrite elem_of_rev. exact Hj.
Qed.

Lemma holeVisited_correct (mask : gmap Z Z) (w h : Z) :
  0 < w -> 0 < h ->
  floodRuns (holeTest mask w (alength mask)) w
    (fst (holeSeeds mask w h)) (snd (holeSeeds mask w h))
    (holeVisited mask w h) /\
  Inv w (holeEdge mask w (alength mask)) (fst (holeSeeds mask w h))
    (holeVisited mask w h) [].
Proof.
  intros Hw Hh. unfold holeVisited. cbv zeta.
  eapply floodLoop_correct.
  - apply holeTest_spec.
  - by apply holeSeeds_Inv.
  - apply floodFuel_enough.
Qed.

(** What [fillInternalHoles] leaves in each cell. *)
Lemma fillInternalHoles_lookup (mask : gmap Z Z) (w h j : Z) :
  fillInternalHoles mask w h !! j
  = if decide (0 <= j < alength mask) then
      if is_val (mask !! j) 0 && is_val (holeVisited mask w h !! j) 0
      then Some 1 else mask !! j
    else mask !! j.
Proof.
  unfold fillInternalHoles. cbv zeta.
  rewrite (forUpTo_pointwise _ _
    (fun i o => if is_val o 0 && is_val (holeVisited mask w h !! i) 0
                then (fun _ => 1) <$> o else o)).
  - destruct (decide (0 <= j < alength mask)); [|done].
    destruct (is_val (mask !! j) 0) eqn:Hz; [|done].
    apply is_val_true in Hz. rewrite Hz. reflexivity.
  - intros acc i k Hi.
    destruct (is_val (acc !! i) 0 && is_val (holeVisited mask w h !! i) 0).
    + apply aset_lookup.
    + by destruct (decide (i = k)) as [->|].
Qed.

Lemma fillInternalHoles_same_dom (mask : gmap Z Z) (w h j : Z) :
  is_Some (fillInternalHoles mask w h !! j) <-> is_Some (mask !! j).
Proof.
  rewrite fillInternalHoles_lookup.
  destruct (decide (0 <= j < alength mask)); [|done].
  destruct (is_val (mask !! j) 0) eqn:Hz; simpl; [|done].
  destruct (is_val (holeVisited mask w h !! j) 0); [|done].
  apply is_val_true in Hz. rewrite Hz. split; eauto.
Qed.

Lemma same_dom_alength (a b : gmap Z Z) :
  (forall j, is_Some (a !! j) <-> is_Some (b !! j)) -> alength a = alength b.
Proof.
  intros H. unfold alength. f_equal. rewrite <- !size_dom. f_equal.
  apply set_eq. intros j. rewrite !elem_of_dom. apply H.
Qed.

Lemma alength_fillInternalHoles (mask : gmap Z Z) (w h : Z) :
  alength (fillInternalHoles mask w h) = alength mask.
Proof. apply same_dom_alength, fillInternalHoles_same_dom. Qed.

(** A cell is background after the fill iff it was background and the
    border fill reached it (or it lies outside the visited map). *)
Lemma fillInternalHoles_zero (mask : gmap Z Z) (w h j : Z) :
  fillInternalHoles mask w h !! j = Some 0
  <-> mask !! j = Some 0 /\
      ~ (0 <= j < alength mask /\ holeVisited mask w h !! j = Some 0).
Proof.
  rewrite fillInternalHoles_lookup.
  destruct (decide (0 <= j < alength mask)) as [Hr|Hr].
  - destruct (is_val (mask !! j) 0) eqn:Hz; simpl.
    + apply is_val_true in Hz.
      destruct (is_val (holeVisited mask w h !! j) 0) eqn:Hv.
      * apply is_val_true in Hv. split; [done|]. intros [_ H]. by destruct H.
      * apply is_val_false in Hv. split; [|done]. intros _. split; [done|].
        by intros [_ ?].
    + apply is_val_false in Hz. split; [done|]. by intros [? _].
  - split; [|by intros [? _]]. intros H. split; [done|]. by intros [? _].
Qed.

Section HoleIdempotent.
Variable mask : gmap Z Z.
Variables w h : Z.
Hypothesis Hw : 0 < w.
Hypothesis Hh : 0 < h.

Let mask' := fillInternalHoles mask w h.
Let V := holeVisited mask w h.
Let len := alength mask.
Let v0 := fst (holeSeeds mask w h).

Lemma hole_marked_kept (j : Z) : marked V j -> mask' !! j = mask !! j.
Proof.
  intros Hm. unfold mask'. rewrite fillInternalHoles_lookup.
  destruct (decide (0 <= j < alength mask)); [|done].
  fold V. unfold marked in Hm. rewrite Hm. simpl.
  by rewrite andb_false_r.
Qed.

Lemma hole_seed_marked (j : Z) : j ∈ holeSeedList mask w h -> marked V j.
Proof.
  intros Hj. destruct (holeVisited_correct mask w h Hw Hh) as [_ HI].
  apply (inv_mono _ _ _ _ _ HI). by apply holeSeeds_marked.
Qed.

Lemma hole_seedList_stable : holeSeedList mask' w h = holeSeedList mask w h.
Proof.
  unfold holeSeedList. apply filter_ext_in. intros c Hc.
  destruct (is_val (mask !! c) 0) eqn:Hz.
  - apply is_val_true in Hz. apply is_val_true.
    rewrite hole_marked_kept; [done|].
    apply hole_seed_marked, elem_of_holeSeedList. split; [|done].
    by apply list_elem_of_In.
  - apply is_val_false in Hz. apply is_val_false. intros H.
    apply fillInternalHoles_zero in H as [H _]. done.
Qed.

Lemma hole_seeds_stable : holeSeeds mask' w h = holeSeeds mask w h.
Proof. by rewrite !holeSeeds_eq, hole_seedList_stable. Qed.

Lemma hole_Reach_stable (j : Z) :
  Reach w (holeEdge mask' w len) v0 j <-> Reach w (holeEdge mask w len) v0 j.
Proof.
  destruct (holeVisited_correct mask w h Hw Hh) as [_ HI].
  pose proof (Inv_done _ _ _ _ HI) as Hdone. fold V len v0 in Hdone.
  split.
  - induction 1 as [c Hc|i n Hi IH Hn Hst Hs]; [by apply Reach_seed|].
    apply (Reach_step _ _ _ i n); [done|done| |done].
    unfold holeEdge in *. rewrite !andb_true_iff in *.
    destruct Hst as [[[H0 H1] Hz] Hg]. repeat split; try done.
    apply is_val_true in Hz. apply is_val_true.
    by apply fillInternalHoles_zero in Hz as [Hz _].
  - induction 1 as [c Hc|i n Hi IH Hn Hst Hs]; [by apply Reach_seed|].
    assert (Hmn : marked V n).
    { apply Hdone. by apply (Reach_step _ _ _ i n). }
    apply (Reach_step _ _ _ i n); [done|done| |done].
    unfold holeEdge in *. rewrite !andb_true_iff in *.
    destruct Hst as [[[H0 H1] Hz] Hg]. repeat split; try done.
    apply is_val_true in Hz. apply is_val_true.
    by rewrite hole_marked_kept.
Qed.

Lemma hole_visited_stable : holeVisited mask' w h = V.
Proof.
  destruct (holeVisited_correct mask w h Hw Hh) as [_ HI].
  destruct (holeVisited_correct mask' w h Hw Hh) as [_ HI'].
  assert (Hlen : alength mask' = len) by apply alength_fillInternalHoles.
  rewrite hole_seeds_stable, Hlen in HI'.
  fold v0 in HI'. fold V len v0 in HI.
  apply map_eq. intros j.
  pose proof (Inv_done _ _ _ _ HI j) as Hd.
  pose proof (Inv_done _ _ _ _ HI' j) as Hd'.
  rewrite hole_Reach_stable in Hd'.
  pose proof (inv_dom _ _ _ _ _ HI j) as Hdom.
  pose proof (inv_dom _ _ _ _ _ HI' j) as Hdom'.
  destruct (V !! j) as [x|] eqn:Hx.
  - destruct (proj2 Hdom') as [y Hy]; [apply Hdom; eauto|].
    rewrite Hy. f_equal.
    destruct (inv_bin _ _ _ _ _ HI j x Hx) as [->| ->],
      (inv_bin _ _ _ _ _ HI' j y Hy) as [->| ->]; try done.
    + assert (marked V j) by (apply Hd, Hd'; done). unfold marked in *. congruence.
    + assert (marked (holeVisited mask' w h) j) by (apply Hd', Hd; done).
      unfold marked in *. congruence.
  - apply eq_None_not_Some. intros Hs. apply Hdom', Hdom in Hs as [? ?]. done.
Qed.

Lemma hole_idempotent : fillInternalHoles mask' w h = mask'.
Proof.
  apply map_eq. intros j. rewrite fillInternalHoles_lookup.
  destruct (decide (0 <= j < alength mask')) as [Hr|Hr]; [|done].
  rewrite hole_visited_stable.
  destruct (is_val (mask' !! j) 0) eqn:Hz; simpl; [|done].
  destruct (is_val (V !! j) 0) eqn:Hv; [|done].
  exfalso. apply is_val_true in Hz, Hv.
  apply fillInternalHoles_zero in Hz as [_ Hz]. apply Hz. split; [|done].
  unfold mask' in Hr. by rewrite alength_fillInternalHoles in Hr.
Qed.
End HoleIdempotent.

(** C6.  [fillInternalHoles] is idempotent: filling the holes of a mask
    that has already been filled changes nothing. *)
Theorem fillInternalHoles_idempotent (mask : gmap Z Z) (w h : Z) :
  0 < w -> 0 < h ->
  fillInternalHoles (fillInternalHoles mask w h) w h
  = fillInternalHoles mask w h.
Proof. intros Hw Hh. by apply hole_idempotent. Qed.

Lemma fillInternalHoles_idempotent_witness :
  fillInternalHoles (fillInternalHoles ringMask 4 3) 4 3
  = fillInternalHoles ringMask 4 3.
Proof. apply (fillInternalHoles_idempotent ringMask 4 3); lia. Defined.

(** ** The mask that reaches the crop *)

Lemma pushNeighbor_same_dom test i st n j :
  is_Some (fst (pushNeighbor test i st n) !! j) <-> is_Some (fst st !! j).
Proof.
  unfold pushNeighbor. destruct (test (fst st) i n); [|done].
  simpl. apply aset_is_Some.
Qed.

Lemma floodStep_same_dom test w i v s j :
  is_Some (fst (floodStep test w i v s) !! j) <-> is_Some (v !! j).
Proof.
  unfold floodStep. generalize (neighbors w i) as ns.
  change v with (fst (v, s)) at 2. generalize (v, s) as st.
  intros st ns. revert st. induction ns as [|n ns IH]; intros st; simpl; [done|].
  rewrite IH. apply pushNeighbor_same_dom.
Qed.

Lemma floodLoop_same_dom test w : forall fuel v s j,
  is_Some (floodLoop test w fuel v s !! j) <-> is_Some (v !! j).
Proof.
  induction fuel as [|fuel IH]; intros v s j; simpl; [done|].
  destruct s as [|i rest]; [done|].
  rewrite IH. apply floodStep_same_dom.
Qed.

Lemma foldl_mark_same_dom (l : list Z) (a : gmap Z Z) (j : Z) :
  is_Some (foldl (fun v i => aset v i 1) a l !! j) <-> is_Some (a !! j).
Proof.
  rewrite foldl_mark_lookup. destruct (decide (j ∈ l)); [|done].
  apply fmap_is_Some.
Qed.

Lemma generateFloodFillMask_keys (d : gmap Z Z) (w h : Z) (t : Q) (j : Z) :
  is_Some (generateFloodFillMask d w h t !! j) <-> 0 <= j < w * h.
Proof.
  rewrite generateFloodFillMask_lookup, fmap_is_Some.
  unfold floodFillVisited. cbv zeta.
  rewrite floodLoop_same_dom, foldl_mark_same_dom. apply newArray_is_Some.
Qed.

Lemma generateGlobalMask_lookup (d : gmap Z Z) (w h : Z) (t : Q) (j : Z) :
  generateGlobalMask d w h t !! j
  = if decide (0 <= j < w * h)
    then Some (if leq_num (sqDist d (bgColor d) j) (threshSq t) then 0 else 1)
    else None.
Proof.
  unfold generateGlobalMask.
  rewrite (forUpTo_pointwise _ _
    (fun i o => (fun _ => if leq_num (sqDist d (bgColor d) i) (threshSq t)
                          then 0 else 1) <$> o)).
  - rewrite newArray_lookup. by destruct (decide (0 <= j < w * h)).
  - intros acc i k _. apply aset_lookup.
Qed.

Lemma generateGlobalMask_keys (d : gmap Z Z) (w h : Z) (t : Q) (j : Z) :
  is_Some (generateGlobalMask d w h t !! j) <-> 0 <= j < w * h.
Proof.
  rewrite generateGlobalMask_lookup. apply is_Some_if_decide.
Qed.

(** One sweep of [erode] clears cells of [next] and does nothing else. *)
Lemma erodeSweep_lookup (w len : Z) (curr next : gmap Z Z) (j : Z) :
  erodeSweep w len curr next !! j = next !! j \/
  (erodeSweep w len curr next !! j = Some 0 /\ is_Some (next !! j)).
Proof.
  unfold erodeSweep.
  pose proof (forUpTo_ind
    (fun _ st => st !! j = next !! j \/ (st !! j = Some 0 /\ is_Some (next !! j)))
    len
    (fun next i =>
       if is_val (curr !! i) 1 then
         if existsb
              (fun idx => (0 <=? idx) && (idx <? len) && is_val (curr !! idx) 0)
              [i - 1; i + 1; i - w; i + w]
         then aset next i 0
         else next
       else next) next) as Hind.
  cbv beta in Hind. apply Hind; clear Hind; [by left|].
  intros k st _ IH.
  destruct (is_val (curr !! k) 1); [|done].
  destruct (existsb _ _); [|done].
  rewrite aset_lookup. destruct (decide (k = j)) as [->|]; [|done].
  destruct IH as [IH|[IH Hs]].
  - rewrite IH. destruct (next !! j) eqn:Hn; [right|by left].
    split; [done|eauto].
  - right. by rewrite IH.
Qed.

Lemma erode_lookup (mask : gmap Z Z) (w h passes : Z) (j : Z) :
  erode mask w h passes !! j = mask !! j \/
  (erode mask w h passes !! j = Some 0 /\ is_Some (mask !! j)).
Proof.
  unfold erode. destruct (passes <=? 0); [by left|]. cbv zeta.
  pose proof (forUpTo_ind
    (fun _ (st : gmap Z Z * gmap Z Z) =>
       snd st = fst st /\
       (fst st !! j = mask !! j \/ (fst st !! j = Some 0 /\ is_Some (mask !! j))))
    passes
    (fun '(curr, next) _ =>
       let next' := erodeSweep w (alength mask) curr next in (next', next'))
    (mask, mask)) as Hind.
  cbv beta in Hind. apply Hind; clear Hind; [by split; [|left]|].
  intros k [curr next] _ [Heq IH]. simpl in Heq, IH. subst next. simpl.
  split; [done|].
  destruct (erodeSweep_lookup w (alength mask) curr curr j) as [Hs|[Hs Hsome]].
  - by rewrite Hs.
  - right. split; [done|]. destruct IH as [IH|[IH ?]]; [by rewrite <- IH|done].
Qed.

Lemma erode_keys (mask : gmap Z Z) (w h passes : Z) (j : Z) :
  is_Some (erode mask w h passes !! j) <-> is_Some (mask !! j).
Proof.
  destruct (erode_lookup mask w h passes j) as [H|[H Hs]].
  - by rewrite H.
  - rewrite H. split; eauto.
Qed.

Lemma erode_foreground (mask : gmap Z Z) (w h passes : Z) (j : Z) :
  erode mask w h passes !! j = Some 1 -> mask !! j = Some 1.
Proof.
  destruct (erode_lookup mask w h passes j) as [H|[H Hs]];
    rewrite H; [done|intros [=]].
Qed.

Lemma fillInternalHoles_background (mask : gmap Z Z) (w h : Z) (j : Z) :
  fillInternalHoles mask w h !! j = Some 1 ->
  mask !! j = Some 1 \/ mask !! j = Some 0.
Proof.
  rewrite fillInternalHoles_lookup.
  destruct (decide (0 <= j < alength mask)); [|by left].
  destruct (is_val (mask !! j) 0) eqn:Hz; simpl; [|by left].
  apply is_val_true in Hz. by right.
Qed.

Lemma repairedMask_keys (img : ImageData) (config : ExtractionConfig) (j : Z) :
  is_Some (repairedMask img config !! j) <-> 0 <= j < width img * height img.
Proof.
  unfold repairedMask. cbv zeta.
  set (m0 := match method config with
             | luma_key => generateGlobalMask _ _ _ _
             | _ => generateFloodFillMask _ _ _ _
             end).
  assert (H0 : is_Some (m0 !! j) <-> 0 <= j < width img * height img).
  { unfold m0. destruct (method config);
      [apply generateFloodFillMask_keys | apply generateGlobalMask_keys
      | apply generateFloodFillMask_keys]. }
  set (m1 := if smartFill config then fillInternalHoles m0 _ _ else m0).
  assert (H1 : is_Some (m1 !! j) <-> 0 <= j < width img * height img).
  { unfold m1. destruct (smartFill config); [|done].
    by rewrite fillInternalHoles_same_dom. }
  destruct (0 <? erosion config); [|done].
  by rewrite erode_keys.
Qed.

Lemma is_array_repairedMask (img : ImageData) (config : ExtractionConfig) :
  0 < width img -> 0 < height img ->
  is_array (repairedMask img config) (width img * height img).
Proof. intros Hw Hh. split; [nia|]. apply repairedMask_keys. Qed.

(** ** The crop bounds *)

Lemma cropBounds_inv (mask : gmap Z Z) (w h : Z) :
  0 < w -> alength mask <= w * h ->
  boundsInv mask w h (alength mask) (cropBounds mask w h).
Proof.
  intros Hw Hlen. unfold cropBounds.
  replace (alength mask) with (Z.max 0 (alength mask)) at 1
    by (unfold alength; lia).
  pose proof (forUpTo_ind (boundsInv mask w h) (alength mask)
    (fun b i =>
       if is_val (mask !! i) 1 then
         let x := Z.rem i w in
         let y := i / w in
         mkBounds (if x <? minX b then x else minX b)
                  (if maxX b <? x then x else maxX b)
                  (if y <? minY b then y else minY b)
                  (if maxY b <? y then y else maxY b)
                  true
       else b)
    (mkBounds w 0 h 0 false)) as Hind.
  apply Hind; clear Hind.
  - unfold boundsInv. simpl. split; [done|]. intros i Hi. lia.
  - intros k b Hk IH.
    destruct (is_val (mask !! k) 1) eqn:Hfg.
    + apply is_val_true in Hfg. cbv zeta.
      rewrite Z.rem_mod_nonneg by lia.
      assert (Hx : 0 <= k mod w < w) by (apply Z.mod_pos_bound; lia).
      assert (Hy : 0 <= k / w < h).
      { split; [apply Z.div_pos; lia|]. apply Z.div_lt_upper_bound; nia. }
      unfold boundsInv in *. cbn [hasPixels minX maxX minY maxY].
      destruct (hasPixels b) eqn:Hp.
      * destruct IH as (Hcov & (i1 & Hi1 & E1) & (i2 & Hi2 & E2)
                          & (i3 & Hi3 & E3) & (i4 & Hi4 & E4)).
        split; [|split; [|split; [|split]]].
        -- intros i Hi Hm.
           destruct (decide (i = k)) as [->|Hne].
           ++ destruct (Z.ltb_spec (k mod w) (minX b)),
                (Z.ltb_spec (maxX b) (k mod w)),
                (Z.ltb_spec (k / w) (minY b)),
                (Z.ltb_spec (maxY b) (k / w)); lia.
           ++ destruct (Hcov i) as [? ?]; [lia|done|].
              destruct (Z.ltb_spec (k mod w) (minX b)),
                (Z.ltb_spec (maxX b) (k mod w)),
                (Z.ltb_spec (k / w) (minY b)),
                (Z.ltb_spec (maxY b) (k / w)); lia.
        -- destruct (Z.ltb_spec (k mod w) (minX b)).
           ++ exists k. split; [split; [lia|done]|done].
           ++ exists i1. split; [split; [lia|tauto]|done].
        -- destruct (Z.ltb_spec (maxX b) (k mod w)).
           ++ exists k. split; [split; [lia|done]|done].
           ++ exists i2. split; [split; [lia|tauto]|done].
        -- destruct (Z.ltb_spec (k / w) (minY b)).
           ++ exists k. split; [split; [lia|done]|done].
           ++ exists i3. split; [split; [lia|tauto]|done].
        -- destruct (Z.ltb_spec (maxY b) (k / w)).
           ++ exists k. split; [split; [lia|done]|done].
           ++ exists i4. split; [split; [lia|tauto]|done].
      * destruct IH as [-> Hnone]. cbn [minX maxX minY maxY].
        assert (E1 : (if k mod w <? w then k mod w else w) = k mod w)
          by (destruct (Z.ltb_spec (k mod w) w); lia).
        assert (E2 : (if 0 <? k mod w then k mod w else 0) = k mod w)
          by (destruct (Z.ltb_spec 0 (k mod w)); lia).
        assert (E3 : (if k / w <? h then k / w else h) = k / w)
          by (destruct (Z.ltb_spec (k / w) h); lia).
        assert (E4 : (if 0 <? k / w then k / w else 0) = k / w)
          by (destruct (Z.ltb_spec 0 (k / w)); lia).
        rewrite E1, E2, E3, E4.
        split; [|repeat split; exists k; (split; [split; [lia|done]|done])].
        intros i Hi Hm. destruct (decide (i = k)) as [->|Hne]; [lia|].
        exfalso. apply (Hnone i); [lia|done].
    + apply is_val_false in Hfg. unfold boundsInv in *.
      destruct (hasPixels b).
      * destruct IH as (Hcov & (i1 & Hi1 & E1) & (i2 & Hi2 & E2)
                          & (i3 & Hi3 & E3) & (i4 & Hi4 & E4)).
        split; [|split; [|split; [|split]]].
        -- intros i Hi Hm. apply Hcov; [|done].
           destruct (decide (i = k)) as [->|]; [done|lia].
        -- exists i1. split; [split; [lia|tauto]|done].
        -- exists i2. split; [split; [lia|tauto]|done].
        -- exists i3. split; [split; [lia|tauto]|done].
        -- exists i4. split; [split; [lia|tauto]|done].
      * destruct IH as [-> Hnone]. split; [done|].
        intros i Hi. destruct (decide (i = k)) as [->|]; [done|].
        apply Hnone. lia.
Qed.

(** [hasPixels] tells whether the mask has a foreground pixel, and when
    it has one the four bounds are the tight bounding box. *)
Lemma cropBounds_spec (mask : gmap Z Z) (w h : Z) :
  0 < w -> alength mask <= w * h ->
  (hasPixels (cropBounds mask w h) = false /\
   forall i, ~ foreground mask i) \/
  (hasPixels (cropBounds mask w h) = true /\
   tightBox mask w (minX (cropBounds mask w h)) (maxX (cropBounds mask w h))
     (minY (cropBounds mask w h)) (maxY (cropBounds mask w h))).
Proof.
  intros Hw Hlen. pose proof (cropBounds_inv mask w h Hw Hlen) as H.
  unfold boundsInv in H. destruct (hasPixels (cropBounds mask w h)).
  - right. split; [done|].
    destruct H as (Hcov & H1 & H2 & H3 & H4).
    split; try done. intros i [Hi Hm]. by apply Hcov.
  - left. split; [done|]. destruct H as [_ Hnone].
    intros i [Hi Hm]. by apply (Hnone i).
Qed.

Lemma cropBounds_no_foreground (mask : gmap Z Z) (w h : Z) :
  (forall i, mask !! i <> Some 1) ->
  cropBounds mask w h = mkBounds w 0 h 0 false.
Proof.
  intros Hnone. unfold cropBounds, forUpTo.
  generalize (indices (alength mask)) as l.
  generalize (mkBounds w 0 h 0 false) as b.
  intros b l. revert b. induction l as [|i l IH]; intros b; simpl; [done|].
  assert (Hi : is_val (mask !! i) 1 = false) by (apply is_val_false, Hnone).
  rewrite Hi. apply IH.
Qed.

(** ** Uniform images *)

(** When every move between cells of the buffer that passes the wrap guard
    is allowed, the fill that starts in cell 0 reaches every cell: down
    the first column, then along the row. *)
Lemma Reach_all (w h : Z) (step : Z -> Z -> bool) (v0 : gmap Z Z) :
  0 < w -> 0 < h ->
  marked v0 0 ->
  (forall j, 0 <= j < w * h -> is_Some (v0 !! j)) ->
  (forall i n, 0 <= i < w * h -> 0 <= n < w * h ->
     Z.abs (n mod w - i mod w) <= 1 -> step i n = true) ->
  forall j, 0 <= j < w * h -> Reach w step v0 j.
Proof.
  intros Hw Hh H0 Hkeys Hstep.
  assert (Hcol : forall y : nat, Z.of_nat y < h -> Reach w step v0 (Z.of_nat y * w)).
  { induction y as [|y IH]; intros Hy.
    - simpl. by apply Reach_seed.
    - apply (Reach_step _ _ _ (Z.of_nat y * w)).
      + apply IH. lia.
      + unfold neighbors. rewrite !elem_of_cons. right. right. right. left. lia.
      + apply Hstep; [nia|nia|].
        rewrite !Z_mod_mult. simpl. lia.
      + apply Hkeys. nia. }
  assert (Hrow : forall (y : nat) (x : nat), Z.of_nat y < h -> Z.of_nat x < w ->
            Reach w step v0 (Z.of_nat y * w + Z.of_nat x)).
  { intros y. induction x as [|x IH]; intros Hy Hx.
    - rewrite Z.add_0_r. by apply Hcol.
    - apply (Reach_step _ _ _ (Z.of_nat y * w + Z.of_nat x)).
      + apply IH; lia.
      + unfold neighbors. rewrite !elem_of_cons. right. left. lia.
      + apply Hstep; [nia|nia|].
        rewrite !(Z.add_comm (Z.of_nat y * w)), !Z_mod_plus_full.
        rewrite !Z.mod_small by lia. lia.
      + apply Hkeys. nia. }
  intros j Hj.
  assert (Hq : 0 <= j / w < h).
  { split; [apply Z.div_pos; lia|]. apply Z.div_lt_upper_bound; nia. }
  assert (Hr : 0 <= j mod w < w) by (apply Z.mod_pos_bound; lia).
  pose proof (Hrow (Z.to_nat (j / w)) (Z.to_nat (j mod w))) as H.
  rewrite !Z2Nat.id in H by lia.
  replace (j / w * w + j mod w) with j in H
    by (rewrite (Z.div_mod j w) at 1 by lia; lia).
  apply H; lia.
Qed.

Lemma threshSq_nonneg (t : Q) : (0 <= threshSq t)%Q.
Proof.
  unfold threshSq. cbv zeta. set (x := (t * 4.42)%Q).
  unfold Qle, Qmult. simpl. nia.
Qed.

Lemma uniform_within (img : ImageData) (t : Q) (n : Z) :
  0 < width img -> 0 < height img ->
  uniformImage img -> 0 <= n < width img * height img ->
  leq_num (sqDist (data img) (bgColor (data img)) n) (threshSq t) = true.
Proof.
  intros Hw Hh (r & g & b & Hu) Hn.
  destruct (Hu n Hn) as (Hr & Hg & Hb).
  destruct (Hu 0) as (Hr0 & Hg0 & Hb0); [nia|].
  unfold sqDist, bgColor.
  change (0 * 4) with 0 in Hr0. change (0 * 4 + 1) with 1 in Hg0.
  change (0 * 4 + 2) with 2 in Hb0.
  rewrite Hr, Hg, Hb, Hr0, Hg0, Hb0. unfold leq_num.
  replace ((r - r) ^ 2 + (g - g) ^ 2 + (b - b) ^ 2) with 0 by lia.
  apply Qle_bool_iff, threshSq_nonneg.
Qed.

Lemma uniform_flood_mask (img : ImageData) (t : Q) (j : Z) :
  0 < width img -> 0 < height img -> uniformImage img ->
  generateFloodFillMask (data img) (width img) (height img) t !! j <> Some 1.
Proof.
  intros Hw Hh Hu.
  destruct (floodFillVisited_spec (data img) (width img) (height img) t Hw Hh)
    as [[_ Hkeys] Hv].
  rewrite generateFloodFillMask_lookup.
  destruct (decide (0 <= j < width img * height img)) as [Hj|Hj].
  - destruct (Hv j Hj) as [H1 _]. rewrite H1; [done|].
    apply (Reach_all (width img) (height img)); try done.
    + apply cornerMarks_marked; [done..|].
      unfold cornerStack. apply elem_of_cons. auto.
    + intros k Hk. rewrite cornerMarks_lookup, decide_True by done. eauto.
    + intros i n Hi Hn Hg. apply floodFillEdge_true; [lia..|].
      split; [done|]. split; [done|].
      apply leq_num_withinTolerance. by apply uniform_within.
  - assert (Hnone : floodFillVisited (data img) (width img) (height img) t !! j
                    = None).
    { apply eq_None_not_Some. by rewrite Hkeys. }
    by rewrite Hnone.
Qed.

Lemma uniform_global_mask (img : ImageData) (t : Q) (j : Z) :
  0 < width img -> 0 < height img -> uniformImage img ->
  generateGlobalMask (data img) (width img) (height img) t !! j <> Some 1.
Proof.
  intros Hw Hh Hu. rewrite generateGlobalMask_lookup.
  destruct (decide (0 <= j < width img * height img)) as [Hj|Hj]; [|done].
  by rewrite uniform_within.
Qed.

(** A mask that is all background has no hole to fill. *)
Lemma fillInternalHoles_no_foreground (mask : gmap Z Z) (w h : Z) :
  0 < w -> 0 < h -> is_array mask (w * h) ->
  (forall j, mask !! j <> Some 1) ->
  (forall j, 0 <= j < w * h -> mask !! j = Some 0) ->
  forall j, fillInternalHoles mask w h !! j <> Some 1.
Proof.
  intros Hw Hh Ha Hnone Hzero j.
  rewrite fillInternalHoles_lookup.
  rewrite (is_array_alength _ _ Ha).
  destruct (decide (0 <= j < w * h)) as [Hj|Hj]; [|done].
  destruct (holeVisited_correct mask w h Hw Hh) as [_ HI].
  rewrite (is_array_alength _ _ Ha) in HI.
  assert (Hm : marked (holeVisited mask w h) j).
  { apply (Inv_done _ _ _ _ HI). apply (Reach_all w h); try done.
    - apply holeSeeds_marked; [done..|]. apply elem_of_holeSeedList.
      split; [|apply Hzero; nia].
      unfold seedCandidates. apply elem_of_app. left.
      apply list_elem_of_In, in_flat_map. exists 0. split.
      + apply list_elem_of_In, elem_of_indices. lia.
      + simpl. by left.
    - intros k Hk. by apply holeSeeds_lookup_is_Some.
    - intros i n Hi Hn Hg. unfold holeEdge.
      rewrite !andb_true_iff, Z.leb_le, Z.ltb_lt, is_val_true.
      rewrite !Z.rem_mod_nonneg by lia.
      repeat split; [lia|lia|by apply Hzero|]. by apply Z.leb_le. }
  unfold marked in Hm. rewrite Hm. simpl. rewrite andb_false_r. done.
Qed.

Lemma uniform_repairedMask (img : ImageData) (config : ExtractionConfig) :
  0 < width img -> 0 < height img -> uniformImage img ->
  forall j, repairedMask img config !! j <> Some 1.
Proof.
  intros Hw Hh Hu j. unfold repairedMask. cbv zeta.
  set (m0 := match method config with
             | luma_key => generateGlobalMask _ _ _ _
             | _ => generateFloodFillMask _ _ _ _
             end).
  assert (H0 : forall k, m0 !! k <> Some 1).
  { intros k. unfold m0. destruct (method config);
      [by apply uniform_flood_mask | by apply uniform_global_mask
      | by apply uniform_flood_mask]. }
  assert (K0 : forall k, is_Some (m0 !! k) <-> 0 <= k < width img * height img).
  { intros k. unfold m0. destruct (method config);
      [apply generateFloodFillMask_keys | apply generateGlobalMask_keys
      | apply generateFloodFillMask_keys]. }
  assert (B0 : forall k x, m0 !! k = Some x -> x = 0 \/ x = 1).
  { intros k x. unfold m0. destruct (method config).
    - rewrite generateFloodFillMask_lookup.
      destruct (floodFillVisited _ _ _ _ !! k) as [v|]; simpl; [|done].
      intros [= <-]. destruct (v =? 1); auto.
    - rewrite generateGlobalMask_lookup. destruct (decide _); [|done].
      intros [= <-]. destruct (leq_num _ _); auto.
    - rewrite generateFloodFillMask_lookup.
      destruct (floodFillVisited _ _ _ _ !! k) as [v|]; simpl; [|done].
      intros [= <-]. destruct (v =? 1); auto. }
  set (m1 := if smartFill config then fillInternalHoles m0 _ _ else m0).
  assert (H1 : forall k, m1 !! k <> Some 1).
  { intros k. unfold m1. destruct (smartFill config); [|done].
    apply fillInternalHoles_no_foreground; try done.
    - split; [nia|done].
    - intros i Hi. destruct (proj2 (K0 i) Hi) as [x Hx].
      destruct (B0 i x Hx) as [->| ->]; [done|]. by destruct (H0 i). }
  destruct (0 <? erosion config); [|done].
  intros He. apply erode_foreground in He. by destruct (H1 j).
Qed.

(** ** The composite *)

Lemma foldl_asetp_same_dom (l : list (Z * Z)) : forall (a : gmap Z Z) (j : Z),
  is_Some (foldl asetp a l !! j) <-> is_Some (a !! j).
Proof.
  induction l as [|kv l IH]; intros a j; simpl; [done|].
  rewrite IH. apply aset_is_Some.
Qed.

(** When every write to [k] in the list stores [v], the cell holds [v]
    afterwards (if the array has the cell at all). *)
Lemma foldl_asetp_lookup (l : list (Z * Z)) (a : gmap Z Z) (k v : Z) :
  (k, v) ∈ l ->
  (forall v', (k, v') ∈ l -> v' = v) ->
  foldl asetp a l !! k = (fun _ => v) <$> a !! k.
Proof.
  induction l as [|[k0 v0] l IH] using rev_ind; intros Hin Hsame.
  - by apply elem_of_nil in Hin.
  - rewrite foldl_snoc. unfold asetp at 1. simpl. rewrite aset_lookup.
    destruct (decide (k0 = k)) as [->|Hne].
    + assert (v0 = v) as ->.
      { apply Hsame, elem_of_app. right. apply elem_of_cons. auto. }
      destruct (foldl asetp a l !! k) as [x|] eqn:Hx.
      * destruct (proj1 (foldl_asetp_same_dom l a k)) as [y Hy]; [eauto|].
        by rewrite Hy.
      * destruct (a !! k) as [y|] eqn:Hy; [|done].
        destruct (proj2 (foldl_asetp_same_dom l a k)) as [z Hz]; [eauto|].
        congruence.
    + apply IH.
      * apply elem_of_app in Hin as [Hin|Hin]; [done|].
        apply elem_of_cons in Hin as [[= ? ?]|Hin]; [congruence|].
        by apply elem_of_nil in Hin.
      * intros v' Hv'. apply Hsame, elem_of_app. by left.
Qed.

Lemma forBox_foldl {St : Type} (sw sh : Z) (body : St -> Z -> Z -> St) (s : St) :
  forBox sw sh body s
  = foldl (fun s (c : Z * Z) => body s c.1 c.2) s (boxCells sw sh).
Proof.
  unfold forBox, forUpTo, boxCells. rewrite foldl_flat_map.
  apply foldl_ext_in. intros st y _.
  generalize (indices sw) as l. intros l. revert st.
  induction l as [|x l IH]; intros st; simpl; [done|]. apply IH.
Qed.

Lemma elem_of_boxCells (sw sh x y : Z) :
  (x, y) ∈ boxCells sw sh <-> 0 <= x < sw /\ 0 <= y < sh.
Proof.
  unfold boxCells. rewrite list_elem_of_In, in_flat_map. split.
  - intros (y' & Hy & Hin). apply in_map_iff in Hin as (x' & [= <- <-] & Hx).
    apply list_elem_of_In, elem_of_indices in Hy, Hx. done.
  - intros [Hx Hy]. exists y. split.
    + by apply list_elem_of_In, elem_of_indices.
    + apply in_map_iff. exists x. split; [done|].
      by apply list_elem_of_In, elem_of_indices.
Qed.

Lemma compositeSubject_writes (src mask : gmap Z Z) (w : Z) (b : Bounds)
  (sw sh finalSize offX offY : Z) (canvas : gmap Z Z) :
  compositeSubject src mask w b sw sh finalSize offX offY canvas
  = foldl asetp canvas
      (flat_map (subjectWrites src mask w b finalSize offX offY)
         (boxCells sw sh)).
Proof.
  unfold compositeSubject. rewrite forBox_foldl, foldl_flat_map.
  apply foldl_ext_in. intros st [x y] _.
  unfold subjectWrites. simpl.
  by destruct (is_val (mask !! ((minY b + y) * w + (minX b + x))) 1).
Qed.

Lemma compositeSubject_same_dom (src mask : gmap Z Z) (w : Z) (b : Bounds)
  (sw sh finalSize offX offY : Z) (canvas : gmap Z Z) (j : Z) :
  is_Some (compositeSubject src mask w b sw sh finalSize offX offY canvas !! j)
  <-> is_Some (canvas !! j).
Proof. rewrite compositeSubject_writes. apply foldl_asetp_same_dom. Qed.

Lemma borderLayer_keys (mask : gmap Z Z) (w : Z) (b : Bounds)
  (sw sh finalSize offX offY bw j : Z) :
  is_Some (borderLayer mask w b sw sh finalSize offX offY bw !! j)
  <-> 0 <= j < finalSize * finalSize * 4.
Proof.
  unfold borderLayer. cbv zeta.
  rewrite forUpTo_same_dom; [apply newArray_is_Some|].
  intros acc i k. destruct (is_val _ 1); [|done].
  by rewrite !aset_is_Some.
Qed.

(** Distinct cells and channels of the box are written at distinct keys. *)
Lemma dst_injective (fs offX offY x y c x' y' c' : Z) :
  0 <= offX + x < fs -> 0 <= offX + x' < fs ->
  0 <= c < 4 -> 0 <= c' < 4 ->
  ((offY + y) * fs + (offX + x)) * 4 + c
  = ((offY + y') * fs + (offX + x')) * 4 + c' ->
  x = x' /\ y = y' /\ c = c'.
Proof.
  intros Hx Hx' Hc Hc' H.
  assert (Hc2 : c = c') by lia. subst c'.
  assert (HA : (offY + y) * fs + (offX + x) = (offY + y') * fs + (offX + x'))
    by lia.
  assert (Hy : y = y').
  { destruct (Z.lt_trichotomy y y') as [Hlt|[Heq|Hgt]]; [exfalso|done|exfalso]; nia. }
  subst y'. split; [lia|done].
Qed.

(** A foreground cell [(x, y)] of the crop box shows the source pixel at
    its centred position, fully opaque. *)
Lemma compositeSubject_pixel (src mask : gmap Z Z) (w : Z) (b : Bounds)
  (sw sh fs offX offY : Z) (canvas : gmap Z Z) (x y : Z) :
  is_array canvas (fs * fs * 4) ->
  0 <= offX -> offX + sw <= fs -> 0 <= offY -> offY + sh <= fs ->
  0 <= x < sw -> 0 <= y < sh ->
  mask !! ((minY b + y) * w + (minX b + x)) = Some 1 ->
  let out := compositeSubject src mask w b sw sh fs offX offY canvas in
  let srcIdx := (minY b + y) * w + (minX b + x) in
  let dst := ((offY + y) * fs + (offX + x)) * 4 in
  out !! dst = Some (default 0 (src !! (srcIdx * 4))) /\
  out !! (dst + 1) = Some (default 0 (src !! (srcIdx * 4 + 1))) /\
  out !! (dst + 2) = Some (default 0 (src !! (srcIdx * 4 + 2))) /\
  out !! (dst + 3) = Some 255.
Proof.
  intros [_ Hkeys] HoX HoX' HoY HoY' Hx Hy Hfg. cbv zeta.
  rewrite compositeSubject_writes.
  set (W := flat_map (subjectWrites src mask w b fs offX offY) (boxCells sw sh)).
  set (dst := ((offY + y) * fs + (offX + x)) * 4).
  set (srcIdx := (minY b + y) * w + (minX b + x)).
  assert (Hmine : subjectWrites src mask w b fs offX offY (x, y)
            = [(dst, default 0 (src !! (srcIdx * 4)));
               (dst + 1, default 0 (src !! (srcIdx * 4 + 1)));
               (dst + 2, default 0 (src !! (srcIdx * 4 + 2)));
               (dst + 3, 255)]).
  { unfold subjectWrites. simpl. fold srcIdx dst.
    apply is_val_true in Hfg. fold srcIdx in Hfg. by rewrite Hfg. }
  assert (Hin : forall kv, kv ∈ subjectWrites src mask w b fs offX offY (x, y) ->
            kv ∈ W).
  { intros kv Hkv. unfold W. apply list_elem_of_In, in_flat_map.
    exists (x, y). split; [|by apply list_elem_of_In].
    by apply list_elem_of_In, elem_of_boxCells. }
  assert (Huniq : forall c v v', 0 <= c < 4 ->
            (dst + c, v) ∈ subjectWrites src mask w b fs offX offY (x, y) ->
            (dst + c, v') ∈ W -> v' = v).
  { intros c v v' Hc Hv Hv'. unfold W in Hv'.
    apply list_elem_of_In, in_flat_map in Hv' as ([x' y'] & Hcell & Hv').
    apply list_elem_of_In, elem_of_boxCells in Hcell as [Hx' Hy'].
    assert (Hxy : x' = x /\ y' = y).
    { unfold subjectWrites in Hv'. simpl in Hv'.
      destruct (is_val _ 1); simpl in Hv'; [|done].
      unfold dst in Hv'.
      destruct Hv' as [Hv'|[Hv'|[Hv'|[Hv'|[]]]]]; injection Hv' as Hk _.
      - destruct (dst_injective fs offX offY x' y' 0 x y c) as (?&?&?); lia.
      - destruct (dst_injective fs offX offY x' y' 1 x y c) as (?&?&?); lia.
      - destruct (dst_injective fs offX offY x' y' 2 x y c) as (?&?&?); lia.
      - destruct (dst_injective fs offX offY x' y' 3 x y c) as (?&?&?); lia. }
    destruct Hxy as [-> ->]. rewrite Hmine in Hv, Hv'.
    apply list_elem_of_In in Hv. simpl in Hv, Hv'.
    destruct Hv as [Hv|[Hv|[Hv|[Hv|[]]]]];
      destruct Hv' as [Hv'|[Hv'|[Hv'|[Hv'|[]]]]];
      injection Hv as Hk1 Hv1; injection Hv' as Hk2 Hv2; subst; try done; lia. }
  assert (Hcell : forall c v, 0 <= c < 4 ->
            (dst + c, v) ∈ subjectWrites src mask w b fs offX offY (x, y) ->
            foldl asetp canvas W !! (dst + c) = Some v).
  { intros c v Hc Hv.
    rewrite (foldl_asetp_lookup W canvas (dst + c) v).
    - destruct (proj2 (Hkeys (dst + c))) as [z Hz]; [unfold dst; nia|].
      by rewrite Hz.
    - by apply Hin.
    - intros v' Hv'. by apply (Huniq c v v'). }
  rewrite Hmine in Hcell.
  repeat split.
  - rewrite <- (Z.add_0_r dst) at 1. apply Hcell; [lia|].
    rewrite Z.add_0_r. apply elem_of_cons. auto.
  - apply Hcell; [lia|]. rewrite !elem_of_cons. auto.
  - apply Hcell; [lia|]. rewrite !elem_of_cons. auto.
  - apply Hcell; [lia|]. rewrite !elem_of_cons. auto 6.
Qed.

(** What a successful [processSticker] returns, spelled out. *)
Lemma processSticker_Ok (img : ImageData) (config : ExtractionConfig)
  (out : ProcessedSprite (gmap Z Z)) :
  processSticker img config = Ok out ->
  let mask := repairedMask img config in
  let b := cropBounds mask (width img) (height img) in
  let sw := maxX b - minX b + 1 in
  let sh := maxY b - minY b + 1 in
  let fs := finalSizeOf sw sh (borderWidth config) in
  let offX := (fs - sw) / 2 in
  let offY := (fs - sh) / 2 in
  hasPixels b = true /\
  sprite_width out = inject_Z fs /\ sprite_height out = inject_Z fs /\
  exists canvas, is_array canvas (Z.max 0 (fs * fs * 4)) /\
    sprite_blob out
    = compositeSubject (data img) mask (width img) b sw sh fs offX offY canvas.
Proof.
  unfold processSticker. cbv zeta.
  destruct (hasPixels (cropBounds _ _ _)) eqn:Hp; simpl; [|done].
  intros [= <-]. simpl. repeat split.
  match goal with
  | |- context [compositeSubject _ _ _ _ _ _ _ _ _ ?c] => exists c
  end.
  split; [|done]. split; [lia|]. intros j.
  destruct (0 <? borderWidth config).
  - rewrite borderLayer_keys. lia.
  - rewrite newArray_is_Some. lia.
Qed.

Lemma processSticker_Err (img : ImageData) (config : ExtractionConfig) :
  (forall i, repairedMask img config !! i <> Some 1) ->
  processSticker img config = Err "No subject detected. Try 'Loose' tolerance?".
Proof.
  intros Hnone. unfold processSticker. cbv zeta.
  by rewrite (cropBounds_no_foreground _ _ _ Hnone).
Qed.

(** ** [processSticker] *)

Lemma processSticker_Ok_box (img : ImageData) (config : ExtractionConfig)
  (out : ProcessedSprite (gmap Z Z)) :
  0 < width img ->
  processSticker img config = Ok out ->
  let mask := repairedMask img config in
  let b := cropBounds mask (width img) (height img) in
  0 < height img /\
  tightBox mask (width img) (minX b) (maxX b) (minY b) (maxY b) /\
  1 <= maxX b - minX b + 1 /\ 1 <= maxY b - minY b + 1.
Proof.
  intros Hw Hok. cbv zeta.
  assert (Hh : 0 < height img).
  { destruct (decide (0 < height img)) as [|Hh]; [done|]. exfalso.
    rewrite processSticker_Err in Hok; [done|].
    intros i Hi.
    assert (Hs : is_Some (repairedMask img config !! i)) by (rewrite Hi; eauto).
    apply repairedMask_keys in Hs. nia. }
  split; [done|].
  destruct (processSticker_Ok img config out Hok) as (Hp & _).
  pose proof (is_array_repairedMask img config Hw Hh) as Ha.
  destruct (cropBounds_spec (repairedMask img config) (width img) (height img))
    as [[Hf _]|[_ Hbox]]; [done|rewrite (is_array_alength _ _ Ha); lia| |].
  - congruence.
  - split; [done|].
    destruct (box_left _ _ _ _ _ _ Hbox) as (i & Hi & Ei).
    destruct (box_covers _ _ _ _ _ _ Hbox i Hi) as [? ?]. lia.
Qed.

Lemma finalSizeOf_bounds (sw sh bw : Z) :
  1 <= sw -> 1 <= sh ->
  let fs := finalSizeOf sw sh bw in
  fs = Z.max sw sh + 2 * Z.max (bw + 20) 40 /\ 81 <= fs /\
  0 <= (fs - sw) / 2 /\ (fs - sw) / 2 + sw <= fs /\
  0 <= (fs - sh) / 2 /\ (fs - sh) / 2 + sh <= fs.
Proof.
  intros Hsw Hsh. cbv zeta. unfold finalSizeOf. cbv zeta.
  repeat split; try lia; Z.div_mod_to_equations; lia.
Qed.

(** C2.  When the mask that reaches the crop has no foreground pixel,
    [processSticker] throws; this is the case for every uniform
    single-colour buffer, whatever the configuration; and a sprite that
    [processSticker] does return is never empty: its side is positive and
    its pixel buffer has a positive length. *)
Theorem processSticker_empty_foreground (img : ImageData)
  (config : ExtractionConfig) :
  0 < width img -> 0 < height img ->
  ((forall i, repairedMask img config !! i <> Some 1) ->
   processSticker img config
   = Err "No subject detected. Try 'Loose' tolerance?") /\
  (uniformImage img ->
   processSticker img config
   = Err "No subject detected. Try 'Loose' tolerance?") /\
  (forall out, processSticker img config = Ok out ->
     (0 < sprite_width out)%Q /\ (0 < sprite_height out)%Q /\
     exists n, 0 < n /\ is_array (sprite_blob out) n).
Proof.
  intros Hw Hh. split; [apply processSticker_Err|]. split.
  - intros Hu. apply processSticker_Err. by apply uniform_repairedMask.
  - intros out Hok.
    destruct (processSticker_Ok_box img config out Hw Hok)
      as (_ & _ & Hsw & Hsh).
    destruct (processSticker_Ok img config out Hok)
      as (_ & Hwd & Hht & canvas & Hcanvas & Hblob).
    destruct (finalSizeOf_bounds _ _ (borderWidth config) Hsw Hsh)
      as (_ & Hfs & _).
    rewrite Hwd, Hht.
    assert (Hpos : (0 < inject_Z (finalSizeOf
                (maxX (cropBounds (repairedMask img config) (width img) (height img))
                 - minX (cropBounds (repairedMask img config) (width img) (height img)) + 1)
                (maxY (cropBounds (repairedMask img config) (width img) (height img))
                 - minY (cropBounds (repairedMask img config) (width img) (height img)) + 1)
                (borderWidth config)))%Q).
    { change 0%Q with (inject_Z 0). rewrite <- Zlt_Qlt. lia. }
    split; [done|]. split; [done|].
    eexists. split; [|eapply is_array_same_dom; [|exact Hcanvas]].
    + nia.
    + intros j. rewrite Hblob. apply compositeSubject_same_dom.
Qed.

Lemma processSticker_empty_foreground_witness :
  ((forall i, repairedMask blackImage plainConfig !! i <> Some 1) ->
   processSticker blackImage plainConfig
   = Err "No subject detected. Try 'Loose' tolerance?") /\
  (uniformImage blackImage ->
   processSticker blackImage plainConfig
   = Err "No subject detected. Try 'Loose' tolerance?") /\
  (forall out, processSticker blackImage plainConfig = Ok out ->
     (0 < sprite_width out)%Q /\ (0 < sprite_height out)%Q /\
     exists n, 0 < n /\ is_array (sprite_blob out) n).
Proof.
  apply (processSticker_empty_foreground blackImage plainConfig);
    reflexivity.
Defined.

(** C7.  A sprite returned by [processSticker] is square, of side
    [finalSize = max(boxW, boxH) + 2 * max(borderWidth + 20, 40)] where
    [boxW] and [boxH] are the width and height of the tight bounding box
    of the foreground of the repaired mask; and every foreground pixel of
    the mask appears, with its source colour and fully opaque, at its
    position in the box shifted by [offX = floor((finalSize - boxW) / 2)]
    and [offY = floor((finalSize - boxH) / 2)]. *)
Theorem processSticker_square_output (img : ImageData)
  (config : ExtractionConfig) (out : ProcessedSprite (gmap Z Z)) :
  0 < width img ->
  processSticker img config = Ok out ->
  exists x0 x1 y0 y1,
    tightBox (repairedMask img config) (width img) x0 x1 y0 y1 /\
    let boxW := x1 - x0 + 1 in
    let boxH := y1 - y0 + 1 in
    let finalSize := Z.max boxW boxH + 2 * Z.max (borderWidth config + 20) 40 in
    let offX := (finalSize - boxW) / 2 in
    let offY := (finalSize - boxH) / 2 in
    sprite_width out = inject_Z finalSize /\
    sprite_height out = inject_Z finalSize /\
    is_array (sprite_blob out) (finalSize * finalSize * 4) /\
    forall i, foreground (repairedMask img config) i ->
      let dst := ((offY + (i / width img - y0)) * finalSize
                  + (offX + (i mod width img - x0))) * 4 in
      sprite_blob out !! dst = Some (default 0 (data img !! (i * 4))) /\
      sprite_blob out !! (dst + 1) = Some (default 0 (data img !! (i * 4 + 1))) /\
      sprite_blob out !! (dst + 2) = Some (default 0 (data img !! (i * 4 + 2))) /\
      sprite_blob out !! (dst + 3) = Some 255.
Proof.
  intros Hw Hok.
  destruct (processSticker_Ok_box img config out Hw Hok)
    as (Hh & Hbox & Hsw & Hsh).
  destruct (processSticker_Ok img config out Hok)
    as (_ & Hwd & Hht & canvas & Hcanvas & Hblob).
  set (mask := repairedMask img config) in *.
  set (b := cropBounds mask (width img) (height img)) in *.
  destruct (finalSizeOf_bounds _ _ (borderWidth config) Hsw Hsh)
    as (Efs & Hfs & HoX & HoX' & HoY & HoY').
  exists (minX b), (maxX b), (minY b), (maxY b). split; [done|]. cbv zeta.
  rewrite <- Efs.
  set (sw := maxX b - minX b + 1) in *. set (sh := maxY b - minY b + 1) in *.
  set (fs := finalSizeOf sw sh (borderWidth config)) in *.
  assert (Hcanvas' : is_array canvas (fs * fs * 4)).
  { replace (fs * fs * 4) with (Z.max 0 (fs * fs * 4)) by nia. done. }
  split; [done|]. split; [done|]. split.
  { eapply is_array_same_dom; [|exact Hcanvas'].
    intros j. rewrite Hblob. apply compositeSubject_same_dom. }
  intros i Hi.
  destruct (box_covers _ _ _ _ _ _ Hbox i Hi) as [Hx Hy].
  destruct Hi as [Hir Him].
  assert (Esrc : (minY b + (i / width img - minY b)) * width img
                 + (minX b + (i mod width img - minX b)) = i).
  { rewrite (Z.div_mod i (width img)) at 3 by lia. lia. }
  pose proof (compositeSubject_pixel (data img) mask (width img) b sw sh fs
    ((fs - sw) / 2) ((fs - sh) / 2) canvas
    (i mod width img - minX b) (i / width img - minY b)
    Hcanvas' HoX HoX' HoY HoY') as Hpix.
  cbv zeta in Hpix. rewrite Esrc in Hpix. rewrite Hblob.
  apply Hpix; [unfold sw; lia|unfold sh; lia|done].
Qed.

Lemma processSticker_square_output_witness :
  exists out, processSticker dotImage plainConfig = Ok out /\
  exists x0 x1 y0 y1,
    tightBox (repairedMask dotImage plainConfig) (width dotImage) x0 x1 y0 y1 /\
    let boxW := x1 - x0 + 1 in
    let boxH := y1 - y0 + 1 in
    let finalSize :=
      Z.max boxW boxH + 2 * Z.max (borderWidth plainConfig + 20) 40 in
    let offX := (finalSize - boxW) / 2 in
    let offY := (finalSize - boxH) / 2 in
    sprite_width out = inject_Z finalSize /\
    sprite_height out = inject_Z finalSize /\
    is_array (sprite_blob out) (finalSize * finalSize * 4) /\
    forall i, foreground (repairedMask dotImage plainConfig) i ->
      let dst := ((offY + (i / width dotImage - y0)) * finalSize
                  + (offX + (i mod width dotImage - x0))) * 4 in
      sprite_blob out !! dst = Some (default 0 (data dotImage !! (i * 4))) /\
      sprite_blob out !! (dst + 1)
      = Some (default 0 (data dotImage !! (i * 4 + 1))) /\
      sprite_blob out !! (dst + 2)
      = Some (default 0 (data dotImage !! (i * 4 + 2))) /\
      sprite_blob out !! (dst + 3) = Some 255.
Proof.
  assert (Hok : isOk (processSticker dotImage plainConfig) = true)
    by (vm_compute; reflexivity).
  destruct (processSticker dotImage plainConfig) as [out|msg] eqn:E;
    [|discriminate Hok].
  exists out. split; [reflexivity|].
  apply (processSticker_square_output dotImage plainConfig out);
    [reflexivity|exact E].
Defined.

(** ** [generateFloodFillMask] and the grid *)

(** On [leakImage] the fill of the specification stays in the two top
    cells, the cell below the top right one, and the two bottom cells. *)
Lemma leakImage_GridFill (j : Z) :
  GridFill (withinTolerance leakImage 10) 2 5 j -> j ∈ [0; 1; 3; 8; 9].
Proof.
  induction 1 as [c Hc|i n Hi IH Hn Hbg].
  - rewrite !elem_of_cons, elem_of_nil in Hc.
    rewrite !elem_of_cons, elem_of_nil. lia.
  - apply leq_num_withinTolerance in Hbg.
    rewrite !elem_of_cons, elem_of_nil in IH.
    apply list_elem_of_In in Hn.
    destruct IH as [->|[->|[->|[->|[->|[]]]]]]; simpl in Hn;
      repeat (destruct Hn as [<-|Hn]); try (by destruct Hn);
      first [ by (rewrite !elem_of_cons, elem_of_nil; lia)
            | by (vm_compute in Hbg) ].
Qed.

(** C1, at the 2x5 image [B B / W B / B W / W W / B B] with tolerance 10.
    The cell (0,2), index 4, is black, and the three cells next to it in
    the grid, (1,2), (0,1) and (0,3), are white and come out foreground;
    no fill that moves only up, down, left and right reaches it.  Yet
    [generateFloodFillMask] marks it background: it is reached from cell
    (1,1), index 3, by the index step [i+1], which the guard
    [|dx| <= 1] lets through on a grid of width 2. *)
Theorem generateFloodFillMask_leaks_at_width_two :
  generateFloodFillMask leakImage 2 5 10
  = of_list [0; 0; 1; 0; 0; 1; 1; 1; 0; 0] /\
  gridNeighbors 2 5 4 = [5; 2; 6] /\
  (forall n, n ∈ gridNeighbors 2 5 4 ->
     ~ withinTolerance leakImage 10 n /\
     generateFloodFillMask leakImage 2 5 10 !! n = Some 1) /\
  withinTolerance leakImage 10 4 /\
  generateFloodFillMask leakImage 2 5 10 !! 4 = Some 0 /\
  ~ GridFill (withinTolerance leakImage 10) 2 5 4 /\
  IndexFill (withinTolerance leakImage 10) 2 5 4.
Proof.
  assert (Hbg : forall n, withinTolerance leakImage 10 n <->
            leq_num (sqDist leakImage (bgColor leakImage) n) (threshSq 10) = true).
  { intros n. symmetry. apply leq_num_withinTolerance. }
  split; [vm_compute; reflexivity|].
  split; [reflexivity|].
  split; [|split; [|split; [|split]]].
  - intros n Hn. change (gridNeighbors 2 5 4) with [5; 2; 6] in Hn.
    rewrite !elem_of_cons, elem_of_nil in Hn.
    destruct Hn as [->|[->|[->|[]]]];
      (split; [rewrite Hbg; vm_compute; discriminate|vm_compute; reflexivity]).
  - rewrite Hbg. vm_compute. reflexivity.
  - vm_compute. reflexivity.
  - intros H. apply leakImage_GridFill in H.
    rewrite !elem_of_cons, elem_of_nil in H. lia.
  - apply (IndexFill_step _ _ _ 3 4).
    + apply (IndexFill_step _ _ _ 1 3).
      * apply IndexFill_corner. rewrite !elem_of_cons. right. left. reflexivity.
      * rewrite !elem_of_cons. right. right. right. left. reflexivity.
      * lia.
      * vm_compute. discriminate.
      * rewrite Hbg. vm_compute. reflexivity.
    + rewrite !elem_of_cons. right. left. reflexivity.
    + lia.
    + vm_compute. discriminate.
    + rewrite Hbg. vm_compute. reflexivity.
Qed.

(** ** The wrap guard *)

Lemma mod_pred (w i : Z) :
  0 < w ->
  (i - 1) mod w = if decide (i mod w = 0) then w - 1 else i mod w - 1.
Proof.
  intros Hw. pose proof (Z.div_mod i w ltac:(lia)) as Hi.
  pose proof (Z.mod_pos_bound i w Hw) as Hm.
  destruct (decide (i mod w = 0)) as [H0|H0]; symmetry.
  - apply (Z.mod_unique _ _ (i / w - 1)); lia.
  - apply (Z.mod_unique _ _ (i / w)); lia.
Qed.

Lemma mod_succ (w i : Z) :
  0 < w ->
  (i + 1) mod w = if decide (i mod w = w - 1) then 0 else i mod w + 1.
Proof.
  intros Hw. pose proof (Z.div_mod i w ltac:(lia)) as Hi.
  pose proof (Z.mod_pos_bound i w Hw) as Hm.
  destruct (decide (i mod w = w - 1)) as [H0|H0]; symmetry.
  - apply (Z.mod_unique _ _ (i / w + 1)); lia.
  - apply (Z.mod_unique _ _ (i / w)); lia.
Qed.

Lemma mod_sub_width (w i : Z) : 0 < w -> (i - w) mod w = i mod w.
Proof.
  intros Hw. replace (i - w) with (i + (-1) * w) by lia.
  apply Z_mod_plus_full.
Qed.

Lemma mod_add_width (w i : Z) : 0 < w -> (i + w) mod w = i mod w.
Proof.
  intros Hw. replace (i + w) with (i + 1 * w) by lia.
  apply Z_mod_plus_full.
Qed.

(** On a grid of width 1 or of width 3 and more, the neighbours [i-1],
    [i+1], [i-w], [i+w] that lie in the buffer and pass the wrap guard
    [|n % w - i % w| <= 1] are exactly the cells left, right, above and
    below [i] in the grid. *)
Lemma wrap_guard_grid (w h i n : Z) :
  w = 1 \/ 3 <= w -> 0 < h -> 0 <= i < w * h ->
  (n ∈ neighbors w i /\ 0 <= n < w * h /\
   Z.abs (Z.rem n w - Z.rem i w) <= 1)
  <-> n ∈ gridNeighbors w h i.
Proof.
  intros Hw3 Hh Hi.
  assert (Hw : 0 < w) by lia.
  pose proof (Z.div_mod i w ltac:(lia)) as Ei.
  pose proof (Z.mod_pos_bound i w Hw) as Hm.
  assert (Hq : 0 <= i / w < h).
  { split; [apply Z.div_pos; lia|]. apply Z.div_lt_upper_bound; nia. }
  assert (Hup : 0 < i / w <-> w <= i) by nia.
  assert (Hdown : i / w < h - 1 <-> i + w < w * h) by nia.
  assert (Hrow0 : 0 <= w * (i / w)) by nia.
  assert (Hrow1 : w * (i / w) + w <= w * h) by nia.
  pose proof (mod_pred w i Hw) as Hp.
  pose proof (mod_succ w i Hw) as Hs.
  pose proof (mod_sub_width w i Hw) as Hsw.
  pose proof (mod_add_width w i Hw) as Haw.
  unfold neighbors, gridNeighbors. cbv zeta.
  rewrite !elem_of_app.
  destruct (Z.ltb_spec 0 (i mod w)), (Z.ltb_spec (i mod w) (w - 1)),
    (Z.ltb_spec 0 (i / w)), (Z.ltb_spec (i / w) (h - 1));
    rewrite ?elem_of_cons, ?elem_of_nil;
    destruct (decide (i mod w = 0)), (decide (i mod w = w - 1));
    (split;
     [ intros (Hn & Hr & Hg); rewrite !Z.rem_mod_nonneg in Hg by lia;
       destruct Hn as [->|[->|[->|[->|[]]]]];
       rewrite ?Hp, ?Hs, ?Hsw, ?Haw in Hg; lia
     | intros Hn;
       assert (Hr : 0 <= n < w * h) by lia;
       rewrite !Z.rem_mod_nonneg by lia;
       split; [lia|]; split; [done|];
       assert (Hc : n = i - 1 \/ n = i + 1 \/ n = i - w \/ n = i + w) by lia;
       destruct Hc as [->|[->|[->| ->]]];
       rewrite ?Hp, ?Hs, ?Hsw, ?Haw; lia ]).
Qed.

Lemma GridFill_in_range (bg : Z -> Prop) (w h i : Z) :
  0 < w -> 0 < h -> GridFill bg w h i -> 0 <= i < w * h.
Proof.
  intros Hw Hh. induction 1 as [c Hc|i n Hi IH Hn Hbg].
  - apply corner_in_range; [done..|]. by rewrite cornerStack_eq.
  - pose proof (Z.div_mod i w ltac:(lia)) as Ei.
    pose proof (Z.mod_pos_bound i w Hw) as Hm.
    assert (Hq : 0 <= i / w < h).
    { split; [apply Z.div_pos; lia|]. apply Z.div_lt_upper_bound; nia. }
    assert (Hrow0 : 0 <= w * (i / w)) by nia.
    assert (Hrow1 : w * (i / w) + w <= w * h) by nia.
    assert (Hup : 0 < i / w -> w <= i) by nia.
    assert (Hdown : i / w < h - 1 -> i + w < w * h) by nia.
    unfold gridNeighbors in Hn. cbv zeta in Hn.
    rewrite !elem_of_app in Hn.
    destruct (Z.ltb_spec 0 (i mod w)), (Z.ltb_spec (i mod w) (w - 1)),
      (Z.ltb_spec 0 (i / w)), (Z.ltb_spec (i / w) (h - 1));
      rewrite ?elem_of_cons, ?elem_of_nil in Hn; lia.
Qed.

(** Off width 2 the fill of the loop and the fill of the specification
    reach the same cells. *)
Lemma IndexFill_GridFill (bg : Z -> Prop) (w h i : Z) :
  w = 1 \/ 3 <= w -> 0 < h ->
  IndexFill bg w h i <-> GridFill bg w h i.
Proof.
  intros Hw3 Hh. assert (Hw : 0 < w) by lia. split.
  - induction 1 as [c Hc|i n Hi IH Hn Hr Hg Hbg]; [by apply GridFill_corner|].
    pose proof (IndexFill_in_range bg w h i Hw Hh Hi) as Hir.
    apply (GridFill_step _ _ _ i n); [done| |done].
    apply (wrap_guard_grid w h i n Hw3 Hh Hir).
    split; [done|]. split; [done|]. by rewrite !Z.rem_mod_nonneg by lia.
  - induction 1 as [c Hc|i n Hi IH Hn Hbg]; [by apply IndexFill_corner|].
    pose proof (IndexFill_in_range bg w h i Hw Hh IH) as Hir.
    apply (wrap_guard_grid w h i n Hw3 Hh Hir) in Hn as (Hn & Hr & Hg).
    rewrite !Z.rem_mod_nonneg in Hg by lia.
    by apply (IndexFill_step _ _ _ i n).
Qed.

Lemma IndexFill_ext (bg bg' : Z -> Prop) (w h i : Z) :
  (forall n, 0 <= n < w * h -> bg n -> bg' n) ->
  IndexFill bg w h i -> IndexFill bg' w h i.
Proof.
  intros Hbg. induction 1 as [c Hc|i n Hi IH Hn Hr Hg Hb];
    [by apply IndexFill_corner|].
  apply (IndexFill_step _ _ _ i n); try done. by apply Hbg.
Qed.

Lemma globalMask_withinTolerance (d : gmap Z Z) (w h : Z) (t : Q) (n : Z) :
  0 <= n < w * h ->
  generateGlobalMask d w h t !! n = Some 0 <-> withinTolerance d t n.
Proof.
  intros Hn. rewrite generateGlobalMask_lookup, decide_True by done.
  rewrite <- leq_num_withinTolerance.
  destruct (leq_num (sqDist d (bgColor d) n) (threshSq t)); split; congruence.
Qed.

(** The cells that the loop marks are the closure of the corners. *)
Lemma flood_mask_Reach (d : gmap Z Z) (w h : Z) (t : Q) (i : Z) :
  0 < w -> 0 < h -> 0 <= i < w * h ->
  (generateFloodFillMask d w h t !! i = Some 0 <->
   Reach w (floodFillEdge d w h t) (cornerMarks w h) i) /\
  (generateFloodFillMask d w h t !! i = Some 1 <->
   ~ Reach w (floodFillEdge d w h t) (cornerMarks w h) i).
Proof.
  intros Hw Hh Hi.
  destruct (floodFillVisited_correct d w h t Hw Hh) as [_ HI].
  pose proof (Inv_done _ _ _ _ HI i) as Hdone.
  destruct (floodFillVisited_spec d w h t Hw Hh) as [[_ Hkeys] _].
  destruct (proj2 (Hkeys i) Hi) as [x Hx].
  rewrite generateFloodFillMask_lookup, Hx. simpl.
  unfold marked in Hdone. rewrite Hx in Hdone.
  destruct (inv_bin _ _ _ _ _ HI i x Hx) as [->| ->]; simpl.
  - assert (Hn : ~ Reach w (floodFillEdge d w h t) (cornerMarks w h) i).
    { intros HR. apply Hdone in HR. congruence. }
    split; split; try done.
  - assert (HR : Reach w (floodFillEdge d w h t) (cornerMarks w h) i)
      by (by apply Hdone).
    split; split; try done.
Qed.

Lemma IndexFill_global (d : gmap Z Z) (w h : Z) (t : Q) (i : Z) :
  0 < w -> 0 < h ->
  IndexFill (fun n => generateGlobalMask d w h t !! n = Some 0) w h i <->
  Reach w (floodFillEdge d w h t) (cornerMarks w h) i.
Proof.
  intros Hw Hh. rewrite <- (IndexFill_Reach d w h t i Hw Hh).
  split; apply IndexFill_ext; intros n Hn; by apply globalMask_withinTolerance.
Qed.

(** X1.  For every buffer of width and height at least 1, the mask of
    [generateFloodFillMask] is 0 exactly on the cells that the corner
    fill reaches by the index steps [i-1], [i+1], [i-w], [i+w] that stay
    in the buffer and pass the guard [|n % w - i % w| <= 1], entering only
    cells that [generateGlobalMask] classifies as background; it is 1 on
    every other cell. *)
Theorem generateFloodFillMask_index_fill (d : gmap Z Z) (w h : Z) (t : Q)
  (i : Z) :
  0 < w -> 0 < h -> 0 <= i < w * h ->
  (generateFloodFillMask d w h t !! i = Some 0 <->
   IndexFill (fun n => generateGlobalMask d w h t !! n = Some 0) w h i) /\
  (generateFloodFillMask d w h t !! i = Some 1 <->
   ~ IndexFill (fun n => generateGlobalMask d w h t !! n = Some 0) w h i).
Proof.
  intros Hw Hh Hi. rewrite (IndexFill_global d w h t i Hw Hh).
  by apply flood_mask_Reach.
Qed.

Lemma generateFloodFillMask_index_fill_witness :
  (generateFloodFillMask leakImage 2 5 10 !! 3 = Some 0 <->
   IndexFill (fun n => generateGlobalMask leakImage 2 5 10 !! n = Some 0) 2 5 3) /\
  (generateFloodFillMask leakImage 2 5 10 !! 3 = Some 1 <->
   ~ IndexFill (fun n => generateGlobalMask leakImage 2 5 10 !! n = Some 0) 2 5 3).
Proof. apply (generateFloodFillMask_index_fill leakImage 2 5 10 3); lia. Defined.

(** X2.  On a grid of width 1 or of width 3 and more the flood fill is
    the 4-connected one: the mask of [generateFloodFillMask] is 0 exactly
    on the cells connected to a corner position through cells directly
    left, right, above or below one another that [generateGlobalMask]
    classifies as background, and 1 on every other cell. *)
Theorem generateFloodFillMask_grid_fill (d : gmap Z Z) (w h : Z) (t : Q)
  (i : Z) :
  w = 1 \/ 3 <= w -> 0 < h -> 0 <= i < w * h ->
  (generateFloodFillMask d w h t !! i = Some 0 <->
   GridFill (fun n => generateGlobalMask d w h t !! n = Some 0) w h i) /\
  (generateFloodFillMask d w h t !! i = Some 1 <->
   ~ GridFill (fun n => generateGlobalMask d w h t !! n = Some 0) w h i).
Proof.
  intros Hw3 Hh Hi. assert (Hw : 0 < w) by lia.
  rewrite <- (IndexFill_GridFill _ w h i Hw3 Hh).
  rewrite (IndexFill_global d w h t i Hw Hh).
  by apply flood_mask_Reach.
Qed.

Lemma generateFloodFillMask_grid_fill_witness :
  (generateFloodFillMask (data dotImage) 3 3 10 !! 1 = Some 0 <->
   GridFill (fun n => generateGlobalMask (data dotImage) 3 3 10 !! n = Some 0)
     3 3 1) /\
  (generateFloodFillMask (data dotImage) 3 3 10 !! 1 = Some 1 <->
   ~ GridFill (fun n => generateGlobalMask (data dotImage) 3 3 10 !! n = Some 0)
       3 3 1).
Proof.
  apply (generateFloodFillMask_grid_fill (data dotImage) 3 3 10 1); lia.
Defined.

(** ** Further properties of the mask generators *)

(** X3.  [generateGlobalMask] classifies every pixel on its own: the mask
    has the cells [0 .. w*h-1], each 0 or 1; the value of cell [i] depends
    on the colour of pixel [i] and of the pixel at (0,0) only; and a pixel
    of the colour of the pixel at (0,0) is background at every tolerance.
    No connectivity is involved. *)
Theorem generateGlobalMask_pointwise (d d' : gmap Z Z) (w h : Z) (t : Q)
  (i : Z) :
  0 <= i < w * h ->
  (forall j, is_Some (generateGlobalMask d w h t !! j) <-> 0 <= j < w * h) /\
  (generateGlobalMask d w h t !! i = Some 0 \/
   generateGlobalMask d w h t !! i = Some 1) /\
  ((forall c, 0 <= c < 3 ->
      d !! c = d' !! c /\ d !! (i * 4 + c) = d' !! (i * 4 + c)) ->
   generateGlobalMask d w h t !! i = generateGlobalMask d' w h t !! i) /\
  ((forall c, 0 <= c < 3 ->
      is_Some (d !! c) /\ d !! (i * 4 + c) = d !! c) ->
   generateGlobalMask d w h t !! i = Some 0).
Proof.
  intros Hi. split; [apply generateGlobalMask_keys|].
  rewrite !generateGlobalMask_lookup, !decide_True by done.
  split; [|split].
  - destruct (leq_num _ _); auto.
  - intros Hsame.
    destruct (Hsame 0 ltac:(lia)) as [H0 Hi0].
    destruct (Hsame 1 ltac:(lia)) as [H1 Hi1].
    destruct (Hsame 2 ltac:(lia)) as [H2 Hi2].
    rewrite Z.add_0_r in Hi0.
    unfold sqDist, bgColor. by rewrite H0, H1, H2, Hi0, Hi1, Hi2.
  - intros Hsame.
    destruct (Hsame 0 ltac:(lia)) as [[r Hr] Hi0].
    destruct (Hsame 1 ltac:(lia)) as [[g Hg] Hi1].
    destruct (Hsame 2 ltac:(lia)) as [[b Hb] Hi2].
    rewrite Z.add_0_r in Hi0.
    unfold sqDist, bgColor. rewrite Hi0, Hi1, Hi2, Hr, Hg, Hb.
    unfold leq_num.
    replace ((r - r) ^ 2 + (g - g) ^ 2 + (b - b) ^ 2) with 0 by lia.
    assert (Hle : Qle_bool (inject_Z 0) (threshSq t) = true)
      by apply Qle_bool_iff, threshSq_nonneg.
    by rewrite Hle.
Qed.

Lemma generateGlobalMask_pointwise_witness :
  (forall j, is_Some (generateGlobalMask checkerImage 2 2 10 !! j)
             <-> 0 <= j < 2 * 2) /\
  (generateGlobalMask checkerImage 2 2 10 !! 3 = Some 0 \/
   generateGlobalMask checkerImage 2 2 10 !! 3 = Some 1) /\
  ((forall c, 0 <= c < 3 ->
      checkerImage !! c = checkerImage !! c /\
      checkerImage !! (3 * 4 + c) = checkerImage !! (3 * 4 + c)) ->
   generateGlobalMask checkerImage 2 2 10 !! 3
   = generateGlobalMask checkerImage 2 2 10 !! 3) /\
  ((forall c, 0 <= c < 3 ->
      is_Some (checkerImage !! c) /\
      checkerImage !! (3 * 4 + c) = checkerImage !! c) ->
   generateGlobalMask checkerImage 2 2 10 !! 3 = Some 0).
Proof.
  apply (generateGlobalMask_pointwise checkerImage checkerImage 2 2 10 3). lia.
Defined.

(** X4.  Away from the four corners the flood fill is a restriction of the
    global key: a pixel that [generateFloodFillMask] marks background is
    background in [generateGlobalMask] too. *)
Theorem flood_background_is_global_background (d : gmap Z Z) (w h : Z)
  (t : Q) (i : Z) :
  0 < w -> 0 < h ->
  i ∉ cornerStack w h ->
  generateFloodFillMask d w h t !! i = Some 0 ->
  generateGlobalMask d w h t !! i = Some 0.
Proof.
  intros Hw Hh Hcorner Hm.
  assert (Hi : 0 <= i < w * h).
  { apply (proj1 (generateFloodFillMask_keys d w h t i)). rewrite Hm. eauto. }
  destruct (floodFillVisited_correct d w h t Hw Hh) as [_ HI].
  rewrite generateFloodFillMask_lookup in Hm.
  destruct (floodFillVisited d w h t !! i) as [v|] eqn:Hv; [|done].
  simpl in Hm. destruct (Z.eqb_spec v 1) as [->|]; [|done].
  assert (HR : IndexFill (withinTolerance d t) w h i).
  { apply IndexFill_Reach; [done..|]. by apply (Inv_done _ _ _ _ HI). }
  destruct HR as [c Hc|j n _ _ _ _ Hwt].
  - exfalso. apply Hcorner. by rewrite cornerStack_eq.
  - rewrite generateGlobalMask_lookup, decide_True by done.
    apply leq_num_withinTolerance in Hwt. by rewrite Hwt.
Qed.

Lemma flood_background_is_global_background_witness :
  generateGlobalMask stripImage 3 1 10 !! 1 = Some 0.
Proof.
  apply (flood_background_is_global_background stripImage 3 1 10 1);
    [lia | lia | | vm_compute; reflexivity].
  unfold cornerStack. rewrite !elem_of_cons, elem_of_nil. simpl. lia.
Defined.

(** X5.  For a uniform single-colour buffer both generators return the
    all-background mask. *)
Theorem uniform_image_mask_all_background (img : ImageData) (t : Q) (i : Z) :
  0 < width img -> 0 < height img -> uniformImage img ->
  0 <= i < width img * height img ->
  generateFloodFillMask (data img) (width img) (height img) t !! i = Some 0 /\
  generateGlobalMask (data img) (width img) (height img) t !! i = Some 0.
Proof.
  intros Hw Hh Hu Hi. split.
  - destruct (proj2 (generateFloodFillMask_keys (data img) (width img)
                       (height img) t i) Hi) as [x Hx].
    pose proof (uniform_flood_mask img t i Hw Hh Hu) as Hne.
    rewrite Hx in Hne |- *. f_equal.
    rewrite generateFloodFillMask_lookup in Hx.
    destruct (floodFillVisited _ _ _ _ !! i) as [v|]; simpl in Hx; [|done].
    injection Hx as <-. destruct (v =? 1); [done|congruence].
  - rewrite generateGlobalMask_lookup, decide_True by done.
    by rewrite uniform_within.
Qed.

Lemma blackImage_uniform : uniformImage blackImage.
Proof.
  exists 0, 0, 0. intros n Hn. change (width blackImage * height blackImage) with 4 in Hn.
  assert (Hc : n = 0 \/ n = 1 \/ n = 2 \/ n = 3) by lia.
  destruct Hc as [->|[->|[->| ->]]]; vm_compute; repeat split; reflexivity.
Qed.

Lemma uniform_image_mask_all_background_witness :
  generateFloodFillMask (data blackImage) (width blackImage) (height blackImage)
    10 !! 3 = Some 0 /\
  generateGlobalMask (data blackImage) (width blackImage) (height blackImage)
    10 !! 3 = Some 0.
Proof.
  apply (uniform_image_mask_all_background blackImage 10 3);
    [reflexivity | reflexivity | exact blackImage_uniform | simpl; lia].
Defined.

(** ** Further properties of the morphology *)

(** A sweep that turns cells holding [a] into [b]: it touches no other
    cell. *)
Lemma sweep_lookup (len a b : Z) (cond : Z -> bool) (curr next : gmap Z Z)
  (j : Z) :
  let out :=
    forUpTo len
      (fun next i =>
         if is_val (curr !! i) a then
           if cond i then aset next i b else next
         else next) next in
  out !! j = next !! j \/
  (curr !! j = Some a /\ out !! j = Some b /\ is_Some (next !! j)).
Proof.
  cbv zeta.
  pose proof (forUpTo_ind
    (fun _ st => st !! j = next !! j \/
       (curr !! j = Some a /\ st !! j = Some b /\ is_Some (next !! j)))
    len
    (fun next i =>
       if is_val (curr !! i) a then
         if cond i then aset next i b else next
       else next) next) as Hind.
  cbv beta in Hind. apply Hind; clear Hind; [by left|].
  intros k st _ IH.
  destruct (is_val (curr !! k) a) eqn:Hk; [|done].
  destruct (cond k); [|done].
  apply is_val_true in Hk.
  rewrite aset_lookup. destruct (decide (k = j)) as [->|]; [|done].
  destruct IH as [IH|(Hc & IH & Hs)].
  - rewrite IH. destruct (next !! j) eqn:Hn; [right|by left].
    split; [done|]. split; [done|eauto].
  - right. rewrite IH. done.
Qed.

(** Repeating a step that ignores the pass number. *)
Lemma forUpTo_iter {St : Type} (n : Z) (f : St -> St) (s : St) :
  forUpTo n (fun st _ => f st) s = Nat.iter (Z.to_nat n) f s.
Proof.
  unfold forUpTo, indices. generalize 0 as start.
  induction (Z.to_nat n) as [|m IH]; intros start; [done|].
  rewrite zseq_snoc, foldl_snoc, IH. reflexivity.
Qed.

Lemma passes_iter (sweep : gmap Z Z -> gmap Z Z -> gmap Z Z) (passes : Z)
  (mask : gmap Z Z) :
  fst (forUpTo passes
         (fun '(curr, next) _ => let next' := sweep curr next in (next', next'))
         (mask, mask))
  = Nat.iter (Z.to_nat passes) (fun c => sweep c c) mask.
Proof.
  assert (H : forUpTo passes
            (fun '(curr, next) _ => let next' := sweep curr next in (next', next'))
            (mask, mask)
          = (Nat.iter (Z.to_nat passes) (fun c => sweep c c) mask,
             Nat.iter (Z.to_nat passes) (fun c => sweep c c) mask)).
  { unfold forUpTo, indices. generalize 0 as start.
    induction (Z.to_nat passes) as [|m IH]; intros start; [done|].
    rewrite zseq_snoc, foldl_snoc, IH. reflexivity. }
  by rewrite H.
Qed.

(** [erode] is the sweep over the current mask, repeated [passes] times. *)
Lemma erode_iter (mask : gmap Z Z) (w h passes : Z) :
  erode mask w h passes
  = Nat.iter (Z.to_nat passes)
      (fun c => erodeSweep w (alength mask) c c) mask.
Proof.
  unfold erode. destruct (Z.leb_spec passes 0) as [Hp|Hp].
  - replace (Z.to_nat passes) with O by lia. reflexivity.
  - cbv zeta. apply (passes_iter (erodeSweep w (alength mask))).
Qed.

Lemma dilate_iter (mask : gmap Z Z) (w h passes : Z) :
  dilate mask w h passes
  = Nat.iter (Z.to_nat passes)
      (fun c => dilateSweep w (alength mask) c c) mask.
Proof.
  unfold dilate. destruct (Z.leb_spec passes 0) as [Hp|Hp].
  - replace (Z.to_nat passes) with O by lia. reflexivity.
  - cbv zeta. apply (passes_iter (dilateSweep w (alength mask))).
Qed.

Lemma iter_sweep_lookup (a b : Z) (sweep : gmap Z Z -> gmap Z Z)
  (mask : gmap Z Z) (j : Z) :
  a <> b ->
  (forall c, sweep c !! j = c !! j \/
             (c !! j = Some a /\ sweep c !! j = Some b /\ is_Some (c !! j))) ->
  forall n : nat,
    Nat.iter n sweep mask !! j = mask !! j \/
    (mask !! j = Some a /\ Nat.iter n sweep mask !! j = Some b).
Proof.
  intros Hab Hs. induction n as [|n IH]; simpl; [by left|].
  destruct (Hs (Nat.iter n sweep mask)) as [H|(Hc & H & _)].
  - by rewrite H.
  - right. split; [|done].
    destruct IH as [IH|[_ IH]]; [by rewrite <- IH|congruence].
Qed.

(** X6.  [erode] keeps the length of the mask and only ever clears
    foreground: every cell either keeps its content or was 1 and is now 0.
    In particular the foreground never grows. *)
Theorem erode_only_clears_foreground (mask : gmap Z Z) (w h passes : Z) :
  alength (erode mask w h passes) = alength mask /\
  forall j,
    erode mask w h passes !! j = mask !! j \/
    (mask !! j = Some 1 /\ erode mask w h passes !! j = Some 0).
Proof.
  split; [apply same_dom_alength; intros j; apply erode_keys|].
  intros j. rewrite erode_iter.
  apply (iter_sweep_lookup 1 0); [done|].
  intros c. apply (sweep_lookup (alength mask) 1 0
    (fun i => existsb
       (fun idx => (0 <=? idx) && (idx <? alength mask) && is_val (c !! idx) 0)
       [i - 1; i + 1; i - w; i + w]) c c j).
Qed.

(** X7.  [dilate] keeps the length of the mask and only ever sets
    background: every cell either keeps its content or was 0 and is now 1. *)
Theorem dilate_only_sets_background (mask : gmap Z Z) (w h passes : Z) :
  alength (dilate mask w h passes) = alength mask /\
  forall j,
    dilate mask w h passes !! j = mask !! j \/
    (mask !! j = Some 0 /\ dilate mask w h passes !! j = Some 1).
Proof.
  assert (Hcell : forall j,
    dilate mask w h passes !! j = mask !! j \/
    (mask !! j = Some 0 /\ dilate mask w h passes !! j = Some 1)).
  { intros j. rewrite dilate_iter.
    apply (iter_sweep_lookup 0 1); [done|].
    intros c. apply (sweep_lookup (alength mask) 0 1
      (fun i => existsb
         (fun idx => (0 <=? idx) && (idx <? alength mask) && is_val (c !! idx) 1)
         [i - 1; i + 1; i - w; i + w]) c c j). }
  split; [|done].
  apply same_dom_alength. intros j.
  destruct (Hcell j) as [H|[H0 H1]]; rewrite ?H; [done|].
  rewrite H0, H1. split; eauto.
Qed.

(** X8.  Passes of [erode] add up: eroding by [p] passes and then by [q]
    passes is eroding by [p + q] passes. *)
Theorem erode_passes_add (mask : gmap Z Z) (w h p q : Z) :
  0 <= p -> 0 <= q ->
  erode (erode mask w h p) w h q = erode mask w h (p + q).
Proof.
  intros Hp Hq.
  assert (Hlen : alength (erode mask w h p) = alength mask)
    by (apply same_dom_alength; intros j; apply erode_keys).
  rewrite (erode_iter (erode mask w h p)), Hlen, !erode_iter.
  rewrite Z2Nat.inj_add by lia. rewrite (Nat.add_comm (Z.to_nat p)).
  by rewrite Nat.iter_add.
Qed.

Lemma erode_passes_add_witness :
  erode (erode ringMask 4 3 1) 4 3 2 = erode ringMask 4 3 (1 + 2).
Proof. apply (erode_passes_add ringMask 4 3 1 2); lia. Defined.

(** ** What [fillInternalHoles] fills *)

Lemma seedCandidates_onBorder (w h c : Z) :
  0 < w -> 0 < h -> c ∈ seedCandidates w h <-> onBorder w h c.
Proof.
  intros Hw Hh. split.
  - intros Hc. split; [by apply seedCandidates_range|].
    unfold seedCandidates in Hc.
    apply elem_of_app in Hc as [Hc|Hc]; apply list_elem_of_In, in_flat_map in Hc;
      destruct Hc as (x & Hx & Hc); apply list_elem_of_In, elem_of_indices in Hx;
      simpl in Hc; destruct Hc as [<-|[<-|[]]].
    + left. apply Z.div_small. lia.
    + right. left. rewrite Z.div_add_l by lia. rewrite Z.div_small; lia.
    + right. right. left. apply Z_mod_mult.
    + right. right. right.
      replace (x * w + w - 1) with (w - 1 + x * w) by lia.
      rewrite Z_mod_plus_full. apply Z.mod_small. lia.
  - intros [Hr Hb].
    pose proof (Z.div_mod c w ltac:(lia)) as Hc.
    pose proof (Z.mod_pos_bound c w Hw) as Hm.
    assert (Hq : 0 <= c / w < h).
    { split; [apply Z.div_pos; lia|]. apply Z.div_lt_upper_bound; nia. }
    unfold seedCandidates. apply elem_of_app.
    destruct Hb as [Hb|[Hb|[Hb|Hb]]].
    + left. apply list_elem_of_In, in_flat_map. exists c. split.
      * apply list_elem_of_In, elem_of_indices. rewrite Hb in Hc. lia.
      * simpl. by left.
    + left. apply list_elem_of_In, in_flat_map. exists (c mod w). split.
      * apply list_elem_of_In, elem_of_indices. lia.
      * simpl. right. left. rewrite Hb in Hc. lia.
    + right. apply list_elem_of_In, in_flat_map. exists (c / w). split.
      * apply list_elem_of_In, elem_of_indices. lia.
      * simpl. left. lia.
    + right. apply list_elem_of_In, in_flat_map. exists (c / w). split.
      * apply list_elem_of_In, elem_of_indices. lia.
      * simpl. right. left. lia.
Qed.

Lemma BorderConnected_range (mask : gmap Z Z) (w h j : Z) :
  BorderConnected mask w h j -> 0 <= j < w * h.
Proof. by intros [c [Hc _] _|i n _ _ Hn _ _]. Qed.

Lemma BorderConnected_Reach (mask : gmap Z Z) (w h j : Z) :
  0 < w -> 0 < h ->
  BorderConnected mask w h j <->
  Reach w (holeEdge mask w (w * h)) (fst (holeSeeds mask w h)) j.
Proof.
  intros Hw Hh. split.
  - induction 1 as [c Hc Hz|i n Hi IH Hn Hr Hz Hg].
    + apply Reach_seed, holeSeeds_marked; [done..|].
      apply elem_of_holeSeedList. split; [|done].
      by apply seedCandidates_onBorder.
    + apply BorderConnected_range in Hi.
      apply (Reach_step _ _ _ i n); [done|done| |].
      * unfold holeEdge.
        rewrite !andb_true_iff, Z.leb_le, Z.ltb_lt, is_val_true.
        rewrite !Z.rem_mod_nonneg by lia.
        repeat split; [lia|lia|done|]. by apply Z.leb_le.
      * by apply holeSeeds_lookup_is_Some.
  - induction 1 as [c Hc|i n Hi IH Hn Hst Hs].
    + apply holeSeeds_marked in Hc; [|done..].
      apply elem_of_holeSeedList in Hc as [Hc Hz].
      apply BorderConnected_border; [|done].
      by apply seedCandidates_onBorder.
    + pose proof (BorderConnected_range _ _ _ _ IH) as Hir.
      unfold holeEdge in Hst.
      rewrite !andb_true_iff, Z.leb_le, Z.ltb_lt, is_val_true in Hst.
      destruct Hst as [[[H0 H1] Hz] Hg]. apply Z.leb_le in Hg.
      rewrite !Z.rem_mod_nonneg in Hg by lia.
      by apply (BorderConnected_step _ _ _ i n).
Qed.

(** X9.  What [fillInternalHoles] does to each cell of a [w] x [h] mask:
    a background cell that is connected to the frame through background
    stays background, a background cell that is not becomes foreground,
    and every other cell keeps its content. *)
Theorem fillInternalHoles_fills_enclosed (mask : gmap Z Z) (w h j : Z) :
  0 < w -> 0 < h -> alength mask = w * h -> 0 <= j < w * h ->
  (mask !! j = Some 0 -> BorderConnected mask w h j ->
   fillInternalHoles mask w h !! j = Some 0) /\
  (mask !! j = Some 0 -> ~ BorderConnected mask w h j ->
   fillInternalHoles mask w h !! j = Some 1) /\
  (mask !! j <> Some 0 ->
   fillInternalHoles mask w h !! j = mask !! j).
Proof.
  intros Hw Hh Hlen Hj.
  destruct (holeVisited_correct mask w h Hw Hh) as [_ HI].
  rewrite Hlen in HI.
  pose proof (Inv_done _ _ _ _ HI j) as Hdone.
  rewrite <- BorderConnected_Reach in Hdone by done.
  rewrite fillInternalHoles_lookup, Hlen, decide_True by done.
  split; [|split].
  - intros Hz Hb. apply Hdone in Hb. unfold marked in Hb.
    rewrite Hz, Hb. reflexivity.
  - intros Hz Hb. rewrite Hz.
    destruct (proj2 (inv_dom _ _ _ _ _ HI j)) as [x Hx];
      [by apply holeSeeds_lookup_is_Some|].
    destruct (inv_bin _ _ _ _ _ HI j x Hx) as [->| ->].
    + rewrite Hx. reflexivity.
    + by destruct Hb; apply Hdone.
  - intros Hz. apply is_val_false in Hz. by rewrite Hz.
Qed.

Lemma fillInternalHoles_fills_enclosed_witness :
  (ringMask !! 5 = Some 0 -> BorderConnected ringMask 4 3 5 ->
   fillInternalHoles ringMask 4 3 !! 5 = Some 0) /\
  (ringMask !! 5 = Some 0 -> ~ BorderConnected ringMask 4 3 5 ->
   fillInternalHoles ringMask 4 3 !! 5 = Some 1) /\
  (ringMask !! 5 <> Some 0 ->
   fillInternalHoles ringMask 4 3 !! 5 = ringMask !! 5).
Proof.
  apply (fillInternalHoles_fills_enclosed ringMask 4 3 5);
    [lia | lia | reflexivity | lia].
Defined.

(** ** The wrap guard at width 2 *)

(** X10.  On a grid of width 2 the guard does not separate the rows: the
    right cell [2y+1] of a row and the left cell [2y+2] of the next row
    are index neighbours that pass the guard, though they are not
    adjacent in the grid. *)
Theorem wrap_guard_width_two (h y : Z) :
  0 <= y < h - 1 ->
  let i := 2 * y + 1 in
  let n := i + 1 in
  n ∈ neighbors 2 i /\ 0 <= n < 2 * h /\
  Z.abs (Z.rem n 2 - Z.rem i 2) <= 1 /\
  n ∉ gridNeighbors 2 h i.
Proof.
  intros Hy. cbv zeta.
  assert (Hm : (2 * y + 1) mod 2 = 1).
  { rewrite Z.add_comm, Z.mul_comm, Z_mod_plus_full. reflexivity. }
  assert (Hd : (2 * y + 1) / 2 = y).
  { rewrite Z.add_comm, Z.mul_comm, Z.div_add by lia. reflexivity. }
  split; [unfold neighbors; rewrite !elem_of_cons; lia|].
  split; [lia|]. split.
  - rewrite !Z.rem_mod_nonneg by lia.
    replace (2 * y + 1 + 1) with (0 + (y + 1) * 2) by lia.
    rewrite Z_mod_plus_full, Hm. change (Z.abs (0 mod 2 - 1)) with 1. lia.
  - unfold gridNeighbors. cbv zeta. rewrite Hm, Hd.
    change (1 <? 2 - 1) with false. change (0 <? 1) with true.
    destruct (0 <? y), (y <? h - 1); cbn [app];
      rewrite ?elem_of_cons, ?elem_of_nil; lia.
Qed.

Lemma wrap_guard_width_two_witness :
  2 ∈ neighbors 2 1 /\ 0 <= 2 < 2 * 2 /\
  Z.abs (Z.rem 2 2 - Z.rem 1 2) <= 1 /\ 2 ∉ gridNeighbors 2 2 1.
Proof. apply (wrap_guard_width_two 2 0); lia. Defined.

(** ** The loops end *)

Lemma floodRuns_unique (test : gmap Z Z -> Z -> Z -> bool) (w : Z)
  (v : gmap Z Z) (s : list Z) (out1 out2 : gmap Z Z) :
  floodRuns test w v s out1 -> floodRuns test w v s out2 -> out1 = out2.
Proof.
  intros H1. revert out2.
  induction H1 as [v|v i rest out _ IH]; intros out2 H2.
  - by inversion H2.
  - inversion H2; subst. by apply IH.
Qed.

(** X11.  The [while (stack.length)] loops of [generateFloodFillMask] and
    of [fillInternalHoles] end, whatever the image: started on the seeded
    state they reach the empty stack, and the visited array at that point
    is the one the function goes on with. *)
Theorem flood_loops_terminate (d mask : gmap Z Z) (w h : Z) (t : Q) :
  0 < w -> 0 < h ->
  (forall out,
     floodRuns (floodFillTest d w h t) w
       (foldl (fun v i => aset v i 1) (newArray (w * h)) (cornerStack w h))
       (rev (cornerStack w h)) out
     <-> out = floodFillVisited d w h t) /\
  (forall out,
     floodRuns (holeTest mask w (alength mask)) w
       (fst (holeSeeds mask w h)) (snd (holeSeeds mask w h)) out
     <-> out = holeVisited mask w h).
Proof.
  intros Hw Hh.
  destruct (floodFillVisited_correct d w h t Hw Hh) as [Hf _].
  destruct (holeVisited_correct mask w h Hw Hh) as [Hv _].
  split; intros out; (split; [|by intros ->]); intros Hrun.
  - exact (floodRuns_unique _ _ _ _ _ _ Hrun Hf).
  - exact (floodRuns_unique _ _ _ _ _ _ Hrun Hv).
Qed.

Lemma flood_loops_terminate_witness :
  (forall out,
     floodRuns (floodFillTest checkerImage 2 2 10) 2
       (foldl (fun v i => aset v i 1) (newArray (2 * 2)) (cornerStack 2 2))
       (rev (cornerStack 2 2)) out
     <-> out = floodFillVisited checkerImage 2 2 10) /\
  (forall out,
     floodRuns
       (holeTest (generateFloodFillMask checkerImage 2 2 10) 2
          (alength (generateFloodFillMask checkerImage 2 2 10))) 2
       (fst (holeSeeds (generateFloodFillMask checkerImage 2 2 10) 2 2))
       (snd (holeSeeds (generateFloodFillMask checkerImage 2 2 10) 2 2)) out
     <-> out = holeVisited (generateFloodFillMask checkerImage 2 2 10) 2 2).
Proof.
  apply (flood_loops_terminate checkerImage
           (generateFloodFillMask checkerImage 2 2 10) 2 2 10); lia.
Defined.

(** ** Smart mode: the rectangles lie in the image *)

Lemma foldl_pushNeighbor_stack (test : gmap Z Z -> Z -> Z -> bool)
  (R : Z -> Prop) (i : Z) :
  (forall v n, test v i n = true -> R n) ->
  forall l st,
    (forall j, j ∈ snd st -> R j) ->
    forall j, j ∈ snd (foldl (pushNeighbor test i) st l) -> R j.
Proof.
  intros Ht. induction l as [|n l IH]; intros st Hst; simpl; [done|].
  apply IH. intros j. unfold pushNeighbor.
  destruct (test (fst st) i n) eqn:E; simpl; [|by apply Hst].
  intros Hj. apply elem_of_cons in Hj as [->|Hj]; [by apply (Ht (fst st))|].
  by apply Hst.
Qed.

Lemma smartTest_range (isContent : gmap Z Z) (width height : Z)
  (v : gmap Z Z) (i n : Z) :
  smartTest isContent width height v i n = true -> 0 <= n < width * height.
Proof.
  unfold smartTest. rewrite !andb_true_iff, Z.leb_le, Z.ltb_lt. tauto.
Qed.

Lemma pixel_in_grid (width height i : Z) :
  0 < width -> 0 <= i < width * height ->
  0 <= Z.rem i width < width /\ 0 <= i / width < height.
Proof.
  intros Hw Hi. rewrite Z.rem_mod_nonneg by lia. split.
  - by apply Z.mod_pos_bound.
  - split; [apply Z.div_pos; lia|]. apply Z.div_lt_upper_bound; nia.
Qed.

Lemma componentLoop_box (isContent : gmap Z Z) (width height : Z) :
  0 < width ->
  forall (fuel : nat) (c : Component) (stack : list Z),
    boxInGrid width height c ->
    (forall j, j ∈ stack -> 0 <= j < width * height) ->
    boxInGrid width height (componentLoop isContent width height fuel c stack).
Proof.
  intros Hw. induction fuel as [|fuel IH]; intros c stack Hc Hs; [done|].
  destruct stack as [|idx rest]; [done|].
  cbn [componentLoop]. cbv zeta. apply IH.
  - destruct (pixel_in_grid width height idx Hw) as [Hx Hy];
      [apply Hs, elem_of_cons; auto|].
    destruct Hc as (Hc1 & Hc2 & Hc3 & Hc4).
    unfold boxInGrid. cbn [cMinX cMaxX cMinY cMaxY].
    destruct (Z.ltb_spec (Z.rem idx width) (cMinX c)),
      (Z.ltb_spec (cMaxX c) (Z.rem idx width)),
      (Z.ltb_spec (idx / width) (cMinY c)),
      (Z.ltb_spec (cMaxY c) (idx / width)); lia.
  - unfold floodStep.
    apply (foldl_pushNeighbor_stack _ (fun j => 0 <= j < width * height)).
    + intros v n. apply smartTest_range.
    + cbn [snd]. intros j Hj. apply Hs, elem_of_cons. auto.
Qed.

Lemma paddedRect_inImage (c : Component) (width height : Z) (pad : Q) :
  boxInGrid width height c -> (0 <= pad)%Q ->
  inImage width height (paddedRect c width height pad).
Proof.
  intros (Hx & Hx' & Hy & Hy') Hp.
  unfold inImage, paddedRect. cbv zeta. cbn [rect_x rect_y rect_w rect_h].
  assert (Ha : (0 <= inject_Z (cMinX c))%Q)
    by (change 0%Q with (inject_Z 0); rewrite <- Zle_Qle; lia).
  assert (Hab : (inject_Z (cMinX c) <= inject_Z (cMaxX c))%Q)
    by (rewrite <- Zle_Qle; lia).
  assert (Hb : (inject_Z (cMaxX c) <= inject_Z width)%Q)
    by (rewrite <- Zle_Qle; lia).
  assert (Ha' : (0 <= inject_Z (cMinY c))%Q)
    by (change 0%Q with (inject_Z 0); rewrite <- Zle_Qle; lia).
  assert (Hab' : (inject_Z (cMinY c) <= inject_Z (cMaxY c))%Q)
    by (rewrite <- Zle_Qle; lia).
  assert (Hb' : (inject_Z (cMaxY c) <= inject_Z height)%Q)
    by (rewrite <- Zle_Qle; lia).
  pose proof (Q.le_max_l 0 (inject_Z (cMinX c) - pad)) as X0.
  assert (X1 : (Qmax 0 (inject_Z (cMinX c) - pad) <= inject_Z (cMinX c))%Q)
    by (apply Q.max_lub; lra).
  pose proof (Q.le_min_l (inject_Z width) (inject_Z (cMaxX c) + pad)) as X2.
  assert (X3 : (inject_Z (cMaxX c)
                <= Qmin (inject_Z width) (inject_Z (cMaxX c) + pad))%Q)
    by (apply Q.min_glb; lra).
  pose proof (Q.le_max_l 0 (inject_Z (cMinY c) - pad)) as Y0.
  assert (Y1 : (Qmax 0 (inject_Z (cMinY c) - pad) <= inject_Z (cMinY c))%Q)
    by (apply Q.max_lub; lra).
  pose proof (Q.le_min_l (inject_Z height) (inject_Z (cMaxY c) + pad)) as Y2.
  assert (Y3 : (inject_Z (cMaxY c)
                <= Qmin (inject_Z height) (inject_Z (cMaxY c) + pad))%Q)
    by (apply Q.min_glb; lra).
  repeat split; lra.
Qed.

Lemma smartRects_inImage (isContent : gmap Z Z) (width height : Z) (pad : Q)
  (r : Rect) :
  0 < width -> (0 <= pad)%Q ->
  r ∈ smartRects isContent width height pad -> inImage width height r.
Proof.
  intros Hw Hp. unfold smartRects.
  pose proof (forUpTo_ind
    (fun _ (st : gmap Z Z * list Rect) =>
       forall r, r ∈ snd st -> inImage width height r)
    (width * height)
    (fun st i =>
       let visited := fst st in
       let rects := snd st in
       if is_val (isContent !! i) 1 && is_val (visited !! i) 0 then
         let x := Z.rem i width in
         let y := i / width in
         let visited := aset visited i 1 in
         let c := componentLoop isContent width height
                    (floodFuel visited [i])
                    (mkComponent visited 0 x x y y) [i] in
         (cVisited c,
          if minArea <? cCount c
          then rects ++ [paddedRect c width height pad]
          else rects)
       else st)
    (newArray (width * height), [])) as Hind.
  cbv beta in Hind. intros Hr. revert r Hr. apply Hind; clear Hind.
  - intros r Hr. by apply elem_of_nil in Hr.
  - intros k st Hk IH. cbv zeta.
    destruct (is_val (isContent !! k) 1 && is_val (fst st !! k) 0); [|done].
    cbn [snd].
    destruct (minArea <? _); [|done].
    intros r Hr. apply elem_of_app in Hr as [Hr|Hr]; [by apply IH|].
    apply elem_of_cons in Hr as [->|Hr]; [|by apply elem_of_nil in Hr].
    apply paddedRect_inImage; [|done].
    apply componentLoop_box; [done| |].
    + destruct (pixel_in_grid width height k Hw Hk) as [Hx Hy].
      unfold boxInGrid. cbn [cMinX cMaxX cMinY cMaxY]. lia.
    + intros j Hj. apply elem_of_cons in Hj as [->|Hj]; [done|].
      by apply elem_of_nil in Hj.
Qed.

(** X12.  In smart mode with the default padding or a padding that is a
    non-negative whole number, every Rect that [detectSegments] returns
    has a non-negative origin and size and lies within the image:
    [x + w <= width] and [y + h <= height]. *)
Theorem detectSegments_smart_in_image (img : ImageData)
  (options : ProcessorOptions) (r : Rect) :
  0 < width img ->
  opt_mode options = smart ->
  (forall p, opt_trim options = Some p ->
     exists z, 0 <= z /\ (p == inject_Z z)%Q) ->
  r ∈ detectSegments img options ->
  inImage (width img) (height img) r.
Proof.
  intros Hw Hm Ht. unfold detectSegments. rewrite Hm. cbv zeta.
  apply smartRects_inImage; [done|].
  destruct (opt_trim options) as [p|]; [|done].
  unfold orDefault. destruct (Qeq_bool p 0); [done|].
  destruct (Ht p eq_refl) as (z & Hz & Ez). rewrite Ez.
  change 0%Q with (inject_Z 0). rewrite <- Zle_Qle. lia.
Qed.

Lemma detectSegments_smart_in_image_witness :
  exists r,
    r ∈ detectSegments blockImage (mkOptions smart 20 1 1 (Some 5%Q) None) /\
    inImage (width blockImage) (height blockImage) r.
Proof.
  assert (Hne : nonEmpty (detectSegments blockImage
                            (mkOptions smart 20 1 1 (Some 5%Q) None)) = true)
    by (vm_compute; reflexivity).
  destruct (detectSegments blockImage (mkOptions smart 20 1 1 (Some 5%Q) None))
    as [|r l] eqn:E; [discriminate Hne|].
  exists r. split; [apply elem_of_cons; auto|].
  apply (detectSegments_smart_in_image blockImage
           (mkOptions smart 20 1 1 (Some 5%Q) None) r);
    [reflexivity | reflexivity | |].
  - intros p Hp. injection Hp as <-. exists 5. split; [lia|reflexivity].
  - rewrite E. apply elem_of_cons. auto.
Defined.

(** ** The even grid *)

Lemma forUpTo_snoc {A : Type} (n : Z) (f : Z -> A) (acc : list A) :
  forUpTo n (fun l k => l ++ [f k]) acc = acc ++ map f (indices n).
Proof.
  unfold forUpTo. revert acc.
  induction (indices n) as [|k l IH]; intros acc; simpl.
  - by rewrite app_nil_r.
  - rewrite IH, <- app_assoc. reflexivity.
Qed.

Lemma forUpTo_rows {A : Type} (rows cols : Z) (g : Z -> Z -> A) :
  forUpTo rows (fun l r => forUpTo cols (fun l c => l ++ [g r c]) l) []
  = flat_map (fun r => map (g r) (indices cols)) (indices rows).
Proof.
  unfold forUpTo at 1.
  assert (H : forall l acc,
    foldl (fun l r => forUpTo cols (fun l c => l ++ [g r c]) l) acc l
    = acc ++ flat_map (fun r => map (g r) (indices cols)) l).
  { induction l as [|r l IH]; intros acc; simpl.
    - by rewrite app_nil_r.
    - rewrite IH, forUpTo_snoc, <- app_assoc. reflexivity. }
  apply (H _ []).
Qed.

Lemma evenGridRects_cells (rows0 cols0 width height : Z) :
  evenGridRects rows0 cols0 width height
  = flat_map
      (fun r => map
         (fun c => mkRect
            (inject_Z c * (inject_Z width / inject_Z (Z.max 1 cols0)))
            (inject_Z r * (inject_Z height / inject_Z (Z.max 1 rows0)))
            (inject_Z width / inject_Z (Z.max 1 cols0))
            (inject_Z height / inject_Z (Z.max 1 rows0)))
         (indices (Z.max 1 cols0)))
      (indices (Z.max 1 rows0)).
Proof.
  unfold evenGridRects. cbv zeta.
  apply (forUpTo_rows _ _
    (fun r c => mkRect
       (inject_Z c * (inject_Z width / inject_Z (Z.max 1 cols0)))
       (inject_Z r * (inject_Z height / inject_Z (Z.max 1 rows0)))
       (inject_Z width / inject_Z (Z.max 1 cols0))
       (inject_Z height / inject_Z (Z.max 1 rows0)))).
Qed.

Lemma length_indices (n : Z) : length (indices n) = Z.to_nat n.
Proof. unfold indices. apply length_zseq. Qed.

Lemma totalArea_app (a b : list Rect) :
  (totalArea (a ++ b) == totalArea a + totalArea b)%Q.
Proof.
  induction a as [|r a IH]; simpl; [ring|].
  unfold totalArea in *. simpl. rewrite IH. ring.
Qed.

Lemma totalArea_cells {A : Type} (x y : A -> Q) (cw ch : Q) (l : list A) :
  (totalArea (map (fun c => mkRect (x c) (y c) cw ch) l)
   == inject_Z (Z.of_nat (length l)) * (cw * ch))%Q.
Proof.
  induction l as [|c l IH].
  - simpl. unfold totalArea. simpl. ring.
  - cbn [map length]. rewrite Nat2Z.inj_succ. unfold Z.succ.
    rewrite inject_Z_plus. unfold totalArea in *. cbn [fold_right].
    rewrite IH. unfold rectArea. cbn [rect_w rect_h]. ring.
Qed.

Lemma totalArea_rows {A : Type} (f : A -> list Rect) (a : Q) (l : list A) :
  (forall r, (totalArea (f r) == a)%Q) ->
  (totalArea (flat_map f l) == inject_Z (Z.of_nat (length l)) * a)%Q.
Proof.
  intros Hf. induction l as [|r l IH].
  - simpl. unfold totalArea. simpl. ring.
  - cbn [flat_map length]. rewrite totalArea_app, IH, Hf.
    rewrite Nat2Z.inj_succ. unfold Z.succ. rewrite inject_Z_plus. ring.
Qed.

Lemma inject_Z_nonzero (z : Z) : z <> 0 -> ~ (inject_Z z == 0)%Q.
Proof. intros Hz H. unfold Qeq in H. simpl in H. lia. Qed.

Lemma cell_in_span (size n k : Z) :
  0 <= size -> 0 <= k < n ->
  (0 <= inject_Z k * (inject_Z size / inject_Z n))%Q /\
  (0 <= inject_Z size / inject_Z n)%Q /\
  (inject_Z k * (inject_Z size / inject_Z n) + inject_Z size / inject_Z n
   <= inject_Z size)%Q.
Proof.
  intros Hs Hk.
  assert (Hn : (0 < inject_Z n)%Q)
    by (change 0%Q with (inject_Z 0); rewrite <- Zlt_Qlt; lia).
  assert (Hk0 : (0 <= inject_Z k)%Q)
    by (change 0%Q with (inject_Z 0); rewrite <- Zle_Qle; lia).
  assert (Hcell : (0 <= inject_Z size / inject_Z n)%Q).
  { apply Qle_shift_div_l; [done|]. rewrite Qmult_0_l.
    change 0%Q with (inject_Z 0). rewrite <- Zle_Qle. lia. }
  split; [by apply Qmult_le_0_compat|]. split; [done|].
  assert (E : (inject_Z k * (inject_Z size / inject_Z n)
               + inject_Z size / inject_Z n
               == inject_Z (k + 1) * (inject_Z size / inject_Z n))%Q)
    by (rewrite inject_Z_plus; ring).
  rewrite E.
  apply Qle_trans with (inject_Z n * (inject_Z size / inject_Z n))%Q.
  - apply Qmult_le_compat_r; [|done]. rewrite <- Zle_Qle. lia.
  - rewrite Qmult_div_r; [apply Qle_refl|].
    apply inject_Z_nonzero. lia.
Qed.

Lemma Qdiv_exact (a b : Z) :
  0 < b -> (b | a) -> (inject_Z a / inject_Z b == inject_Z (a / b))%Q.
Proof.
  intros Hb [k ->]. rewrite Z.div_mul by lia. rewrite inject_Z_mult.
  field. apply inject_Z_nonzero. lia.
Qed.

(** X13.  In grid mode without a custom grid, [detectSegments] returns
    [max(1, rows) * max(1, cols)] Rects.  When the number of columns
    divides the width and the number of rows divides the height, every
    Rect is a whole-pixel cell [(c * cw, r * ch, cw, ch)] with
    [cw = width / cols] and [ch = height / rows], it lies within the
    image, and the areas of the Rects add up to the area of the image. *)
Theorem detectSegments_even_grid (img : ImageData)
  (options : ProcessorOptions) :
  0 <= width img -> 0 <= height img ->
  opt_mode options = grid -> opt_customGrid options = None ->
  let rows := Z.max 1 (opt_rows options) in
  let cols := Z.max 1 (opt_cols options) in
  let rects := detectSegments img options in
  length rects = Z.to_nat (rows * cols) /\
  ((cols | width img) -> (rows | height img) ->
   (totalArea rects == inject_Z (width img) * inject_Z (height img))%Q /\
   (forall r, r ∈ rects ->
      inImage (width img) (height img) r /\
      exists c y, 0 <= c < cols /\ 0 <= y < rows /\
        (rect_x r == inject_Z (c * (width img / cols)))%Q /\
        (rect_y r == inject_Z (y * (height img / rows)))%Q /\
        (rect_w r == inject_Z (width img / cols))%Q /\
        (rect_h r == inject_Z (height img / rows))%Q)).
Proof.
  intros Hw Hh Hm Hg. cbv zeta. unfold detectSegments. rewrite Hm, Hg.
  rewrite evenGridRects_cells.
  set (rows := Z.max 1 (opt_rows options)).
  set (cols := Z.max 1 (opt_cols options)).
  assert (Hrows : 1 <= rows) by (unfold rows; lia).
  assert (Hcols : 1 <= cols) by (unfold cols; lia).
  split.
  { rewrite (flat_map_constant_length (c := Z.to_nat cols)).
    - rewrite length_indices. lia.
    - intros r _. by rewrite length_map, length_indices. }
  intros Dw Dh.
  pose proof (Qdiv_exact (width img) cols ltac:(lia) Dw) as Ew.
  pose proof (Qdiv_exact (height img) rows ltac:(lia) Dh) as Eh.
  split.
  - rewrite (totalArea_rows _
      (inject_Z cols * (inject_Z (width img) / inject_Z cols
                        * (inject_Z (height img) / inject_Z rows)))).
    + rewrite length_indices, Z2Nat.id by lia. field.
      split; apply inject_Z_nonzero; lia.
    + intros r. rewrite (totalArea_cells
        (fun c => (inject_Z c * (inject_Z (width img) / inject_Z cols))%Q)
        (fun _ => (inject_Z r * (inject_Z (height img) / inject_Z rows))%Q)).
      rewrite length_indices, Z2Nat.id by lia. reflexivity.
  - intros r Hr. apply list_elem_of_In, in_flat_map in Hr.
    destruct Hr as (y & Hy & Hr). apply in_map_iff in Hr.
    destruct Hr as (x & <- & Hx).
    apply list_elem_of_In, elem_of_indices in Hx, Hy.
    destruct (cell_in_span (width img) cols x Hw Hx) as (X0 & X1 & X2).
    destruct (cell_in_span (height img) rows y Hh Hy) as (Y0 & Y1 & Y2).
    split; [unfold inImage; cbn [rect_x rect_y rect_w rect_h]; tauto|].
    exists x, y. cbn [rect_x rect_y rect_w rect_h].
    rewrite !inject_Z_mult, Ew, Eh. repeat split; (lia || reflexivity).
Qed.

Lemma detectSegments_even_grid_witness :
  let options := mkOptions grid 20 1 3 None None in
  let rows := Z.max 1 (opt_rows options) in
  let cols := Z.max 1 (opt_cols options) in
  let rects := detectSegments dotImage options in
  length rects = Z.to_nat (rows * cols) /\
  ((cols | width dotImage) -> (rows | height dotImage) ->
   (totalArea rects
    == inject_Z (width dotImage) * inject_Z (height dotImage))%Q /\
   (forall r, r ∈ rects ->
      inImage (width dotImage) (height dotImage) r /\
      exists c y, 0 <= c < cols /\ 0 <= y < rows /\
        (rect_x r == inject_Z (c * (width dotImage / cols)))%Q /\
        (rect_y r == inject_Z (y * (height dotImage / rows)))%Q /\
        (rect_w r == inject_Z (width dotImage / cols))%Q /\
        (rect_h r == inject_Z (height dotImage / rows))%Q)).
Proof.
  apply (detectSegments_even_grid dotImage (mkOptions grid 20 1 3 None None));
    [simpl; lia | simpl; lia | reflexivity | reflexivity].
Defined.

(** ** [sliceImage]: the sprites *)

Section SliceOrder.
Context {B : Type}.
Variable getContext : Rect -> bool.
Variable toBlob : Rect -> option B.

Lemma foldl_sliceStep_flat_map (rects : list Rect) :
  forall sprites canvases,
    foldl (sliceStep getContext toBlob) (sprites, canvases) rects
    = (sprites ++
       flat_map
         (fun r =>
            if sliceable r && getContext r then
              match toBlob r with
              | Some blob => [mkSprite (rect_w r) (rect_h r) blob]
              | None => []
              end
            else []) rects,
       canvases ++
       map (fun r => (rect_w r, rect_h r)) (List.filter sliceable rects)).
Proof.
  induction rects as [|r rects IH]; intros sprites canvases; simpl.
  - by rewrite !app_nil_r.
  - unfold sliceStep at 2, sliceable. cbn [fst snd].
    destruct (Qltb (rect_w r) 1 || Qltb (rect_h r) 1); simpl; [apply IH|].
    destruct (getContext r); simpl.
    + destruct (toBlob r) as [blob|]; rewrite IH, <- ?app_assoc; reflexivity.
    + rewrite IH, <- app_assoc. reflexivity.
Qed.

(** X14.  The sprites of [sliceImage] come out in the order of the Rects:
    one sprite, of the size of the Rect, for every Rect that is not
    skipped, gets a 2D context and is encoded to a blob, and nothing
    else; a crop canvas is created for every Rect that is not skipped,
    also when no sprite comes of it. *)
Theorem sliceRects_in_order (rects : list Rect) :
  sliceRects getContext toBlob rects
  = (flat_map
       (fun r =>
          if sliceable r && getContext r then
            match toBlob r with
            | Some blob => [mkSprite (rect_w r) (rect_h r) blob]
            | None => []
            end
          else []) rects,
     map (fun r => (rect_w r, rect_h r)) (List.filter sliceable rects)).
Proof. unfold sliceRects. by rewrite foldl_sliceStep_flat_map. Qed.
End SliceOrder.

(** ** [processSticker]: when it succeeds, and what the output holds *)

Lemma processSticker_cases (img : ImageData) (config : ExtractionConfig) :
  0 < width img -> 0 < height img ->
  (processSticker img config
   = Err "No subject detected. Try 'Loose' tolerance?" /\
   forall i, ~ foreground (repairedMask img config) i) \/
  ((exists out, processSticker img config = Ok out) /\
   exists i, foreground (repairedMask img config) i).
Proof.
  intros Hw Hh.
  pose proof (is_array_repairedMask img config Hw Hh) as Ha.
  destruct (cropBounds_spec (repairedMask img config) (width img) (height img))
    as [[Hp Hnone]|[Hp Hbox]];
    [done|rewrite (is_array_alength _ _ Ha); lia| |].
  - left. split; [|done]. unfold processSticker. cbv zeta. by rewrite Hp.
  - right. split.
    + unfold processSticker. cbv zeta. rewrite Hp. simpl. eauto.
    + destruct (box_left _ _ _ _ _ _ Hbox) as (i & Hi & _). eauto.
Qed.

(** The dot image has a subject: its middle pixel. *)
Lemma dotImage_Ok : exists out, processSticker dotImage plainConfig = Ok out.
Proof.
  destruct (processSticker_cases dotImage plainConfig) as [[_ Hnone]|[Hok _]];
    [reflexivity|reflexivity| |done].
  destruct (Hnone 4). split; [vm_compute; done|vm_compute; reflexivity].
Qed.

(** X15.  [processSticker] succeeds exactly when the mask that reaches the
    crop has a foreground pixel, and throws "No subject detected" exactly
    when it has none. *)
Theorem processSticker_succeeds_iff (img : ImageData)
  (config : ExtractionConfig) :
  0 < width img -> 0 < height img ->
  ((exists out, processSticker img config = Ok out)
   <-> exists i, foreground (repairedMask img config) i) /\
  (processSticker img config
   = Err "No subject detected. Try 'Loose' tolerance?"
   <-> forall i, ~ foreground (repairedMask img config) i).
Proof.
  intros Hw Hh.
  destruct (processSticker_cases img config Hw Hh)
    as [[He Hnone]|[[out Hok] [i Hi]]].
  - split; split; try done.
    + intros [out Hok]. congruence.
    + intros [i Hi]. by destruct (Hnone i).
  - split; split; try eauto.
    + intros He. congruence.
    + intros Hnone. by destruct (Hnone i).
Qed.

Lemma processSticker_succeeds_iff_witness :
  ((exists out, processSticker dotImage plainConfig = Ok out)
   <-> exists i, foreground (repairedMask dotImage plainConfig) i) /\
  (processSticker dotImage plainConfig
   = Err "No subject detected. Try 'Loose' tolerance?"
   <-> forall i, ~ foreground (repairedMask dotImage plainConfig) i).
Proof.
  apply (processSticker_succeeds_iff dotImage plainConfig); reflexivity.
Defined.

(** X16.  The side of a sprite returned by [processSticker] is at least 81
    and at most [max(width, height) + 2 * max(borderWidth + 20, 40)]. *)
Theorem processSticker_side_bounds (img : ImageData)
  (config : ExtractionConfig) (out : ProcessedSprite (gmap Z Z)) :
  0 < width img ->
  processSticker img config = Ok out ->
  exists side,
    sprite_width out = inject_Z side /\ sprite_height out = inject_Z side /\
    81 <= side <= Z.max (width img) (height img)
                  + 2 * Z.max (borderWidth config + 20) 40.
Proof.
  intros Hw Hok.
  destruct (processSticker_Ok_box img config out Hw Hok)
    as (Hh & Hbox & Hsw & Hsh).
  destruct (processSticker_Ok img config out Hok) as (_ & Hwd & Hht & _).
  pose proof (is_array_repairedMask img config Hw Hh) as Ha.
  set (mask := repairedMask img config) in *.
  set (b := cropBounds mask (width img) (height img)) in *.
  destruct (finalSizeOf_bounds _ _ (borderWidth config) Hsw Hsh)
    as (Efs & Hfs & _).
  eexists. split; [exact Hwd|]. split; [exact Hht|]. split; [done|].
  rewrite Efs.
  assert (Hin : forall i, foreground mask i ->
            0 <= i mod width img < width img /\ 0 <= i / width img < height img).
  { intros i [Hi _]. rewrite (is_array_alength _ _ Ha) in Hi.
    destruct (pixel_in_grid (width img) (height img) i Hw Hi) as [Hx Hy].
    rewrite Z.rem_mod_nonneg in Hx by lia. done. }
  destruct (box_left _ _ _ _ _ _ Hbox) as (i1 & F1 & E1).
  destruct (box_right _ _ _ _ _ _ Hbox) as (i2 & F2 & E2).
  destruct (box_top _ _ _ _ _ _ Hbox) as (i3 & F3 & E3).
  destruct (box_bottom _ _ _ _ _ _ Hbox) as (i4 & F4 & E4).
  apply Hin in F1, F2, F3, F4. lia.
Qed.

Lemma processSticker_side_bounds_witness :
  exists out, processSticker dotImage plainConfig = Ok out /\
  exists side,
    sprite_width out = inject_Z side /\ sprite_height out = inject_Z side /\
    81 <= side <= Z.max (width dotImage) (height dotImage)
                  + 2 * Z.max (borderWidth plainConfig + 20) 40.
Proof.
  destruct dotImage_Ok as [out E].
  exists out. split; [exact E|].
  apply (processSticker_side_bounds dotImage plainConfig out);
    [reflexivity|exact E].
Defined.

Lemma foldl_asetp_untouched (l : list (Z * Z)) : forall (a : gmap Z Z) (k : Z),
  (forall v, (k, v) ∉ l) -> foldl asetp a l !! k = a !! k.
Proof.
  induction l as [|[k0 v0] l IH]; intros a k Hk; simpl; [done|].
  rewrite IH.
  - unfold asetp. simpl. apply aset_lookup_ne. intros ->.
    apply (Hk v0), elem_of_cons. auto.
  - intros v Hv. apply (Hk v), elem_of_cons. auto.
Qed.

(** The four stores of one white pixel. *)
Lemma paint_lookup (a : gmap Z Z) (i j : Z) :
  aset (aset (aset (aset a (i * 4) 255) (i * 4 + 1) 255) (i * 4 + 2) 255)
    (i * 4 + 3) 255 !! j
  = if decide (i * 4 <= j < i * 4 + 4) then (fun _ => 255) <$> a !! j
    else a !! j.
Proof.
  rewrite !aset_lookup.
  destruct (decide (i * 4 <= j < i * 4 + 4)) as [Hj|Hj].
  - assert (Hc : j = i * 4 \/ j = i * 4 + 1 \/ j = i * 4 + 2 \/ j = i * 4 + 3)
      by lia.
    destruct Hc as [->|[->|[->| ->]]];
      repeat (destruct (decide _) as [?|?]; try lia); reflexivity.
  - repeat (destruct (decide _) as [?|?]; try lia). reflexivity.
Qed.

Lemma borderLayer_pixel (mask : gmap Z Z) (w : Z) (b : Bounds)
  (sw sh fs offX offY bw p : Z) :
  0 <= p < fs * fs ->
  let c := borderLayer mask w b sw sh fs offX offY bw in
  pixelAt c p = (Some 0, Some 0, Some 0, Some 0) \/
  pixelAt c p = (Some 255, Some 255, Some 255, Some 255).
Proof.
  intros Hp. cbv zeta. unfold borderLayer. cbv zeta.
  match goal with
  | |- context [forUpTo (alength ?d)] => generalize d as dilated
  end.
  intros dilated.
  pose proof (forUpTo_ind
    (fun _ bDat =>
       pixelAt bDat p = (Some 0, Some 0, Some 0, Some 0) \/
       pixelAt bDat p = (Some 255, Some 255, Some 255, Some 255))
    (alength dilated)
    (fun bDat i =>
       if is_val (dilated !! i) 1 then
         aset (aset (aset (aset bDat (i * 4) 255) (i * 4 + 1) 255)
                 (i * 4 + 2) 255) (i * 4 + 3) 255
       else bDat)
    (newArray (fs * fs * 4))) as Hind.
  cbv beta in Hind. apply Hind; clear Hind.
  - left. unfold pixelAt. rewrite !newArray_lookup.
    rewrite !decide_True by lia. reflexivity.
  - intros k st _ IH. destruct (is_val (dilated !! k) 1); [|done].
    unfold pixelAt in *. rewrite !paint_lookup.
    destruct (decide (k = p)) as [->|Hne].
    + right. rewrite !decide_True by lia.
      destruct IH as [IH|IH]; injection IH as -> -> -> ->; reflexivity.
    + rewrite !decide_False by lia. exact IH.
Qed.

(** A successful [processSticker], with the canvas the subject is drawn on. *)
Lemma processSticker_Ok_canvas (img : ImageData) (config : ExtractionConfig)
  (out : ProcessedSprite (gmap Z Z)) :
  processSticker img config = Ok out ->
  let mask := repairedMask img config in
  let b := cropBounds mask (width img) (height img) in
  let sw := maxX b - minX b + 1 in
  let sh := maxY b - minY b + 1 in
  let fs := finalSizeOf sw sh (borderWidth config) in
  let offX := (fs - sw) / 2 in
  let offY := (fs - sh) / 2 in
  sprite_blob out
  = compositeSubject (data img) mask (width img) b sw sh fs offX offY
      (if 0 <? borderWidth config
       then borderLayer mask (width img) b sw sh fs offX offY
              (borderWidth config)
       else newArray (fs * fs * 4)).
Proof.
  unfold processSticker. cbv zeta.
  destruct (hasPixels (cropBounds _ _ _)) eqn:Hp; simpl; [|done].
  by intros [= <-].
Qed.

(** X17.  No feathering: every pixel of the sprite that [processSticker]
    returns is either fully transparent, or opaque white (only when a
    border is asked for), or the opaque copy of a foreground pixel of the
    source. *)
Theorem processSticker_pixel_classes (img : ImageData)
  (config : ExtractionConfig) (out : ProcessedSprite (gmap Z Z)) (p : Z) :
  0 < width img ->
  processSticker img config = Ok out ->
  is_Some (sprite_blob out !! (p * 4)) ->
  pixelAt (sprite_blob out) p = (Some 0, Some 0, Some 0, Some 0) \/
  (0 < borderWidth config /\
   pixelAt (sprite_blob out) p = (Some 255, Some 255, Some 255, Some 255)) \/
  (exists i, foreground (repairedMask img config) i /\
     pixelAt (sprite_blob out) p
     = (Some (default 0 (data img !! (i * 4))),
        Some (default 0 (data img !! (i * 4 + 1))),
        Some (default 0 (data img !! (i * 4 + 2))),
        Some 255)).
Proof.
  intros Hw Hok Hsome.
  destruct (processSticker_Ok_box img config out Hw Hok)
    as (Hh & Hbox & Hsw & Hsh).
  pose proof (processSticker_Ok_canvas img config out Hok) as Hblob.
  cbv zeta in Hblob.
  pose proof (is_array_repairedMask img config Hw Hh) as Ha.
  set (mask := repairedMask img config) in *.
  set (b := cropBounds mask (width img) (height img)) in *.
  destruct (finalSizeOf_bounds _ _ (borderWidth config) Hsw Hsh)
    as (_ & Hfs & HoX & HoX' & HoY & HoY').
  cbv zeta in Hfs, HoX, HoX', HoY, HoY'.
  set (sw := maxX b - minX b + 1) in *. set (sh := maxY b - minY b + 1) in *.
  set (fs := finalSizeOf sw sh (borderWidth config)) in *.
  set (offX := (fs - sw) / 2) in *. set (offY := (fs - sh) / 2) in *.
  set (canvas := if 0 <? borderWidth config
                 then borderLayer mask (width img) b sw sh fs offX offY
                        (borderWidth config)
                 else newArray (fs * fs * 4)) in *.
  assert (Hkeys : forall j, is_Some (canvas !! j) <-> 0 <= j < fs * fs * 4).
  { intros j. unfold canvas. destruct (0 <? borderWidth config).
    - apply borderLayer_keys.
    - apply newArray_is_Some. }
  assert (Hcanvas : is_array canvas (fs * fs * 4)) by (split; [nia|done]).
  assert (Hp : 0 <= p < fs * fs).
  { rewrite Hblob, compositeSubject_same_dom in Hsome.
    apply Hkeys in Hsome. lia. }
  pose proof (Z.div_mod p fs ltac:(lia)) as Ep.
  pose proof (Z.mod_pos_bound p fs ltac:(lia)) as Hm.
  set (x := p mod fs - offX). set (y := p / fs - offY).
  assert (Edst : (offY + y) * fs + (offX + x) = p) by (unfold x, y; lia).
  destruct (decide (0 <= x < sw /\ 0 <= y < sh /\
              mask !! ((minY b + y) * width img + (minX b + x)) = Some 1))
    as [(Hx & Hy & Hfg)|Hno].
  - right. right. exists ((minY b + y) * width img + (minX b + x)).
    split.
    + split; [|done]. rewrite (is_array_alength _ _ Ha).
      apply (proj1 (repairedMask_keys img config _)). fold mask.
      rewrite Hfg. eauto.
    + pose proof (compositeSubject_pixel (data img) mask (width img) b sw sh fs
        offX offY canvas x y Hcanvas HoX HoX' HoY HoY' Hx Hy Hfg) as Hpix.
      cbv zeta in Hpix. rewrite Edst, <- Hblob in Hpix.
      destruct Hpix as (Hp0 & Hp1 & Hp2 & Hp3).
      unfold pixelAt. by rewrite Hp0, Hp1, Hp2, Hp3.
  - assert (Hsame : forall c, 0 <= c < 4 ->
              sprite_blob out !! (p * 4 + c) = canvas !! (p * 4 + c)).
    { intros c Hc. rewrite Hblob, compositeSubject_writes.
      apply foldl_asetp_untouched. intros v Hv.
      apply list_elem_of_In, in_flat_map in Hv as ([x' y'] & Hcell & Hv).
      apply list_elem_of_In, elem_of_boxCells in Hcell as [Hx' Hy'].
      unfold subjectWrites in Hv. simpl in Hv.
      destruct (is_val (mask !! ((minY b + y') * width img + (minX b + x'))) 1)
        eqn:Hfg; simpl in Hv; [|done].
      apply is_val_true in Hfg.
      assert (Hxy : x' = x /\ y' = y).
      { destruct Hv as [Hv|[Hv|[Hv|[Hv|[]]]]]; injection Hv as Hk _.
        - destruct (dst_injective fs offX offY x' y' 0 x y c) as (?&?&?); lia.
        - destruct (dst_injective fs offX offY x' y' 1 x y c) as (?&?&?); lia.
        - destruct (dst_injective fs offX offY x' y' 2 x y c) as (?&?&?); lia.
        - destruct (dst_injective fs offX offY x' y' 3 x y c) as (?&?&?); lia. }
      destruct Hxy as [-> ->]. apply Hno. done. }
    assert (Hpx : pixelAt (sprite_blob out) p = pixelAt canvas p).
    { unfold pixelAt. pose proof (Hsame 0 ltac:(lia)) as H0.
      rewrite Z.add_0_r in H0.
      rewrite H0, (Hsame 1), (Hsame 2), (Hsame 3) by lia. reflexivity. }
    rewrite Hpx. unfold canvas.
    destruct (Z.ltb_spec 0 (borderWidth config)) as [Hbw|Hbw].
    + destruct (borderLayer_pixel mask (width img) b sw sh fs offX offY
                  (borderWidth config) p Hp) as [H0|H1]; [by left|].
      right. left. done.
    + left. unfold pixelAt. rewrite !newArray_lookup.
      rewrite !decide_True by lia. reflexivity.
Qed.

Lemma processSticker_pixel_classes_witness :
  exists out, processSticker dotImage plainConfig = Ok out /\
  (is_Some (sprite_blob out !! (0 * 4)) ->
   pixelAt (sprite_blob out) 0 = (Some 0, Some 0, Some 0, Some 0) \/
   (0 < borderWidth plainConfig /\
    pixelAt (sprite_blob out) 0 = (Some 255, Some 255, Some 255, Some 255)) \/
   (exists i, foreground (repairedMask dotImage plainConfig) i /\
      pixelAt (sprite_blob out) 0
      = (Some (default 0 (data dotImage !! (i * 4))),
         Some (default 0 (data dotImage !! (i * 4 + 1))),
         Some (default 0 (data dotImage !! (i * 4 + 2))),
         Some 255))).
Proof.
  destruct dotImage_Ok as [out E].
  exists out. split; [exact E|].
  apply (processSticker_pixel_classes dotImage plainConfig out 0);
    [reflexivity|exact E].
Defined.

(** ** Smart mode: small images *)

Lemma smartTest_spec isContent width height v i n :
  smartTest isContent width height v i n
  = is_val (v !! n) 0 && smartEdge isContent width height i n.
Proof.
  unfold smartTest, smartEdge.
  destruct (0 <=? n), (n <? width * height), (is_val (v !! n) 0),
    (is_val (isContent !! n) 1); reflexivity.
Qed.

(** Every pop counts one pixel, and every pixel on the stack was taken
    from the cells not yet visited. *)
Lemma componentLoop_count (isContent : gmap Z Z) (width height : Z) :
  forall (fuel : nat) (c : Component) (stack : list Z),
    cCount (componentLoop isContent width height fuel c stack)
    <= cCount c + Z.of_nat (zeros (cVisited c) + length stack).
Proof.
  induction fuel as [|fuel IH]; intros c stack; [simpl; lia|].
  destruct stack as [|idx rest]; [simpl; lia|].
  cbn [componentLoop]. cbv zeta.
  etransitivity; [apply IH|]. cbn [cCount cVisited].
  pose proof (sr_fuel _ _ _ _ _ _ _
    (floodStep_rel (smartTest isContent width height) width
       (smartEdge isContent width height)
       (smartTest_spec isContent width height) idx (cVisited c) rest)) as Hf.
  cbn [length]. lia.
Qed.

Lemma componentLoop_same_dom (isContent : gmap Z Z) (width height : Z) :
  forall (fuel : nat) (c : Component) (stack : list Z) (j : Z),
    is_Some (cVisited (componentLoop isContent width height fuel c stack) !! j)
    <-> is_Some (cVisited c !! j).
Proof.
  induction fuel as [|fuel IH]; intros c stack j; [done|].
  destruct stack as [|idx rest]; [done|].
  cbn [componentLoop]. cbv zeta. rewrite IH. cbn [cVisited].
  apply floodStep_same_dom.
Qed.

Lemma smartRects_small (isContent : gmap Z Z) (width height : Z) (pad : Q) :
  width * height <= minArea ->
  smartRects isContent width height pad = [].
Proof.
  intros Hsmall. unfold smartRects.
  pose proof (forUpTo_ind
    (fun _ (st : gmap Z Z * list Rect) =>
       alength (fst st) <= minArea /\ snd st = [])
    (width * height)
    (fun st i =>
       let visited := fst st in
       let rects := snd st in
       if is_val (isContent !! i) 1 && is_val (visited !! i) 0 then
         let x := Z.rem i width in
         let y := i / width in
         let visited := aset visited i 1 in
         let c := componentLoop isContent width height
                    (floodFuel visited [i])
                    (mkComponent visited 0 x x y y) [i] in
         (cVisited c,
          if minArea <? cCount c
          then rects ++ [paddedRect c width height pad]
          else rects)
       else st)
    (newArray (width * height), [])) as Hind.
  cbv beta in Hind. apply Hind; clear Hind.
  - split; [|done]. cbn [fst]. rewrite alength_newArray. unfold minArea in *. lia.
  - intros k st Hk [Hlen Hnil]. cbv zeta.
    destruct (is_val (isContent !! k) 1); cbn [andb]; [|done].
    destruct (is_val (fst st !! k) 0) eqn:Hv; [|done].
    apply is_val_true in Hv.
    set (c := componentLoop _ _ _ _ _ _).
    assert (Hc : cCount c <= minArea).
    { pose proof (componentLoop_count isContent width height
        (floodFuel (aset (fst st) k 1) [k])
        (mkComponent (aset (fst st) k 1) 0 (Z.rem k width) (Z.rem k width)
           (k / width) (k / width)) [k]) as Hcount.
      fold c in Hcount. cbn [cCount cVisited length] in Hcount.
      pose proof (zeros_aset (fst st) k Hv) as Hz.
      pose proof (zeros_le_size (fst st)) as Hs.
      unfold alength in Hlen. lia. }
    split.
    + cbn [fst]. rewrite (same_dom_alength _ (aset (fst st) k 1)).
      * by rewrite alength_aset.
      * intros j. unfold c. rewrite componentLoop_same_dom. done.
    + cbn [snd]. destruct (Z.ltb_spec minArea (cCount c)); [lia|done].
Qed.

(** X18.  In smart mode an image of at most 400 pixels yields no Rect:
    no component can count more than [minArea] pixels. *)
Theorem detectSegments_smart_small_image (img : ImageData)
  (options : ProcessorOptions) :
  opt_mode options = smart ->
  width img * height img <= 400 ->
  detectSegments img options = [].
Proof.
  intros Hm Hsmall. unfold detectSegments. rewrite Hm. cbv zeta.
  by apply smartRects_small.
Qed.

Lemma detectSegments_smart_small_image_witness :
  detectSegments dotImage (mkOptions smart 20 1 1 None None) = [].
Proof.
  apply (detectSegments_smart_small_image dotImage
           (mkOptions smart 20 1 1 None None)); [reflexivity|simpl; lia].
Defined.

(** ** The custom grid *)

Lemma customGridRects_cells (g : CustomGrid) (width height : Z) :
  customGridRects g width height
  = flat_map
      (fun r => map
         (fun c => mkRect
            (inject_Z (round (at_ (cutLines (xLines g) width) c)))
            (inject_Z (round (at_ (cutLines (yLines g) height) r)))
            (inject_Z (round (at_ (cutLines (xLines g) width) (c + 1)
                              - at_ (cutLines (xLines g) width) c)))
            (inject_Z (round (at_ (cutLines (yLines g) height) (r + 1)
                              - at_ (cutLines (yLines g) height) r))))
         (indices (Z.of_nat (length (cutLines (xLines g) width)) - 1)))
      (indices (Z.of_nat (length (cutLines (yLines g) height)) - 1)).
Proof.
  unfold customGridRects. cbv zeta.
  apply (forUpTo_rows _ _
    (fun r c => mkRect
       (inject_Z (round (at_ (cutLines (xLines g) width) c)))
       (inject_Z (round (at_ (cutLines (yLines g) height) r)))
       (inject_Z (round (at_ (cutLines (xLines g) width) (c + 1)
                         - at_ (cutLines (xLines g) width) c)))
       (inject_Z (round (at_ (cutLines (yLines g) height) (r + 1)
                         - at_ (cutLines (yLines g) height) r))))).
Qed.

Lemma length_insertNum (a : Q) (l : list Q) :
  length (insertNum a l) = S (length l).
Proof.
  induction l as [|b l IH]; simpl; [done|].
  destruct (Qle_bool a b); simpl; [done|]. by rewrite IH.
Qed.

Lemma length_sortNum (l : list Q) : length (sortNum l) = length l.
Proof.
  induction l as [|a l IH]; simpl; [done|].
  by rewrite length_insertNum, IH.
Qed.

Lemma length_cutLines (lines : list Q) (size : Z) :
  length (cutLines lines size) = S (S (length lines)).
Proof.
  unfold cutLines. rewrite length_sortNum. simpl.
  rewrite length_app, length_map. simpl. lia.
Qed.

(** X19.  In grid mode with a custom grid of [m] vertical and [n]
    horizontal cut lines, [detectSegments] returns [(m + 1) * (n + 1)]
    Rects, whatever the positions of the lines. *)
Theorem detectSegments_custom_grid_count (img : ImageData)
  (options : ProcessorOptions) (g : CustomGrid) :
  opt_mode options = grid -> opt_customGrid options = Some g ->
  length (detectSegments img options)
  = (S (length (yLines g)) * S (length (xLines g)))%nat.
Proof.
  intros Hm Hg. unfold detectSegments. rewrite Hm, Hg.
  rewrite customGridRects_cells.
  rewrite (flat_map_constant_length (c := S (length (xLines g)))).
  - rewrite length_indices, length_cutLines. f_equal. lia.
  - intros r _. rewrite length_map, length_indices, length_cutLines. lia.
Qed.

Lemma detectSegments_custom_grid_count_witness :
  length (detectSegments dotImage
            (mkOptions grid 20 1 1 None (Some (mkCustomGrid [0.5%Q] []))))
  = (S (length (yLines (mkCustomGrid [0.5%Q] [])))
     * S (length (xLines (mkCustomGrid [0.5%Q] []))))%nat.
Proof.
  apply (detectSegments_custom_grid_count dotImage
           (mkOptions grid 20 1 1 None (Some (mkCustomGrid [0.5%Q] [])))
           (mkCustomGrid [0.5%Q] [])); reflexivity.
Defined.

Lemma In_insertNum (a x : Q) (l : list Q) :
  In x (insertNum a l) <-> a = x \/ In x l.
Proof.
  induction l as [|b l IH]; simpl; [tauto|].
  destruct (Qle_bool a b); simpl; [tauto|]. rewrite IH. tauto.
Qed.

Lemma In_sortNum (x : Q) (l : list Q) : In x (sortNum l) <-> In x l.
Proof.
  induction l as [|a l IH]; simpl; [tauto|].
  rewrite In_insertNum, IH. split; intros [H|H]; auto.
Qed.

Lemma sorted_insertNum (a : Q) (l : list Q) :
  StronglySorted Qle l -> StronglySorted Qle (insertNum a l).
Proof.
  induction 1 as [|b l Hs IH Hb]; simpl.
  - constructor; constructor.
  - destruct (Qle_bool a b) eqn:Hab.
    + apply Qle_bool_iff in Hab. constructor; [by constructor|].
      constructor; [done|].
      apply Forall_forall. intros c Hc. apply Qle_trans with b; [done|].
      by apply (proj1 (Forall_forall _ _) Hb).
    + assert (Hba : (b <= a)%Q).
      { apply Qlt_le_weak, Qnot_le_lt. intros Hle.
        apply Qle_bool_iff in Hle. congruence. }
      constructor; [done|].
      apply Forall_forall. intros c Hc.
      apply list_elem_of_In, In_insertNum in Hc as [<-|Hc]; [done|].
      by apply (proj1 (Forall_forall _ _) Hb), list_elem_of_In.
Qed.

Lemma sorted_sortNum (l : list Q) : StronglySorted Qle (sortNum l).
Proof.
  induction l as [|a l IH]; simpl; [constructor|]. by apply sorted_insertNum.
Qed.

Lemma sorted_first (l : list Q) (e : Q) :
  StronglySorted Qle l -> In e l -> (nth 0 l 0 <= e)%Q.
Proof.
  intros Hs He. destruct Hs as [|a l Hs Ha]; [done|]. simpl.
  destruct He as [->|He]; [apply Qle_refl|].
  by apply (proj1 (Forall_forall _ _) Ha), list_elem_of_In.
Qed.

Lemma sorted_last (l : list Q) (e : Q) :
  StronglySorted Qle l -> In e l -> (e <= nth (length l - 1) l 0)%Q.
Proof.
  induction 1 as [|a l Hs IH Ha]; intros He; [done|].
  destruct l as [|b l].
  - simpl. destruct He as [->|[]]. apply Qle_refl.
  - change (nth (length (a :: b :: l) - 1) (a :: b :: l) 0%Q)
      with (nth (length l) (b :: l) 0%Q).
    assert (Hlast : nth (length l) (b :: l) 0%Q
                    = nth (length (b :: l) - 1) (b :: l) 0%Q).
    { simpl. by rewrite Nat.sub_0_r. }
    destruct He as [->|He].
    + apply (proj1 (Forall_forall _ _) Ha), list_elem_of_In.
      apply nth_In. simpl. lia.
    + rewrite Hlast. by apply IH.
Qed.

Lemma round_inject_Z (z : Z) : round (inject_Z z) = z.
Proof.
  unfold round, Qfloor, Qplus, inject_Z. simpl.
  symmetry. apply (Z.div_unique _ _ _ 5); lia.
Qed.

Lemma round_integral (q : Q) (z : Z) : (q == inject_Z z)%Q -> round q = z.
Proof. intros H. unfold round. rewrite H. apply round_inject_Z. Qed.

Lemma floor_integral (q : Q) (z : Z) : (q == inject_Z z)%Q -> Qfloor q = z.
Proof. intros H. rewrite H. apply Qfloor_Z. Qed.

Lemma sumQ_ext {A : Type} (f g : A -> Q) (l : list A) :
  (forall c, In c l -> (f c == g c)%Q) -> (sumQ f l == sumQ g l)%Q.
Proof.
  induction l as [|c l IH]; intros H; simpl; [reflexivity|].
  rewrite (H c) by (by left). rewrite IH; [reflexivity|].
  intros c' Hc'. apply H. by right.
Qed.

Lemma sumQ_telescope (F : Z -> Z) (k : nat) : forall s,
  (sumQ (fun c : Z => inject_Z (F (c + 1)%Z - F c)) (zseq s k)
   == inject_Z (F (s + Z.of_nat k)%Z - F s))%Q.
Proof.
  induction k as [|k IH]; intros s.
  - cbn [zseq sumQ fold_right]. change (Z.of_nat 0) with 0.
    rewrite Z.add_0_r, Z.sub_diag. reflexivity.
  - cbn [zseq sumQ fold_right]. fold (sumQ (fun c : Z => inject_Z (F (c + 1)%Z - F c))
                                         (zseq (s + 1) k)).
    rewrite IH, <- inject_Z_plus. apply inject_Z_injective.
    replace (s + 1 + Z.of_nat k) with (s + Z.of_nat (S k)) by lia. lia.
Qed.

Lemma totalArea_row {A : Type} (X Y Wd : A -> Q) (ht : Q) (l : list A) :
  (totalArea (map (fun c => mkRect (X c) (Y c) (Wd c) ht) l)
   == sumQ Wd l * ht)%Q.
Proof.
  induction l as [|c l IH].
  - unfold totalArea. simpl. ring.
  - cbn [map sumQ fold_right]. unfold totalArea in *. cbn [fold_right].
    rewrite IH. unfold rectArea. cbn [rect_w rect_h].
    fold (sumQ Wd l). ring.
Qed.

Lemma totalArea_grid {A C : Type} (X Y : C -> A -> Q) (Wd : A -> Q)
  (Ht : C -> Q) (lc : list A) (lr : list C) :
  (totalArea (flat_map
     (fun r => map (fun c => mkRect (X r c) (Y r c) (Wd c) (Ht r)) lc) lr)
   == sumQ Wd lc * sumQ Ht lr)%Q.
Proof.
  induction lr as [|r lr IH].
  - unfold totalArea. simpl. ring.
  - cbn [flat_map]. rewrite totalArea_app, IH.
    rewrite (totalArea_row (X r) (Y r) Wd (Ht r) lc).
    cbn [sumQ fold_right]. fold (sumQ Ht lr). ring.
Qed.

(** Along one axis: when every cut falls on a pixel boundary, the rounded
    widths of the cells add up to the length of the axis. *)
Lemma cutLines_span (lines : list Q) (size : Z) :
  0 <= size ->
  (forall p, In p lines -> onPixel size (p * inject_Z size)) ->
  (sumQ (fun c => inject_Z (round (at_ (cutLines lines size) (c + 1)
                                   - at_ (cutLines lines size) c)))
     (indices (Z.of_nat (length (cutLines lines size)) - 1))
   == inject_Z size)%Q.
Proof.
  intros Hsize Hlines.
  set (xs := cutLines lines size).
  assert (Hsorted : StronglySorted Qle xs) by apply sorted_sortNum.
  assert (Hin : forall e, In e xs <->
            e = 0%Q \/ In e (map (fun p => (p * inject_Z size)%Q) lines)
            \/ e = inject_Z size).
  { intros e. unfold xs, cutLines. rewrite In_sortNum. simpl.
    rewrite in_app_iff. simpl. split.
    - intros [H|[H|[H|[]]]]; auto.
    - intros [H|[H|H]]; auto. }
  assert (Hpix : forall e, In e xs -> onPixel size e).
  { intros e He. apply Hin in He as [->|[He| ->]].
    - exists 0. split; [lia|reflexivity].
    - apply in_map_iff in He as (p & <- & Hp). by apply Hlines.
    - exists size. split; [lia|reflexivity]. }
  assert (Hlen : length xs = S (S (length lines))) by apply length_cutLines.
  set (F := fun c => Qfloor (at_ xs c)).
  assert (Hentry : forall c, 0 <= c < Z.of_nat (length xs) ->
            (at_ xs c == inject_Z (F c))%Q).
  { intros c Hc. destruct (Hpix (at_ xs c)) as (z & _ & Hz).
    - unfold at_. apply nth_In. lia.
    - unfold F. by rewrite (floor_integral _ z Hz). }
  rewrite (sumQ_ext _ (fun c : Z => inject_Z (F (c + 1)%Z - F c))).
  - unfold indices. rewrite sumQ_telescope.
    replace (0 + Z.of_nat (Z.to_nat (Z.of_nat (length xs) - 1)))
      with (Z.of_nat (length xs) - 1) by lia.
    assert (Hfirst : F 0 = 0).
    { destruct (Hpix (at_ xs 0)) as (z & Hz & Ez);
        [unfold at_; apply nth_In; lia|].
      unfold F. rewrite (floor_integral _ z Ez).
      assert (Hle : (at_ xs 0 <= 0)%Q).
      { apply (sorted_first xs 0%Q Hsorted). apply Hin. auto. }
      rewrite Ez in Hle. change 0%Q with (inject_Z 0) in Hle.
      rewrite <- Zle_Qle in Hle. lia. }
    assert (Hlast : F (Z.of_nat (length xs) - 1) = size).
    { destruct (Hpix (at_ xs (Z.of_nat (length xs) - 1))) as (z & Hz & Ez);
        [unfold at_; apply nth_In; lia|].
      unfold F. rewrite (floor_integral _ z Ez).
      assert (Hle : (inject_Z size <= at_ xs (Z.of_nat (length xs) - 1))%Q).
      { unfold at_.
        replace (Z.to_nat (Z.of_nat (length xs) - 1))
          with (length xs - 1)%nat by lia.
        apply (sorted_last xs _ Hsorted). apply Hin. auto. }
      rewrite Ez in Hle. rewrite <- Zle_Qle in Hle. lia. }
    rewrite Hfirst, Hlast. by rewrite Z.sub_0_r.
  - intros c Hc. apply list_elem_of_In, elem_of_indices in Hc.
    rewrite (round_integral _ (F (c + 1) - F c)); [reflexivity|].
    rewrite (Hentry c), (Hentry (c + 1)) by lia.
    unfold Z.sub. rewrite inject_Z_plus, inject_Z_opp. reflexivity.
Qed.

(** X20.  In grid mode with a custom grid all of whose cuts fall on pixel
    boundaries of the image, the areas of the Rects that [detectSegments]
    returns add up to the area of the image. *)
Theorem detectSegments_custom_grid_pixel_cuts (img : ImageData)
  (options : ProcessorOptions) (g : CustomGrid) :
  0 <= width img -> 0 <= height img ->
  opt_mode options = grid -> opt_customGrid options = Some g ->
  (forall p, In p (xLines g) -> onPixel (width img) (p * inject_Z (width img))) ->
  (forall p, In p (yLines g) -> onPixel (height img) (p * inject_Z (height img))) ->
  (totalArea (detectSegments img options)
   == inject_Z (width img) * inject_Z (height img))%Q.
Proof.
  intros Hw Hh Hm Hg Hx Hy. unfold detectSegments. rewrite Hm, Hg.
  rewrite customGridRects_cells.
  rewrite (totalArea_grid
    (fun _ c => inject_Z (round (at_ (cutLines (xLines g) (width img)) c)))
    (fun r _ => inject_Z (round (at_ (cutLines (yLines g) (height img)) r)))
    (fun c => inject_Z (round (at_ (cutLines (xLines g) (width img)) (c + 1)
                               - at_ (cutLines (xLines g) (width img)) c)))
    (fun r => inject_Z (round (at_ (cutLines (yLines g) (height img)) (r + 1)
                               - at_ (cutLines (yLines g) (height img)) r)))).
  rewrite (cutLines_span _ _ Hw Hx), (cutLines_span _ _ Hh Hy). reflexivity.
Qed.

Lemma detectSegments_custom_grid_pixel_cuts_witness :
  (totalArea (detectSegments wideImage
                (mkOptions grid 20 1 1 None
                   (Some (mkCustomGrid [0.25%Q] [0.5%Q]))))
   == inject_Z (width wideImage) * inject_Z (height wideImage))%Q.
Proof.
  apply (detectSegments_custom_grid_pixel_cuts wideImage
           (mkOptions grid 20 1 1 None (Some (mkCustomGrid [0.25%Q] [0.5%Q])))
           (mkCustomGrid [0.25%Q] [0.5%Q]));
    [simpl; lia | simpl; lia | reflexivity | reflexivity | |].
  - intros p [<-|[]]. exists 1. split; [simpl; lia|reflexivity].
  - intros p [<-|[]]. exists 1. split; [simpl; lia|reflexivity].
Defined.

(** ** Masks that the morphology leaves alone *)

Lemma existsb_no_value (c : gmap Z Z) (len v : Z) (l : list Z) :
  (forall j, c !! j <> Some v) ->
  existsb (fun idx => (0 <=? idx) && (idx <? len) && is_val (c !! idx) v) l
  = false.
Proof.
  intros Hnone. induction l as [|i l IH]; simpl; [done|].
  rewrite IH, orb_false_r.
  assert (Hi : is_val (c !! i) v = false) by apply is_val_false, Hnone.
  rewrite Hi. apply andb_false_r.
Qed.

Lemma sweep_idle (len a b v : Z) (w : Z) (curr next : gmap Z Z) :
  (forall j, curr !! j <> Some v) ->
  forUpTo len
    (fun next i =>
       if is_val (curr !! i) a then
         if existsb
              (fun idx => (0 <=? idx) && (idx <? len) && is_val (curr !! idx) v)
              [i - 1; i + 1; i - w; i + w]
         then aset next i b
         else next
       else next) next
  = next.
Proof.
  intros Hnone. unfold forUpTo.
  induction (indices len) as [|i l IH]; cbn [foldl]; [done|].
  rewrite (existsb_no_value curr len v [i - 1; i + 1; i - w; i + w] Hnone).
  destruct (is_val (curr !! i) a); exact IH.
Qed.

Lemma iter_fixed {A : Type} (f : A -> A) (x : A) (n : nat) :
  f x = x -> Nat.iter n f x = x.
Proof. intros Hf. induction n as [|n IH]; simpl; [done|]. by rewrite IH. Qed.

(** X21.  The edge of the image does not count as background: [erode]
    leaves a mask without a background cell as it is, whatever the number
    of passes; and [dilate] leaves a mask without a foreground cell as it
    is. *)
Theorem morphology_needs_the_other_value (mask : gmap Z Z) (w h passes : Z) :
  ((forall j, mask !! j <> Some 0) -> erode mask w h passes = mask) /\
  ((forall j, mask !! j <> Some 1) -> dilate mask w h passes = mask).
Proof.
  split; intros Hnone.
  - rewrite erode_iter. apply iter_fixed.
    apply (sweep_idle (alength mask) 1 0 0 w mask mask Hnone).
  - rewrite dilate_iter. apply iter_fixed.
    apply (sweep_idle (alength mask) 0 1 1 w mask mask Hnone).
Qed.

Lemma morphology_needs_the_other_value_witness :
  ((forall j, of_list [1; 1; 1; 1] !! j <> Some 0) ->
   erode (of_list [1; 1; 1; 1]) 2 2 3 = of_list [1; 1; 1; 1]) /\
  ((forall j, of_list [1; 1; 1; 1] !! j <> Some 1) ->
   dilate (of_list [1; 1; 1; 1]) 2 2 3 = of_list [1; 1; 1; 1]).
Proof. apply (morphology_needs_the_other_value (of_list [1; 1; 1; 1]) 2 2 3). Defined.
